(** * Enhanced Watershed labelling (monte_python/EnhancedWatershedSegmenter.py)

    A shallow embedding of the class [EnhancedWatershed]: the quantizer,
    the local-maxima finder, the region grower with its flood expander
    ([set_maximum]) and the foothill resolver ([remove_foothills]), the
    public entry point [label], and the static methods [is_closest],
    [size_filter] and [is_valid].

    Modelling conventions.
    - A 2-D numpy array is a shape together with its row-major buffer.
      Indexing with a tuple follows numpy: an index [i] with [-n <= i < 0]
      denotes [i + n], anything outside [-n, n) raises [IndexError].
      Basic slices follow Python's slice adjustment (a negative bound is
      counted from the end, then both bounds are clipped to [0, n]).
    - Python exceptions are the constructor [Raise] of [result]; the
      [while] loops take a fuel argument and [OutOfFuel] is the only
      outcome that does not exist in the program.
    - Python lists used as LIFO stacks ([as_bin], [as_glob], [hills]) keep
      their top, the last element of the Python list, at the head.
    - dicts keyed by bin number are association lists in insertion order.
    - The two floating-point expressions of the program (the influence
      radius and the constructor's [max_bin]) are evaluated exactly.  The
      conversion of the input grid to 32-bit integers and the arithmetic
      of the quantizer are modelled for values and configuration integers
      inside the 32-bit range; the properties that depend on them say so
      ([config_fits], [representable], [below_threshold]).
    - Every [while] loop of a call gets the fuel of the call afresh.
    - Of [scipy.ndimage.find_objects] the model keeps what [size_filter]
      reads: one entry for each label from 1 to the maximum of the grid,
      which is the extent of the smallest box around the cells of the
      label, or [None] for a label that no cell holds. *)

From Stdlib Require Import ZArith List Lia Bool QArith Qround Sorted.
From stdpp Require Import base tactics list.

Close Scope Q_scope.
Local Open Scope Z_scope.

(** ** Outcomes of a call *)

Inductive exn := IndexError | KeyError | ZeroDivisionError | ValueError.

Inductive result (A : Type) : Type :=
| Ok (a : A)
| Raise (e : exn)
| OutOfFuel.
Arguments Ok {A} a.
Arguments Raise {A} e.
Arguments OutOfFuel {A}.

Definition bind {A B} (m : result A) (k : A -> result B) : result B :=
  match m with
  | Ok a => k a
  | Raise e => Raise e
  | OutOfFuel => OutOfFuel
  end.

Notation "'let*' x ':=' m 'in' k" := (bind m (fun x => k))
  (at level 10, x name, m at level 100, k at level 200, only parsing).
Notation "'let*' ' p ':=' m 'in' k" := (bind m (fun x => match x with p => k end))
  (at level 10, p pattern, m at level 100, k at level 200, only parsing).

(** ** numpy arrays *)

Definition pixel : Type := Z * Z.

Record ndarray (A : Type) := NdArray {
  nrows : nat;
  ncols : nat;
  cells : list A
}.
Arguments NdArray {A} nrows ncols cells.
Arguments nrows {A} _.
Arguments ncols {A} _.
Arguments cells {A} _.

Definition same_shape {A B} (a : ndarray A) (b : ndarray B) : Prop :=
  nrows a = nrows b /\ ncols a = ncols b.

(** [a[i]] along an axis of length [n]. *)
Definition norm_index (n : nat) (i : Z) : option nat :=
  if (0 <=? i) && (i <? Z.of_nat n) then Some (Z.to_nat i)
  else if (- Z.of_nat n <=? i) && (i <? 0) then Some (Z.to_nat (i + Z.of_nat n))
  else None.

Definition offset {A} (a : ndarray A) (p : pixel) : option nat :=
  match norm_index (nrows a) (fst p), norm_index (ncols a) (snd p) with
  | Some r, Some c => Some (r * ncols a + c)%nat
  | _, _ => None
  end.

Definition getitem {A} (a : ndarray A) (p : pixel) : result A :=
  match offset a p with
  | Some k => match cells a !! k with
              | Some v => Ok v
              | None => Raise IndexError
              end
  | None => Raise IndexError
  end.

Definition setitem {A} (a : ndarray A) (p : pixel) (v : A) : result (ndarray A) :=
  match offset a p with
  | Some k => if (k <? length (cells a))%nat
              then Ok (NdArray (nrows a) (ncols a) (<[k:=v]> (cells a)))
              else Raise IndexError
  | None => Raise IndexError
  end.

(** [np.ones(shape) * v] *)
Definition full {A} (h w : nat) (v : A) : ndarray A :=
  NdArray h w (replicate (h * w) v).

(** Adjustment of one slice bound on an axis of length [n]. *)
Definition slice_adjust (n : nat) (i : Z) : Z :=
  if i <? 0 then Z.max (i + Z.of_nat n) 0 else Z.min i (Z.of_nat n).

Definition slice_start (n : nat) (lo : Z) : nat := Z.to_nat (slice_adjust n lo).
Definition slice_len (n : nat) (lo hi : Z) : nat :=
  Z.to_nat (slice_adjust n hi - slice_adjust n lo).

(** [np.ndenumerate(a[r0:r1, c0:c1])]: the indices [(i, j)] inside the
    slice, in row-major order, each with the position of the cell of [a]
    that the view shows there.  The value is read when the iteration
    reaches the cell. *)
Definition ndenumerate {A} (a : ndarray A) (r0 r1 c0 c1 : Z) : list (pixel * nat) :=
  let rs := slice_start (nrows a) r0 in
  let cs := slice_start (ncols a) c0 in
  flat_map (fun i =>
    map (fun j => ((Z.of_nat i, Z.of_nat j), ((rs + i) * ncols a + (cs + j))%nat))
        (seq 0 (slice_len (ncols a) c0 c1)))
    (seq 0 (slice_len (nrows a) r0 r1)).

Definition view_read {A} (a : ndarray A) (k : nat) : result A :=
  match cells a !! k with
  | Some v => Ok v
  | None => Raise IndexError
  end.

(** ** dicts keyed by bin number *)

Definition dict : Type := list (Z * list pixel).

Definition keys (d : dict) : list Z := map fst d.

Fixpoint dict_get (d : dict) (k : Z) : result (list pixel) :=
  match d with
  | [] => Raise KeyError
  | (k', l) :: d' => if k' =? k then Ok l else dict_get d' k
  end.

(** [d[k].append(p)] *)
Fixpoint dict_append (d : dict) (k : Z) (p : pixel) : result dict :=
  match d with
  | [] => Raise KeyError
  | (k', l) :: d' =>
      if k' =? k then Ok ((k', l ++ [p]) :: d')
      else let* d'' := dict_append d' k p in Ok ((k', l) :: d'')
  end.

(** ** The object and its constructor *)

Definition UNMARKED : Z := -1.
Definition GLOBBED : Z := -3.
Definition TOOSMALL : Z := -4.

Record EnhancedWatershed := {
  min_thresh : Z;
  data_increment : Z;
  max_thresh : Z;
  max_size : Z;
  min_size : Z;
  dist_btw_objects : Z;
  max_bin : Z
}.

(** [__init__]; [int(x / y)] truncates toward zero and Python raises on a
    zero divisor. *)
Definition init (min_thresh max_thresh area_threshold dist_btw_objects data_increment : Z)
  : result EnhancedWatershed :=
  if data_increment =? 0 then Raise ZeroDivisionError
  else Ok {| min_thresh := min_thresh;
             data_increment := data_increment;
             max_thresh := max_thresh;
             max_size := area_threshold;
             min_size := 6;
             dist_btw_objects := dist_btw_objects;
             max_bin := Z.quot (max_thresh - min_thresh) data_increment |}.

(** ** quantize *)

Definition wrap32 (x : Z) : Z := (x + 2 ^ 31) mod 2 ^ 32 - 2 ^ 31.

(** [np.array(input_grid, dtype=np.int32)] on one value: the fractional
    part is dropped. *)
Definition to_int32 (v : Q) : Z := wrap32 (Z.quot (Qnum v) (Z.pos (Qden v))).

Definition quantize_cell (self : EnhancedWatershed) (v : Z) : Z :=
  let d := wrap32 (wrap32 (v - min_thresh self) / data_increment self) in
  let d := if min_thresh self =? 0
           then (if d <=? 0 then -1 else d)
           else (if d <? 0 then -1 else d) in
  if max_bin self <? d then max_bin self else d.

(** [np.where(data >= 0)]: the coordinates, in row-major order. *)
Definition unravel {A} (a : ndarray A) (k : nat) : pixel :=
  (Z.of_nat (k / ncols a), Z.of_nat (k mod ncols a)).

Definition where_nonneg (data : ndarray Z) : list pixel :=
  omap (fun kv => if 0 <=? snd kv then Some (unravel data (fst kv)) else None)
       (imap (fun k v => (k, v)) (cells data)).

Fixpoint fill_pixels (data : ndarray Z) (good : list pixel) (pixels : dict) : result dict :=
  match good with
  | [] => Ok pixels
  | g :: good' =>
      let* b := getitem data g in
      let* pixels' := dict_append pixels b g in
      fill_pixels data good' pixels'
  end.

Definition empty_bins (self : EnhancedWatershed) : dict :=
  map (fun i => (i, [])) (seqZ 0 (max_bin self + 1)).

Definition quantize_int (self : EnhancedWatershed) (grid : ndarray Z)
  : result (dict * ndarray Z) :=
  let data := NdArray (nrows grid) (ncols grid) (map (quantize_cell self) (cells grid)) in
  let* pixels := fill_pixels data (where_nonneg data) (empty_bins self) in
  Ok (pixels, data).

Definition astype_int32 (grid : ndarray Q) : ndarray Z :=
  NdArray (nrows grid) (ncols grid) (map to_int32 (cells grid)).

Definition quantize (self : EnhancedWatershed) (input_grid : ndarray Q)
  : result (dict * ndarray Z) :=
  quantize_int self (astype_int32 input_grid).

(** ** find_local_maxima *)

(** [np.round] of the rational [n / d] ([d <> 0]): nearest integer, ties
    to the even one. *)
Definition round_half_even (n d : Z) : Z :=
  let n' := if d <? 0 then - n else n in
  let d' := Z.abs d in
  let q := n' / d' in
  let r := n' mod d' in
  if 2 * r <? d' then q
  else if d' <? 2 * r then q + 1
  else if Z.even q then q else q + 1.

(** [int(np.round(1 + 0.5 * np.sqrt(dist_btw_objects)))]; the square root
    of a negative number is [nan], which [int] refuses. *)
Definition MIN_INFL (self : EnhancedWatershed) : result Z :=
  let d := dist_btw_objects self in
  if d <? 0 then Raise ValueError
  else
    let s := Z.sqrt d in
    if s * s =? d then Ok (round_half_even (2 + s) 2) else Ok ((3 + s) / 2).

(** [MIN_INFL + int(np.round(float(b) / self.max_bin * (MAX_INFL - MIN_INFL)))] *)
Definition infl_dist (self : EnhancedWatershed) (MIN MAX b : Z) : result Z :=
  if max_bin self =? 0 then Raise ZeroDivisionError
  else Ok (MIN + round_half_even (b * (MAX - MIN)) (max_bin self)).

(** [sorted(l, reverse=True)] *)
Fixpoint insert_desc (x : Z) (l : list Z) : list Z :=
  match l with
  | [] => [x]
  | y :: l' => if y <? x then x :: l else y :: insert_desc x l'
  end.
Definition sorted_reverse (l : list Z) : list Z := foldr insert_desc [] l.

(** [for m in marked_so_far: marked[m] = self.UNMARKED] *)
Fixpoint unmark_all (marked : ndarray Z) (ms : list pixel) : result (ndarray Z) :=
  match ms with
  | [] => Ok marked
  | m :: ms' =>
      let* marked' := setitem marked m UNMARKED in
      unmark_all marked' ms'
  end.

(** The loop over the influence square of [p], with its [break]. *)
Fixpoint claim_square (marked : ndarray Z) (p : pixel) (infl b : Z)
    (win : list (pixel * nat)) (ok : bool) (marked_so_far : list pixel)
  : result (ndarray Z * bool * list pixel) :=
  match win with
  | [] => Ok (marked, ok, marked_so_far)
  | ((i, j), k) :: win' =>
      let* v := view_read marked k in
      if v =? UNMARKED then
        let m := (i - infl + fst p, j - infl + snd p) in
        let* marked' := setitem marked m b in
        claim_square marked' p infl b win' true (marked_so_far ++ [m])
      else Ok (marked, false, marked_so_far)
  end.

Definition influence_square (marked : ndarray Z) (p : pixel) (infl : Z) : list (pixel * nat) :=
  ndenumerate marked (fst p - infl) (fst p + infl + 1) (snd p - infl) (snd p + infl + 1).

Definition try_center (marked : ndarray Z) (centers : dict) (b infl : Z) (p : pixel)
  : result (ndarray Z * dict) :=
  let* v := getitem marked p in
  if v =? UNMARKED then
    let* '(marked', ok, marked_so_far) :=
      claim_square marked p infl b (influence_square marked p infl) false [] in
    if ok then
      let* centers' := dict_append centers b p in
      Ok (marked', centers')
    else
      let* marked'' := unmark_all marked' marked_so_far in
      Ok (marked'', centers)
  else Ok (marked, centers).

Fixpoint scan_bin (marked : ndarray Z) (centers : dict) (b infl : Z) (ps : list pixel)
  : result (ndarray Z * dict) :=
  match ps with
  | [] => Ok (marked, centers)
  | p :: ps' =>
      let* '(marked', centers') := try_center marked centers b infl p in
      scan_bin marked' centers' b infl ps'
  end.

Fixpoint scan_bins (self : EnhancedWatershed) (pixels : dict) (MIN MAX : Z)
    (marked : ndarray Z) (centers : dict) (bins : list Z) : result dict :=
  match bins with
  | [] => Ok centers
  | b :: bins' =>
      let* infl := infl_dist self MIN MAX b in
      let* ps := dict_get pixels b in
      let* '(marked', centers') := scan_bin marked centers b infl ps in
      scan_bins self pixels MIN MAX marked' centers' bins'
  end.

Definition find_local_maxima (self : EnhancedWatershed) (pixels : dict) (q_data : ndarray Z)
  : result dict :=
  let centers := map (fun k => (k, [])) (keys pixels) in
  let marked := full (nrows q_data) (ncols q_data) UNMARKED in
  let* MIN := MIN_INFL self in
  let MAX := 2 * MIN in
  scan_bins self pixels MIN MAX marked centers (sorted_reverse (keys pixels)).

(** ** set_maximum *)

Definition window3 (marked : ndarray Z) (p : pixel) : list (pixel * nat) :=
  ndenumerate marked (fst p - 1) (fst p + 2) (snd p - 1) (snd p + 2).

(** The loop over the neighbours of [p]; [marked] is not written here. *)
Fixpoint check_neighbors (q_data marked : ndarray Z) (p : pixel)
    (center_data bin_lower : Z) (win : list (pixel * nat))
    (will_be_considered_again : bool) (as_bin as_glob : list pixel)
  : result (bool * list pixel * list pixel) :=
  match win with
  | [] => Ok (will_be_considered_again, as_bin, as_glob)
  | ((i, j), k) :: win' =>
      let* val := view_read marked k in
      if val =? UNMARKED then
        let pixel := (i - 1 + fst p, j - 1 + snd p) in
        let* p_data := getitem q_data pixel in
        let wbca :=
          if negb will_be_considered_again && (0 <=? p_data) && (p_data <? center_data)
          then true else will_be_considered_again in
        if bin_lower <=? p_data then
          check_neighbors q_data marked p center_data bin_lower win' wbca (pixel :: as_bin) as_glob
        else if 0 <=? p_data then
          check_neighbors q_data marked p center_data bin_lower win' wbca as_bin (pixel :: as_glob)
        else
          check_neighbors q_data marked p center_data bin_lower win' wbca as_bin as_glob
      else
        check_neighbors q_data marked p center_data bin_lower win' will_be_considered_again
          as_bin as_glob
  end.

Record flooded := Flooded {
  fl_marked : ndarray Z;
  fl_as_glob : list pixel;
  fl_marked_so_far : list pixel;
  fl_again : bool
}.

(** [while len(as_bin) > 0: ...] *)
Fixpoint flood (fuel : nat) (q_data marked : ndarray Z) (center_data bin_lower capture_index : Z)
    (as_bin as_glob marked_so_far : list pixel) (will_be_considered_again : bool)
  : result flooded :=
  match as_bin with
  | [] => Ok (Flooded marked as_glob marked_so_far will_be_considered_again)
  | p :: as_bin' =>
      match fuel with
      | O => OutOfFuel
      | S fuel' =>
          let* v := getitem marked p in
          if negb (v =? UNMARKED) then
            flood fuel' q_data marked center_data bin_lower capture_index
              as_bin' as_glob marked_so_far will_be_considered_again
          else
            let* marked' := setitem marked p capture_index in
            let* '(wbca, as_bin'', as_glob') :=
              check_neighbors q_data marked' p center_data bin_lower (window3 marked' p)
                will_be_considered_again as_bin' as_glob in
            flood fuel' q_data marked' center_data bin_lower capture_index
              as_bin'' as_glob' (marked_so_far ++ [p]) wbca
      end
  end.

Definition foothill : Type := pixel * list pixel.

(** The part of [set_maximum] up to the end of the [while] loop. *)
Definition grow_region (fuel : nat) (q_data marked : ndarray Z) (center : pixel)
    (bin_lower capture_index : Z) : result flooded :=
  let* center_data := getitem q_data center in
  flood fuel q_data marked center_data bin_lower capture_index [center] [] [] false.

Definition again_after (bin_lower : Z) (fl : flooded) : bool :=
  if bin_lower =? 0 then false else fl_again fl.

Definition big_enough (self : EnhancedWatershed) (fl : flooded) : bool :=
  max_size self <=? Z.of_nat (length (fl_marked_so_far fl)).

Definition too_small (self : EnhancedWatershed) (fl : flooded) : bool :=
  Z.of_nat (length (fl_marked_so_far fl)) <=? min_size self.

Definition set_maximum (fuel : nat) (self : EnhancedWatershed) (q_data marked : ndarray Z)
    (center : pixel) (bin_lower : Z) (foothills : list foothill) (capture_index : Z)
  : result (ndarray Z * list foothill * bool) :=
  let* fl := grow_region fuel q_data marked center bin_lower capture_index in
  let will_be_considered_again := again_after bin_lower fl in
  let* '(marked', foothills') :=
    if big_enough self fl then
      Ok (fl_marked fl, foothills ++ [(center, fl_as_glob fl)])
    else if too_small self fl then
      let* m := unmark_all (fl_marked fl) (fl_marked_so_far fl) in Ok (m, foothills)
    else if will_be_considered_again then
      let* m := unmark_all (fl_marked fl) (fl_marked_so_far fl) in Ok (m, foothills)
    else Ok (fl_marked fl, foothills) in
  Ok (marked', foothills', big_enough self fl || negb will_be_considered_again).

(** ** remove_foothills *)

Definition sqdist (p c : pixel) : Z :=
  (fst p - fst c) ^ 2 + (snd p - snd c) ^ 2.

Fixpoint is_closest_from (point : pixel) (my_dist : Z) (centers : dict) (bins : list Z)
  : result bool :=
  match bins with
  | [] => Ok true
  | o_bin :: bins' =>
      let* cs := dict_get centers o_bin in
      if existsb (fun c => sqdist point c <? my_dist) cs then Ok false
      else is_closest_from point my_dist centers bins'
  end.

Definition is_closest (point center : pixel) (centers : dict) (bin_num : Z) : result bool :=
  let bin_thresh := Z.quot bin_num 2 in
  let n := Z.of_nat (length (keys centers)) in
  is_closest_from point (sqdist point center) centers (seqZ bin_thresh (n - bin_thresh)).

Fixpoint hill_neighbors (q_data marked : ndarray Z) (pt center : pixel) (centers : dict)
    (bin_num bin_lower : Z) (win : list (pixel * nat)) (hills : list pixel)
  : result (list pixel) :=
  match win with
  | [] => Ok hills
  | ((i, j), k) :: win' =>
      let index := (i - 1 + fst pt, j - 1 + snd pt) in
      let* val := view_read marked k in
      let* take :=
        if val =? UNMARKED then
          let* q_index := getitem q_data index in
          if (0 <=? q_index) && (q_index <? bin_lower) then
            let* q_pt := getitem q_data pt in
            if q_index <=? q_pt then Ok true
            else is_closest index center centers bin_num
          else Ok false
        else Ok false in
      hill_neighbors q_data marked pt center centers bin_num bin_lower win'
        (if take then index :: hills else hills)
  end.

(** [while len(hills) > 0: ...] *)
Fixpoint remove_hills (fuel : nat) (q_data marked : ndarray Z) (center : pixel) (centers : dict)
    (bin_num bin_lower : Z) (hills : list pixel) : result (ndarray Z) :=
  match hills with
  | [] => Ok marked
  | pt :: hills' =>
      match fuel with
      | O => OutOfFuel
      | S fuel' =>
          let* marked' := setitem marked pt GLOBBED in
          let* hills'' :=
            hill_neighbors q_data marked' pt center centers bin_num bin_lower
              (window3 marked' pt) hills' in
          remove_hills fuel' q_data marked' center centers bin_num bin_lower hills''
      end
  end.

Fixpoint remove_foothills (fuel : nat) (q_data marked : ndarray Z) (bin_num bin_lower : Z)
    (centers : dict) (foothills : list foothill) : result (ndarray Z) :=
  match foothills with
  | [] => Ok marked
  | (center, as_glob) :: foothills' =>
      let* marked' := remove_hills fuel q_data marked center centers bin_num bin_lower as_glob in
      remove_foothills fuel q_data marked' bin_num bin_lower centers foothills'
  end.

(** ** grow_centers *)

(** The variables of [grow_centers] that change while it runs.
    [g_history] is a ghost: the label grid as it stood at the start and
    after every call of [set_maximum] and of [remove_foothills], oldest
    first.  Nothing reads it. *)
Record grower := Grower {
  g_marked : ndarray Z;
  g_foothills : list foothill;
  g_deferred_to_next : list pixel;
  g_capture_index : Z;
  g_bin_lower : Z;
  g_history : list (ndarray Z)
}.

(** [for i in range(tot_centers): ...], over the deferred seeds followed by
    the new centers of the bin. *)
Fixpoint grow_seeds (fuel : nat) (self : EnhancedWatershed) (q_data : ndarray Z)
    (seeds : list pixel) (g : grower) : result grower :=
  match seeds with
  | [] => Ok g
  | center :: seeds' =>
      let bin_lower := if g_bin_lower g <? 0 then 0 else g_bin_lower g in
      let* v := getitem (g_marked g) center in
      if v =? UNMARKED then
        let* '(marked, foothills, captured) :=
          set_maximum fuel self q_data (g_marked g) center bin_lower
            (g_foothills g) (g_capture_index g) in
        grow_seeds fuel self q_data seeds'
          (if negb captured
           then Grower marked foothills (g_deferred_to_next g ++ [center])
                  (g_capture_index g) bin_lower (g_history g ++ [marked])
           else Grower marked foothills (g_deferred_to_next g)
                  (g_capture_index g + 1) bin_lower (g_history g ++ [marked]))
      else
        grow_seeds fuel self q_data seeds'
          (Grower (g_marked g) (g_foothills g) (g_deferred_to_next g)
             (g_capture_index g) bin_lower (g_history g))
  end.

(** One round of [for b in center_keys: ...]. *)
Definition grow_level (fuel : nat) (self : EnhancedWatershed) (q_data : ndarray Z)
    (centers : dict) (b : Z) (g : grower) : result grower :=
  let deferred_from_last := g_deferred_to_next g in
  let* new_centers := dict_get centers b in
  let* g' := grow_seeds fuel self q_data (deferred_from_last ++ new_centers)
               (Grower (g_marked g) (g_foothills g) [] (g_capture_index g) (b - 1)
                  (g_history g)) in
  let* marked := remove_foothills fuel q_data (g_marked g') b (g_bin_lower g') centers
                   (g_foothills g') in
  Ok (Grower marked [] (g_deferred_to_next g') (g_capture_index g') (g_bin_lower g')
        (g_history g' ++ [marked])).

Fixpoint grow_levels (fuel : nat) (self : EnhancedWatershed) (q_data : ndarray Z)
    (centers : dict) (center_keys : list Z) (g : grower) : result grower :=
  match center_keys with
  | [] => Ok g
  | b :: center_keys' =>
      let* g' := grow_level fuel self q_data centers b g in
      grow_levels fuel self q_data centers center_keys' g'
  end.

Definition grow_start (q_data : ndarray Z) : grower :=
  let marked := full (nrows q_data) (ncols q_data) UNMARKED in
  Grower marked [] [] 1 0 [marked].

Definition grow_run (fuel : nat) (self : EnhancedWatershed) (centers : dict)
    (q_data : ndarray Z) : result grower :=
  grow_levels fuel self q_data centers (rev (keys centers)) (grow_start q_data).

Definition grow_centers (fuel : nat) (self : EnhancedWatershed) (centers : dict)
    (q_data : ndarray Z) : result (ndarray Z) :=
  let* g := grow_run fuel self centers q_data in
  Ok (g_marked g).

(** ** label *)

(** [np.where(marked > 0, marked, 0)] *)
Definition only_positive (marked : ndarray Z) : ndarray Z :=
  NdArray (nrows marked) (ncols marked)
    (map (fun v => if 0 <? v then v else 0) (cells marked)).

Definition label (fuel : nat) (self : EnhancedWatershed) (input_grid : ndarray Q)
    (only_objects : bool) : result (ndarray Z) :=
  let* '(pixels, q_data) := quantize self input_grid in
  let* centers := find_local_maxima self pixels q_data in
  let* marked := grow_centers fuel self centers q_data in
  Ok (if only_objects then only_positive marked else marked).

(** A grid written row by row. *)
Definition array_of_rows {A} (rows : list (list A)) : ndarray A :=
  NdArray (length rows) (match rows with [] => 0%nat | r :: _ => length r end) (concat rows).

Definition Zgrid (rows : list (list Z)) : ndarray Q :=
  array_of_rows (map (map inject_Z) rows).

(** * Vocabulary of the properties *)

(** ** Bins and their pixels *)

Definition dict_all (Q : Z -> pixel -> Prop) (d : dict) : Prop :=
  forall b ps p, (b, ps) ∈ d -> p ∈ ps -> Q b p.

(** What the quantizer promises about its two outputs: the bins are
    [0 .. max_bin] in this order, and a pixel listed under bin [b] has
    non-negative coordinates and holds the value [b]. *)
Definition indexed (q_data : ndarray Z) (b : Z) (p : pixel) : Prop :=
  0 <= fst p /\ 0 <= snd p /\ getitem q_data p = Ok b.

(** ** Tentative marks *)

(** [painted m0 m v ks]: [m] is [m0] with the cells at the distinct
    positions [ks], all unmarked in [m0], overwritten by [v]. *)
Definition painted (m0 m : ndarray Z) (v : Z) (ks : list nat) : Prop :=
  same_shape m0 m /\ length (cells m) = length (cells m0) /\ NoDup ks /\
  (forall k, k ∈ ks -> cells m0 !! k = Some UNMARKED /\ cells m !! k = Some v) /\
  (forall k, k ∉ ks -> cells m !! k = cells m0 !! k).

Definition located (m0 : ndarray Z) (ps : list pixel) (ks : list nat) : Prop :=
  Forall2 (fun p k => offset m0 p = Some k) ps ks.

(** ** Neighbours and coordinates *)

(** [x] is produced from an entry of [win] that shows an unmarked cell,
    and reading [q_data[x]] gave [qv]. *)
Definition neighbour_in (q_data marked : ndarray Z) (p : pixel)
    (win : list (pixel * nat)) (x : pixel) (qv : Z) : Prop :=
  exists i j k, ((i, j), k) ∈ win /\ x = (i - 1 + fst p, j - 1 + snd p) /\
                cells marked !! k = Some UNMARKED /\ getitem q_data x = Ok qv.

(** On an axis of length [n]: an in-range index, or, on an axis of length
    at most 2, a negative index that numpy wraps. *)
Definition okc (n : nat) (x : Z) : Prop :=
  0 <= x < Z.of_nat n \/ ((n <= 2)%nat /\ - Z.of_nat n <= x < 0).

Definition okc2 {A} (a : ndarray A) (p : pixel) : Prop :=
  okc (nrows a) (fst p) /\ okc (ncols a) (snd p).

(** ** The flood of [set_maximum] *)

Definition grown (q_data m0 : ndarray Z) (center : pixel) (bl : Z) (k : nat) : Prop :=
  offset m0 center = Some k \/ exists qv, cells q_data !! k = Some qv /\ bl <= qv.

Definition seedlike (q_data : ndarray Z) (center : pixel) (bl : Z) (p : pixel) : Prop :=
  p = center \/ exists qv, getitem q_data p = Ok qv /\ bl <= qv.

Definition foot (q_data : ndarray Z) (bl : Z) (g : pixel) : Prop :=
  exists qv, getitem q_data g = Ok qv /\ 0 <= qv < bl.

Record flood_inv (q_data m0 : ndarray Z) (cap bl : Z) (center : pixel)
    (m : ndarray Z) (marked_so_far as_glob : list pixel) (ks : list nat) : Prop := {
  fi_painted : painted m0 m cap ks;
  fi_located : located m0 marked_so_far ks;
  fi_grown : forall k, k ∈ ks -> grown q_data m0 center bl k;
  fi_glob : Forall (foot q_data bl) as_glob;
  fi_glob_length : (length as_glob <= 9 * length marked_so_far)%nat;
  fi_glob_coords : okc2 m0 center -> Forall (okc2 m0) as_glob
}.

Definition stack_ok (q_data m0 : ndarray Z) (center : pixel) (bl : Z)
    (as_bin : list pixel) : Prop :=
  Forall (seedlike q_data center bl) as_bin /\
  (okc2 m0 center -> Forall (okc2 m0) as_bin).

(** How a call of [set_maximum] that returns relates to its flood. *)
Inductive set_maximum_case (self : EnhancedWatershed) (bl : Z) (center : pixel)
    (m0 : ndarray Z) (fh : list foothill) (fl : flooded)
  : ndarray Z -> list foothill -> bool -> Prop :=
| sm_big :
    big_enough self fl = true ->
    set_maximum_case self bl center m0 fh fl
      (fl_marked fl) (fh ++ [(center, fl_as_glob fl)]) true
| sm_undone captured :
    big_enough self fl = false ->
    too_small self fl = true \/ again_after bl fl = true ->
    captured = negb (again_after bl fl) ->
    set_maximum_case self bl center m0 fh fl m0 fh captured
| sm_kept :
    big_enough self fl = false -> too_small self fl = false -> again_after bl fl = false ->
    set_maximum_case self bl center m0 fh fl (fl_marked fl) fh true.

(** ** Label grids during growth *)

(** [tidy q_data bl cap m]: every cell of the label grid is unmarked,
    globbed, or holds a capture index below [cap] over a quantized value
    of at least [bl]. *)
Definition tidy (q_data : ndarray Z) (bl cap : Z) (m : ndarray Z) : Prop :=
  same_shape q_data m /\
  forall k v, cells m !! k = Some v ->
    v = UNMARKED \/ v = GLOBBED \/
    (1 <= v < cap /\ exists qv, cells q_data !! k = Some qv /\ bl <= qv).

(** [globbing m m']: [m'] is [m] with some unmarked cells globbed. *)
Definition globbing (m m' : ndarray Z) : Prop :=
  same_shape m m' /\ length (cells m') = length (cells m) /\
  forall k, cells m' !! k = cells m !! k \/
            (cells m !! k = Some UNMARKED /\ cells m' !! k = Some GLOBBED).

Definition foothills_ok (q_data : ndarray Z) (bl : Z) (foothills : list foothill) : Prop :=
  Forall (fun foot_ => Forall (foot q_data bl) (snd foot_)) foothills.

(** ** The measure of the foothill flood *)

Definition live (m : ndarray Z) (p : pixel) : bool :=
  match getitem m p with
  | Ok v => v =? UNMARKED
  | _ => false
  end.

Definition top_live (m : ndarray Z) (hills : list pixel) : Z :=
  match hills with
  | p :: _ => if live m p then 1 else 0
  | [] => 0
  end.

(** ** Pixels of a label, and cells that no longer change *)

Definition positions (c : Z) (l : list Z) : list nat :=
  filter (fun k => l !! k = Some c) (seq 0 (length l)).

Definition pixel_count (c : Z) (m : ndarray Z) : nat := length (positions c (cells m)).

Definition frozen (m m' : ndarray Z) : Prop :=
  same_shape m m' /\
  forall k v, cells m !! k = Some v -> v = GLOBBED \/ 0 < v -> cells m' !! k = Some v.

Definition settled (history : list (ndarray Z)) : Prop :=
  forall i j mi mj, (i <= j)%nat ->
    history !! i = Some mi -> history !! j = Some mj -> frozen mi mj.

(** ** The invariant of [grow_centers] *)

Definition seed_ok (q_data : ndarray Z) (bl : Z) (s : pixel) : Prop :=
  okc2 q_data s /\ exists qv, getitem q_data s = Ok qv /\ bl <= qv.

(** The size test that a label has passed if it is on the grid at all. *)
Definition retained (self : EnhancedWatershed) (m : ndarray Z) (c : Z) : Prop :=
  pixel_count c m = 0%nat \/
  min_size self < Z.of_nat (pixel_count c m) \/
  max_size self <= Z.of_nat (pixel_count c m).

Definition clean (m : ndarray Z) : Prop := Forall (fun v => v <> TOOSMALL) (cells m).

Definition foothill_ok (q_data : ndarray Z) (bl : Z) (f : foothill) : Prop :=
  Forall (foot q_data bl) (snd f) /\ Forall (okc2 q_data) (snd f) /\
  (length (snd f) <= 9 * (nrows q_data * ncols q_data))%nat.

Record ginv (self : EnhancedWatershed) (q_data : ndarray Z) (bl : Z) (g : grower) : Prop := {
  gi_tidy : tidy q_data bl (g_capture_index g) (g_marked g);
  gi_length : length (cells (g_marked g)) = (nrows q_data * ncols q_data)%nat;
  gi_cap : 1 <= g_capture_index g;
  gi_foothills : Forall (foothill_ok q_data bl) (g_foothills g);
  gi_deferred : Forall (seed_ok q_data bl) (g_deferred_to_next g);
  gi_counts : forall c, 1 <= c < g_capture_index g -> retained self (g_marked g) c;
  gi_settled : settled (g_history g);
  gi_last : last (g_history g) = Some (g_marked g);
  gi_clean : Forall clean (g_history g)
}.

Definition after_set_maximum (g : grower) (center : pixel) (bin_lower : Z)
    (marked : ndarray Z) (foothills : list foothill) (captured : bool) : grower :=
  if negb captured
  then Grower marked foothills (g_deferred_to_next g ++ [center])
         (g_capture_index g) bin_lower (g_history g ++ [marked])
  else Grower marked foothills (g_deferred_to_next g)
         (g_capture_index g + 1) bin_lower (g_history g ++ [marked]).

Definition centers_ok (q_data : ndarray Z) (centers : dict) : Prop :=
  dict_all (indexed q_data) centers.

(** ** Fuel *)

Definition enough_fuel {A} (grid : ndarray A) : nat := 27 * (nrows grid * ncols grid) + 1.

(** ** The quantizer and its description *)

Definition fits_int32 (x : Z) : Prop := - 2 ^ 31 <= x < 2 ^ 31.

(** The integers of the configuration that meet the 32-bit array. *)
Definition config_fits (self : EnhancedWatershed) : Prop :=
  fits_int32 (min_thresh self) /\ fits_int32 (data_increment self) /\
  fits_int32 (max_bin self).

(** The cell is within the 32-bit range and, once converted to a 32-bit
    integer, lies below [min_thresh] (or at or below it when [min_thresh]
    is 0), and the subtraction of [min_thresh] does not wrap. *)
Definition below_threshold (self : EnhancedWatershed) (v : Q) : Prop :=
  fits_int32 (Z.quot (Qnum v) (Z.pos (Qden v))) /\
  - 2 ^ 31 <= to_int32 v - min_thresh self /\
  (to_int32 v < min_thresh self \/ (min_thresh self = 0 /\ to_int32 v <= 0)).





(** ** Configurations and grids of the concrete runs *)

(** [EnhancedWatershed(0, 10, 100, 0)] *)
Definition ew_0_10 : EnhancedWatershed :=
  {| min_thresh := 0; data_increment := 1; max_thresh := 10; max_size := 100;
     min_size := 6; dist_btw_objects := 0; max_bin := 10 |}.

(** [EnhancedWatershed(0, 10, 7, 0)] and [EnhancedWatershed(0, 10, 1, 0)] *)
Definition ew_area7 : EnhancedWatershed :=
  {| min_thresh := 0; data_increment := 1; max_thresh := 10; max_size := 7;
     min_size := 6; dist_btw_objects := 0; max_bin := 10 |}.
Definition ew_area1 : EnhancedWatershed :=
  {| min_thresh := 0; data_increment := 1; max_thresh := 10; max_size := 1;
     min_size := 6; dist_btw_objects := 0; max_bin := 10 |}.

(** [EnhancedWatershed(5, 15, 100, 0)] and [EnhancedWatershed(-1, 10, 100, 0)] *)
Definition ew_5_15 : EnhancedWatershed :=
  {| min_thresh := 5; data_increment := 1; max_thresh := 15; max_size := 100;
     min_size := 6; dist_btw_objects := 0; max_bin := 10 |}.

Definition unmarked_3x3 : ndarray Z := full 3 3 UNMARKED.

(** A lone pixel of level 2 among pixels of level 0. *)
Definition q_lone_peak : ndarray Z := array_of_rows [[0; 0; 0]; [0; 2; 0]; [0; 0; 0]].

(** A 3 x 3 plateau. *)
Definition plateau_3x3 (v : Z) : ndarray Q := Zgrid [[v; v; v]; [v; v; v]; [v; v; v]].

(** A lone pixel of value 5 and, apart from it, a 3 x 3 plateau of value 2. *)
Definition peak_and_plateau : ndarray Q :=
  Zgrid [[0; 0; 0; 0; 2; 2; 2];
         [0; 5; 0; 0; 2; 2; 2];
         [0; 0; 0; 0; 2; 2; 2]].

Definition lone_pixel_grid : ndarray Q := Zgrid [[0; 0; 0]; [0; 5; 0]; [0; 0; 0]].

Definition force {A} (d : A) (m : result A) : A :=
  match m with
  | Ok a => a
  | _ => d
  end.

(** The run of [label] on [peak_and_plateau], step by step. *)
Definition demo_quantized : dict * ndarray Z :=
  Eval vm_compute in force ([], full 0 0 0) (quantize ew_0_10 peak_and_plateau).
Definition demo_centers : dict :=
  Eval vm_compute in
    force [] (find_local_maxima ew_0_10 (fst demo_quantized) (snd demo_quantized)).
Definition demo_grower : grower :=
  Eval vm_compute in
    force (grow_start (full 0 0 0))
      (grow_run 568 ew_0_10 demo_centers (snd demo_quantized)).
Definition demo_labels : ndarray Z :=
  array_of_rows [[0; 0; 0; 0; 2; 2; 2]; [0; 0; 0; 0; 2; 2; 2]; [0; 0; 0; 0; 2; 2; 2]].

(** A peak of value 5 on a 3 x 3 hill of value 3, in a plain of value 1,
    labelled with [EnhancedWatershed(0, 10, 8, 0)]: the hill is captured
    at 9 pixels and the plain becomes its foothills. *)
Definition ew_area8 : EnhancedWatershed :=
  {| min_thresh := 0; data_increment := 1; max_thresh := 10; max_size := 8;
     min_size := 6; dist_btw_objects := 0; max_bin := 10 |}.
Definition hill_grid : ndarray Q :=
  Zgrid [[1; 1; 1; 1; 1; 1];
         [1; 1; 3; 3; 3; 1];
         [1; 1; 3; 5; 3; 1];
         [1; 1; 3; 3; 3; 1];
         [1; 1; 1; 1; 1; 1];
         [1; 1; 1; 1; 1; 1]].
Definition hill_quantized : dict * ndarray Z :=
  Eval vm_compute in force ([], full 0 0 0) (quantize ew_area8 hill_grid).
Definition hill_centers : dict :=
  Eval vm_compute in
    force [] (find_local_maxima ew_area8 (fst hill_quantized) (snd hill_quantized)).
Definition hill_grower : grower :=
  Eval vm_compute in
    force (grow_start (full 0 0 0))
      (grow_run 973 ew_area8 hill_centers (snd hill_quantized)).
Definition hill_after_foothills : ndarray Z :=
  Eval vm_compute in force (full 0 0 0)
    (match g_history hill_grower !! 9%nat with Some m => Ok m | None => Raise IndexError end).

Definition lone_peak_flood : flooded :=
  Eval vm_compute in
    force (Flooded (full 0 0 0) [] [] false)
      (grow_region 10 q_lone_peak unmarked_3x3 (1, 1) 1 1).

(** * Further code *)

(** ** size_filter *)

(** The number of indices from the least to the greatest of [xs]. *)
Definition span (xs : list nat) : nat :=
  match xs with
  | [] => 0
  | x :: xs' => foldr Nat.max x xs' - foldr Nat.min x xs' + 1
  end.

(** One entry of [scipy.ndimage.find_objects(labeled_grid)], the one of
    the label [l]: the smallest box of the grid that holds every cell with
    that label, given by its numbers of rows and of columns, or [None] when
    no cell has the label. *)
Definition find_object (labeled_grid : ndarray Z) (l : Z) : option (nat * nat) :=
  match positions l (cells labeled_grid) with
  | [] => None
  | ks => Some (span (map (fun k => k / ncols labeled_grid)%nat ks),
                span (map (fun k => k mod ncols labeled_grid)%nat ks))
  end.

(** [size >= min_size and box.shape[0] > 1 and box.shape[1] > 1]; the box
    holds every cell of the label, so [size] counts them all.  For an
    absent label the box is [labeled_grid[None]], whose first axis has
    length 1. *)
Definition passes (labeled_grid : ndarray Z) (min_size l : Z) : bool :=
  match find_object labeled_grid l with
  | Some (h, w) =>
      (min_size <=? Z.of_nat (pixel_count l labeled_grid)) && (1 <? h)%nat && (1 <? w)%nat
  | None => false
  end.

(** [out_grid[np.where(labeled_grid == l)] = j] *)
Definition assign (labeled : list Z) (l j : Z) (out_grid : list Z) : list Z :=
  foldr (fun k o => <[k:=j]> o) out_grid (positions l labeled).

(** [for i, s in enumerate(slices): ...], over the labels [i + 1]. *)
Fixpoint filter_labels (labeled_grid : ndarray Z) (min_size : Z) (labels : list Z)
    (out_grid : list Z) (j : Z) : list Z :=
  match labels with
  | [] => out_grid
  | l :: labels' =>
      if passes labeled_grid min_size l
      then filter_labels labeled_grid min_size labels'
             (assign (cells labeled_grid) l j out_grid) (j + 1)
      else filter_labels labeled_grid min_size labels' out_grid j
  end.

(** [find_objects] returns one entry for each label from 1 to the maximum
    of the grid, and taking the maximum of a grid without cells raises
    [ValueError]. *)
Definition size_filter (labeled_grid : ndarray Z) (min_size : Z) : result (ndarray Z) :=
  match cells labeled_grid with
  | [] => Raise ValueError
  | v :: vs =>
      let max_label := foldr Z.max v vs in
      Ok (NdArray (nrows labeled_grid) (ncols labeled_grid)
            (filter_labels labeled_grid min_size (seqZ 1 max_label)
               (replicate (nrows labeled_grid * ncols labeled_grid) 0) 1))
  end.

(** ** is_valid *)

(** [is_valid(point, shape)]:
    [np.all((np.array(point) >= 0) & (np.array(shape) - np.array(point) > 0))] *)
Definition is_valid (point : pixel) (shape : nat * nat) : bool :=
  ((0 <=? fst point) && (0 <? Z.of_nat (fst shape) - fst point)) &&
  ((0 <=? snd point) && (0 <? Z.of_nat (snd shape) - snd point)).

(** * Vocabulary of the further properties *)

(** ** Well-formed arrays and the order of a scan *)

(** The buffer has one cell for each index of the shape. *)
Definition well_formed {A} (a : ndarray A) : Prop :=
  length (cells a) = (nrows a * ncols a)%nat.

(** An index that numpy accepts without counting from the end. *)
Definition in_bounds {A} (a : ndarray A) (p : pixel) : Prop :=
  0 <= fst p < Z.of_nat (nrows a) /\ 0 <= snd p < Z.of_nat (ncols a).

(** [p] comes before [p'] in a row-by-row scan. *)
Definition row_major (p p' : pixel) : Prop :=
  fst p < fst p' \/ (fst p = fst p' /\ snd p < snd p').

(** [data[g] == b], as a test. *)
Definition holds (data : ndarray Z) (b : Z) (g : pixel) : bool :=
  match getitem data g with
  | Ok v => v =? b
  | _ => false
  end.

(** ** Connected regions *)

(** [x] is [p] or one of its eight neighbours. *)
Definition adjacent (p x : pixel) : Prop :=
  Z.abs (fst x - fst p) <= 1 /\ Z.abs (snd x - snd p) <= 1.




(** ** Foothills and excluded pixels *)

(** [m'] is [m] with GLOBBED written on some cells whose quantized value
    lies in [0, bl). *)
Definition lowland (q_data : ndarray Z) (bl : Z) (m m' : ndarray Z) : Prop :=
  same_shape m m' /\
  forall k, cells m' !! k = cells m !! k \/
            (cells m' !! k = Some GLOBBED /\
             exists qv, cells q_data !! k = Some qv /\ 0 <= qv < bl).

(** Every globbed cell lies over a quantized value that is not negative. *)
Definition globs_over (q_data m : ndarray Z) : Prop :=
  forall k, cells m !! k = Some GLOBBED ->
    exists qv, cells q_data !! k = Some qv /\ 0 <= qv.

(** ** The objects that [size_filter] keeps *)

(** The number of labels from 1 to [l] that pass the filter. *)
Definition new_label (labeled_grid : ndarray Z) (min_size l : Z) : Z :=
  Z.of_nat (length (List.filter (passes labeled_grid min_size) (seqZ 1 l))).

(** The cells holding [l] lie in at least two rows, and in at least two
    columns. *)
Definition two_rows (labeled_grid : ndarray Z) (l : Z) : Prop :=
  exists k k', cells labeled_grid !! k = Some l /\ cells labeled_grid !! k' = Some l /\
               (k / ncols labeled_grid <> k' / ncols labeled_grid)%nat.

Definition two_cols (labeled_grid : ndarray Z) (l : Z) : Prop :=
  exists k k', cells labeled_grid !! k = Some l /\ cells labeled_grid !! k' = Some l /\
               (k mod ncols labeled_grid <> k' mod ncols labeled_grid)%nat.

(** ** The distance between centers *)

(** The distance between two pixels, counted in king's moves. *)
Definition cheb (p x : pixel) : Z :=
  Z.max (Z.abs (fst x - fst p)) (Z.abs (snd x - snd p)).



(** ** Calls that raise nothing *)


(** ** Configurations and grids of the further runs *)

(** [EnhancedWatershed(0, 0, 100, 0)], [EnhancedWatershed(10, 0, 100, 0)]
    and [EnhancedWatershed(0, 10, 100, -1)] *)
Definition ew_0_0 : EnhancedWatershed :=
  {| min_thresh := 0; data_increment := 1; max_thresh := 0; max_size := 100;
     min_size := 6; dist_btw_objects := 0; max_bin := 0 |}.
Definition ew_10_0 : EnhancedWatershed :=
  {| min_thresh := 10; data_increment := 1; max_thresh := 0; max_size := 100;
     min_size := 6; dist_btw_objects := 0; max_bin := -10 |}.
Definition ew_negative_distance : EnhancedWatershed :=
  {| min_thresh := 0; data_increment := 1; max_thresh := 10; max_size := 100;
     min_size := 6; dist_btw_objects := -1; max_bin := 10 |}.


(** The lone peak labelled 1, its centers, and the grid after the
    foothills are removed from the candidate (1, 2). *)
Definition lone_peak_labelled : ndarray Z :=
  array_of_rows [[-1; -1; -1]; [-1; 1; -1]; [-1; -1; -1]].
Definition lone_peak_centers : dict := [(0, []); (1, []); (2, [(1, 1)])].
Definition lone_peak_globbed : ndarray Z :=
  Eval vm_compute in
    force (full 0 0 0)
      (remove_foothills 100 q_lone_peak lone_peak_labelled 2 1 lone_peak_centers
         [((1, 1), [(1, 2)])]).

(** A bar of label 1 in one row and a 2 x 2 block of label 2. *)
Definition bar_and_block : ndarray Z :=
  array_of_rows [[1; 1; 1; 0]; [0; 2; 2; 0]; [0; 2; 2; 0]].
Definition block_only : ndarray Z :=
  array_of_rows [[0; 0; 0; 0]; [0; 1; 1; 0]; [0; 1; 1; 0]].


(** * Properties *)

(** ** The result monad *)

Lemma bind_Ok {A B} (m : result A) (k : A -> result B) (b : B) :
  bind m k = Ok b -> exists a, m = Ok a /\ k a = Ok b.
Proof. destruct m; simpl; intros H; try discriminate. eauto. Qed.

Lemma bind_OutOfFuel {A B} (m : result A) (k : A -> result B) :
  bind m k = OutOfFuel -> m = OutOfFuel \/ exists a, m = Ok a /\ k a = OutOfFuel.
Proof. destruct m; simpl; intros H; try discriminate; eauto. Qed.

(** Splits a hypothesis [bind m k = Ok b] into its two halves. *)
Tactic Notation "bind_inv" hyp(H) :=
  let a := fresh "a" in
  let Ha := fresh "Hm" in
  apply bind_Ok in H; destruct H as (a & Ha & H); simpl in H.

Tactic Notation "bind_inv" hyp(H) "as" simple_intropattern(x) ident(Hx) :=
  apply bind_Ok in H; destruct H as (x & Hx & H); simpl in H.

Ltac ok_inv H := injection H; clear H; intros; subst.

(** ** Arrays *)

Lemma getitem_Ok {A} (a : ndarray A) p v :
  getitem a p = Ok v -> exists k, offset a p = Some k /\ cells a !! k = Some v.
Proof.
  unfold getitem. destruct (offset a p) as [k|]; [|discriminate].
  destruct (cells a !! k) eqn:E; [|discriminate]. intros H; ok_inv H. eauto.
Qed.

Lemma setitem_Ok {A} (a : ndarray A) p v a' :
  setitem a p v = Ok a' ->
  exists k, offset a p = Some k /\ (k < length (cells a))%nat /\
            a' = NdArray (nrows a) (ncols a) (<[k:=v]> (cells a)).
Proof.
  unfold setitem. destruct (offset a p) as [k|]; [|discriminate].
  destruct (Nat.ltb_spec k (length (cells a))) as [Hk|Hk]; [|discriminate].
  intros H; ok_inv H. eauto.
Qed.

Lemma offset_same_shape {A B} (a : ndarray A) (b : ndarray B) p :
  same_shape a b -> offset a p = offset b p.
Proof. intros [Hr Hc]. unfold offset. by rewrite Hr, Hc. Qed.

Lemma ndenumerate_same_shape {A B} (a : ndarray A) (b : ndarray B) r0 r1 c0 c1 :
  same_shape a b -> ndenumerate a r0 r1 c0 c1 = ndenumerate b r0 r1 c0 c1.
Proof. intros [Hr Hc]. unfold ndenumerate. by rewrite Hr, Hc. Qed.

Lemma same_shape_refl {A} (a : ndarray A) : same_shape a a.
Proof. by split. Qed.

Lemma same_shape_trans {A B C} (a : ndarray A) (b : ndarray B) (c : ndarray C) :
  same_shape a b -> same_shape b c -> same_shape a c.
Proof. intros [] []; split; congruence. Qed.

Lemma same_shape_sym {A B} (a : ndarray A) (b : ndarray B) :
  same_shape a b -> same_shape b a.
Proof. intros []; split; congruence. Qed.

Lemma setitem_shape {A} (a : ndarray A) p v a' :
  setitem a p v = Ok a' -> same_shape a a' /\ length (cells a') = length (cells a).
Proof.
  intros (k & _ & _ & ->)%setitem_Ok. split; [by split|]. simpl. apply length_insert.
Qed.

Lemma unmark_all_shape marked ms marked' :
  unmark_all marked ms = Ok marked' ->
  same_shape marked marked' /\ length (cells marked') = length (cells marked).
Proof.
  revert marked. induction ms as [|m ms IH]; simpl; intros marked H.
  - ok_inv H. split; [apply same_shape_refl|done].
  - bind_inv H. apply setitem_shape in Hm as [Hs Hl].
    apply IH in H as [Hs' Hl']. split; [by eapply same_shape_trans|congruence].
Qed.

(** An empty slice on either axis leaves nothing to enumerate. *)
Lemma ndenumerate_no_rows {A} (a : ndarray A) r0 r1 c0 c1 :
  slice_len (nrows a) r0 r1 = 0%nat -> ndenumerate a r0 r1 c0 c1 = [].
Proof. unfold ndenumerate. intros ->. done. Qed.

Lemma ndenumerate_no_cols {A} (a : ndarray A) r0 r1 c0 c1 :
  slice_len (ncols a) c0 c1 = 0%nat -> ndenumerate a r0 r1 c0 c1 = [].
Proof.
  unfold ndenumerate. intros ->. simpl.
  induction (seq 0 (slice_len (nrows a) r0 r1)); simpl; auto.
Qed.


(** ** Dicts *)

Lemma dict_get_Ok d k l : dict_get d k = Ok l -> (k, l) ∈ d.
Proof.
  induction d as [|[k' l'] d IH]; simpl; [discriminate|].
  destruct (Z.eqb_spec k' k) as [->|Hne].
  - intros H; ok_inv H. left.
  - intros H. right. auto.
Qed.

Lemma dict_append_Ok d k p d' :
  dict_append d k p = Ok d' ->
  keys d' = keys d /\
  forall b ps, (b, ps) ∈ d' ->
    exists ps0, (b, ps0) ∈ d /\ (ps = ps0 \/ (b = k /\ ps = ps0 ++ [p])).
Proof.
  revert d'. induction d as [|[k' l'] d IH]; simpl; intros d' H; [discriminate|].
  destruct (Z.eqb_spec k' k) as [->|Hne].
  - ok_inv H. split; [done|]. intros b ps [Heq|Hin]%elem_of_cons.
    + ok_inv Heq. eexists. split; [left|]. by right.
    + exists ps. split; [by right|]. by left.
  - bind_inv H. ok_inv H. destruct (IH _ Hm) as [Hk Hall]. split.
    + simpl. by rewrite Hk.
    + intros b ps [Heq|Hin]%elem_of_cons.
      * ok_inv Heq. eexists. split; [left|]. by left.
      * destruct (Hall _ _ Hin) as (ps0 & Hin0 & Hps). exists ps0. split; [by right|done].
Qed.

Lemma dict_append_all Q d k p d' :
  dict_append d k p = Ok d' -> dict_all Q d -> Q k p -> dict_all Q d'.
Proof.
  intros [_ Happ]%dict_append_Ok Hall Hq b ps x Hin Hx.
  destruct (Happ _ _ Hin) as (ps0 & Hin0 & [->|[-> ->]]).
  - eapply Hall; eauto.
  - apply elem_of_app in Hx as [Hx|Hx%list_elem_of_singleton].
    + eapply Hall; eauto.
    + by subst.
Qed.

Lemma dict_all_empty Q (ks : list Z) : dict_all Q (map (fun k => (k, [])) ks).
Proof.
  intros b ps p Hin Hp. apply list_elem_of_fmap in Hin as (k & Heq & _).
  ok_inv Heq. by apply elem_of_nil in Hp.
Qed.

(** ** find_local_maxima: where a center can lie *)

Lemma claim_square_shape marked p infl b win ok msf marked' ok' msf' :
  claim_square marked p infl b win ok msf = Ok (marked', ok', msf') ->
  same_shape marked marked'.
Proof.
  revert marked ok msf. induction win as [|[[i j] k] win IH]; simpl; intros marked ok msf H.
  - ok_inv H. apply same_shape_refl.
  - bind_inv H. destruct (a =? UNMARKED).
    + bind_inv H. apply setitem_shape in Hm0 as [Hs _]. apply IH in H.
      by eapply same_shape_trans.
    + ok_inv H. apply same_shape_refl.
Qed.

(** The square of a new center is never empty: [ok] starts false and only
    an unmarked cell of the square sets it. *)
Lemma claim_square_ok marked p infl b win msf marked' msf' :
  claim_square marked p infl b win false msf = Ok (marked', true, msf') -> win <> [].
Proof. destruct win; simpl; [discriminate|done]. Qed.

Lemma try_center_inv Q marked centers b infl p marked' centers' :
  try_center marked centers b infl p = Ok (marked', centers') ->
  dict_all Q centers ->
  (influence_square marked p infl <> [] -> Q b p) ->
  same_shape marked marked' /\ keys centers' = keys centers /\ dict_all Q centers'.
Proof.
  unfold try_center. intros H Hall Hq. bind_inv H.
  destruct (a =? UNMARKED); [|ok_inv H; split; [apply same_shape_refl|done]].
  bind_inv H. destruct a0 as [[m1 ok] msf]. destruct ok.
  - bind_inv H. ok_inv H. split; [by eapply claim_square_shape|]. split.
    + by apply dict_append_Ok in Hm1 as [? _].
    + eapply dict_append_all; eauto. apply Hq. by eapply claim_square_ok.
  - bind_inv H. ok_inv H. split; [|done].
    eapply same_shape_trans; [by eapply claim_square_shape|].
    by apply unmark_all_shape in Hm1 as [? _].
Qed.

Lemma influence_square_same_shape (a b : ndarray Z) p infl :
  same_shape a b -> influence_square a p infl = influence_square b p infl.
Proof. apply ndenumerate_same_shape. Qed.

Lemma scan_bin_inv Q marked centers b infl ps marked' centers' :
  scan_bin marked centers b infl ps = Ok (marked', centers') ->
  dict_all Q centers ->
  (forall p, p ∈ ps -> influence_square marked p infl <> [] -> Q b p) ->
  same_shape marked marked' /\ keys centers' = keys centers /\ dict_all Q centers'.
Proof.
  revert marked centers. induction ps as [|p ps IH]; simpl; intros marked centers H Hall Hq.
  - ok_inv H. split; [apply same_shape_refl|done].
  - bind_inv H. destruct a as [m1 c1].
    eapply try_center_inv in Hm as (Hs & Hk & Hall1); [|done|apply Hq; left].
    apply IH in H as (Hs' & Hk' & Hall'); [|done|].
    + split; [by eapply same_shape_trans|]. split; [congruence|done].
    + intros x Hx Hw. apply Hq; [by right|].
      by rewrite (influence_square_same_shape _ _ _ _ Hs).
Qed.

Lemma scan_bins_inv Q self pixels MIN MAX marked centers bins centers' :
  scan_bins self pixels MIN MAX marked centers bins = Ok centers' ->
  dict_all Q centers ->
  (forall b infl ps p, infl_dist self MIN MAX b = Ok infl -> dict_get pixels b = Ok ps ->
     p ∈ ps -> influence_square marked p infl <> [] -> Q b p) ->
  keys centers' = keys centers /\ dict_all Q centers'.
Proof.
  revert marked centers. induction bins as [|b bins IH]; simpl; intros marked centers H Hall Hq.
  - by ok_inv H.
  - bind_inv H. bind_inv H. bind_inv H. destruct a1 as [m1 c1].
    eapply scan_bin_inv in Hm1 as (Hs & Hk & Hall1); [|done|by eauto].
    apply IH in H as (Hk' & Hall'); [split; [congruence|done]|done|].
    intros b' infl' ps' p' Hi Hg Hp Hw. eapply Hq; eauto.
    by rewrite (influence_square_same_shape _ _ _ _ Hs).
Qed.

Lemma find_local_maxima_inv Q self pixels q_data centers :
  find_local_maxima self pixels q_data = Ok centers ->
  (forall MIN b infl ps p, MIN_INFL self = Ok MIN -> infl_dist self MIN (2 * MIN) b = Ok infl ->
     dict_get pixels b = Ok ps -> p ∈ ps ->
     influence_square q_data p infl <> [] -> Q b p) ->
  keys centers = keys pixels /\ dict_all Q centers.
Proof.
  unfold find_local_maxima. intros H Hq. bind_inv H.
  apply (scan_bins_inv Q) in H as [Hk Hall].
  - split; [|done]. rewrite Hk. unfold keys. rewrite map_map. simpl. by rewrite map_id.
  - apply dict_all_empty.
  - intros b infl ps p Hi Hg Hp Hw. eapply Hq; eauto.
Qed.

(** ** quantize: the bin index *)

Lemma where_nonneg_elem data p :
  p ∈ where_nonneg data ->
  exists k v, cells data !! k = Some v /\ 0 <= v /\ p = unravel data k.
Proof.
  unfold where_nonneg. intros ([k v] & Hin & Hf)%list_elem_of_omap. simpl in Hf.
  destruct (Z.leb_spec 0 v); [|discriminate]. ok_inv Hf.
  apply elem_of_lookup_imap in Hin as (i & x & Heq & Hl). ok_inv Heq. eauto.
Qed.

Lemma fill_pixels_inv Q data good pixels pixels' :
  fill_pixels data good pixels = Ok pixels' ->
  dict_all Q pixels ->
  (forall g b, g ∈ good -> getitem data g = Ok b -> Q b g) ->
  keys pixels' = keys pixels /\ dict_all Q pixels'.
Proof.
  revert pixels. induction good as [|g good IH]; simpl; intros pixels H Hall Hq.
  - by ok_inv H.
  - bind_inv H. bind_inv H.
    pose proof (dict_append_all Q _ _ _ _ Hm0 Hall (Hq _ _ (list_elem_of_here _ _) Hm)) as Hall1.
    apply dict_append_Ok in Hm0 as [Hk _].
    apply IH in H as [Hk' Hall']; [split; [congruence|done]|done|].
    intros g' b' Hg'. apply Hq. by right.
Qed.

Lemma quantize_int_inv self grid pixels q_data :
  quantize_int self grid = Ok (pixels, q_data) ->
  q_data = NdArray (nrows grid) (ncols grid) (map (quantize_cell self) (cells grid)) /\
  keys pixels = seqZ 0 (max_bin self + 1) /\
  dict_all (indexed q_data) pixels.
Proof.
  unfold quantize_int. intros H. bind_inv H. ok_inv H. split; [done|].
  eapply (fill_pixels_inv (indexed _)) in Hm as [Hk Hall].
  - split; [|done]. rewrite Hk. unfold keys, empty_bins. rewrite map_map. simpl.
    by rewrite map_id.
  - apply dict_all_empty.
  - intros g b (k & v & _ & _ & ->)%where_nonneg_elem Hg.
    split; [|split; [|done]]; simpl; lia.
Qed.

Lemma quantize_inv self input_grid pixels q_data :
  quantize self input_grid = Ok (pixels, q_data) ->
  same_shape input_grid q_data /\
  keys pixels = seqZ 0 (max_bin self + 1) /\
  dict_all (indexed q_data) pixels.
Proof.
  unfold quantize. intros (-> & Hk & Hall)%quantize_int_inv. split; [by split|done].
Qed.


(** ** Tentative marks and their rollback *)

Lemma painted_start m0 v : painted m0 m0 v [].
Proof.
  split; [apply same_shape_refl|]. split; [done|]. split; [constructor|].
  split; [|done]. intros k Hk. by apply elem_of_nil in Hk.
Qed.

Lemma painted_nil m0 m v : painted m0 m v [] -> m = m0.
Proof.
  intros ([Hr Hc] & Hl & _ & _ & Hout). destruct m0, m; simpl in *. subst. f_equal.
  apply list_eq. intros k. apply Hout. apply not_elem_of_nil.
Qed.

Lemma painted_step m0 m v ks k :
  v <> UNMARKED -> painted m0 m v ks -> cells m !! k = Some UNMARKED ->
  painted m0 (NdArray (nrows m) (ncols m) (<[k:=v]> (cells m))) v (ks ++ [k]).
Proof.
  intros Hv (Hs & Hl & Hnd & Hin & Hout) Hk.
  assert (k ∉ ks) as Hnk.
  { intros Hk'. destruct (Hin _ Hk') as [_ E]. congruence. }
  split; [by destruct Hs|]. split; [simpl; by rewrite length_insert|]. split.
  { apply NoDup_app. split; [done|]. split; [|apply NoDup_singleton].
    intros x Hx Hx'%list_elem_of_singleton. by subst. }
  simpl. split.
  - intros k' [Hk'|Hk'%list_elem_of_singleton]%elem_of_app.
    + destruct (Hin _ Hk') as [? ?]. split; [done|].
      rewrite list_lookup_insert_ne; [done|]. by intros ->.
    + subst k'. split; [rewrite <- Hout; done|].
      apply list_lookup_insert_eq. by eapply lookup_lt_Some.
  - intros k' Hk'. rewrite not_elem_of_app, list_elem_of_singleton in Hk'.
    destruct Hk' as [? ?]. rewrite list_lookup_insert_ne; [auto|done].
Qed.

Lemma painted_undo m0 m v ks k :
  painted m0 m v (k :: ks) ->
  painted m0 (NdArray (nrows m) (ncols m) (<[k:=UNMARKED]> (cells m))) v ks.
Proof.
  intros (Hs & Hl & Hnd & Hin & Hout). apply NoDup_cons in Hnd as [Hnk Hnd].
  split; [by destruct Hs|]. split; [simpl; by rewrite length_insert|]. split; [done|].
  simpl. split.
  - intros k' Hk'. destruct (Hin k') as [? ?]; [by right|]. split; [done|].
    rewrite list_lookup_insert_ne; [done|]. by intros ->.
  - intros k' Hk'. destruct (decide (k' = k)) as [->|Hne].
    + destruct (Hin k) as [E0 E1]; [left|]. rewrite E0.
      apply list_lookup_insert_eq. by eapply lookup_lt_Some.
    + rewrite list_lookup_insert_ne; [|done]. apply Hout.
      rewrite not_elem_of_cons. done.
Qed.

(** Undoing all the tentative marks gives back the grid as it was. *)
Lemma unmark_all_painted m0 v ps ks m m' :
  painted m0 m v ks -> located m0 ps ks -> unmark_all m ps = Ok m' -> m' = m0.
Proof.
  intros Hp Hloc. revert m Hp. induction Hloc as [|p k ps ks Hpk Hloc IH]; simpl; intros m Hp H.
  - ok_inv H. by eapply painted_nil.
  - bind_inv H. apply setitem_Ok in Hm as (k' & Hoff & _ & ->).
    rewrite <- (offset_same_shape m0 m) in Hoff by apply Hp.
    assert (k' = k) as -> by congruence.
    eapply IH; [|done]. by apply painted_undo.
Qed.

Lemma painted_length m0 m v ks : painted m0 m v ks -> (length ks <= length (cells m0))%nat.
Proof.
  intros (_ & _ & Hnd & Hin & _).
  assert (ks ⊆ seq 0 (length (cells m0))) as Hsub.
  { intros k Hk. destruct (Hin _ Hk) as [E _]. apply lookup_lt_Some in E.
    apply elem_of_seq. lia. }
  apply NoDup_submseteq in Hsub; [|done].
  apply submseteq_length in Hsub. by rewrite length_seq in Hsub.
Qed.

(** ** The neighbour scans *)

Lemma view_read_Ok {A} (a : ndarray A) k v : view_read a k = Ok v -> cells a !! k = Some v.
Proof. unfold view_read. destruct (cells a !! k); [|discriminate]. by intros H; ok_inv H. Qed.

Lemma neighbour_in_cons q_data marked p e win x qv :
  neighbour_in q_data marked p win x qv -> neighbour_in q_data marked p (e :: win) x qv.
Proof. intros (i & j & k & Hin & ?). exists i, j, k. split; [by right|done]. Qed.

Lemma check_neighbors_inv q_data marked p cd bl win w ab ag w' ab' ag' :
  check_neighbors q_data marked p cd bl win w ab ag = Ok (w', ab', ag') ->
  exists nb ng, ab' = nb ++ ab /\ ag' = ng ++ ag /\
    (length nb + length ng <= length win)%nat /\
    Forall (fun x => exists qv, neighbour_in q_data marked p win x qv /\ bl <= qv) nb /\
    Forall (fun x => exists qv, neighbour_in q_data marked p win x qv /\ 0 <= qv < bl) ng.
Proof.
  revert w ab ag. induction win as [|[[i j] k] win IH]; simpl; intros w ab ag H.
  - ok_inv H. exists [], []. simpl. repeat split; try done; constructor.
  - bind_inv H. apply view_read_Ok in Hm.
    assert (forall (P : Z -> Prop) l,
      Forall (fun x => exists qv, neighbour_in q_data marked p win x qv /\ P qv) l ->
      Forall (fun x => exists qv,
                neighbour_in q_data marked p (((i, j), k) :: win) x qv /\ P qv) l) as Hweak.
    { intros P l HF. eapply Forall_impl; [exact HF|]. intros x (qv & Hn & HP). exists qv.
      split; [by apply neighbour_in_cons|done]. }
    destruct (Z.eqb_spec a UNMARKED) as [->|Hne].
    + bind_inv H.
      assert (neighbour_in q_data marked p (((i, j), k) :: win)
                (i - 1 + fst p, j - 1 + snd p) a) as Hnew.
      { exists i, j, k. split; [left|done]. }
      destruct (Z.leb_spec bl a) as [Hge|Hlt]; [|destruct (Z.leb_spec 0 a) as [H0|H0]].
      * apply IH in H as (nb & ng & -> & -> & Hlen & Hb & Hg).
        exists (nb ++ [(i - 1 + fst p, j - 1 + snd p)]), ng.
        rewrite <- app_assoc. simpl. split; [done|]. split; [done|].
        split; [rewrite length_app; simpl; lia|]. split; [|by apply Hweak].
        apply Forall_app. split; [by apply (Hweak (fun qv => bl <= qv))|].
        constructor; [|constructor]. eauto.
      * apply IH in H as (nb & ng & -> & -> & Hlen & Hb & Hg).
        exists nb, (ng ++ [(i - 1 + fst p, j - 1 + snd p)]).
        rewrite <- app_assoc. simpl. split; [done|]. split; [done|].
        split; [rewrite length_app; simpl; lia|].
        split; [by apply (Hweak (fun qv => bl <= qv))|].
        apply Forall_app. split; [by apply (Hweak (fun qv => 0 <= qv < bl))|].
        constructor; [|constructor]. exists a. split; [done|lia].
      * apply IH in H as (nb & ng & -> & -> & Hlen & Hb & Hg).
        exists nb, ng. split; [done|]. split; [done|]. split; [lia|].
        split; [by apply (Hweak (fun qv => bl <= qv))|by apply (Hweak (fun qv => 0 <= qv < bl))].
    + apply IH in H as (nb & ng & -> & -> & Hlen & Hb & Hg).
      exists nb, ng. split; [done|]. split; [done|]. split; [lia|].
      split; [by apply (Hweak (fun qv => bl <= qv))|by apply (Hweak (fun qv => 0 <= qv < bl))].
Qed.

Lemma slice_len_3 (n : nat) (x : Z) : (slice_len n (x - 1) (x + 2) <= 3)%nat.
Proof.
  unfold slice_len, slice_adjust.
  destruct (Z.ltb_spec (x + 2) 0); destruct (Z.ltb_spec (x - 1) 0); lia.
Qed.

Lemma length_flat_map_const {A B} (f : A -> list B) (l : list A) (w : nat) :
  (forall x, length (f x) = w) -> length (flat_map f l) = (length l * w)%nat.
Proof.
  intros Hf. induction l as [|x l IH]; simpl; [done|].
  rewrite length_app, Hf, IH. lia.
Qed.

Lemma length_ndenumerate {A} (a : ndarray A) r0 r1 c0 c1 :
  length (ndenumerate a r0 r1 c0 c1)
  = (slice_len (nrows a) r0 r1 * slice_len (ncols a) c0 c1)%nat.
Proof.
  unfold ndenumerate.
  rewrite (length_flat_map_const _ _ (slice_len (ncols a) c0 c1)).
  - by rewrite length_seq.
  - intros i. by rewrite length_map, length_seq.
Qed.

Lemma length_window3 marked p : (length (window3 marked p) <= 9)%nat.
Proof.
  unfold window3. rewrite length_ndenumerate.
  pose proof (slice_len_3 (nrows marked) (fst p)).
  pose proof (slice_len_3 (ncols marked) (snd p)). nia.
Qed.

(** ** Coordinates that the scans can produce *)

Lemma okc2_same_shape {A B} (a : ndarray A) (b : ndarray B) p :
  same_shape a b -> okc2 a p -> okc2 b p.
Proof. intros [Hr Hc]. unfold okc2. by rewrite Hr, Hc. Qed.

(** The index computed for entry [i] of the slice [x - 1 : x + 2] denotes
    the cell that the slice shows there. *)
Lemma axis_alias (n : nat) (x : Z) (i r : nat) :
  okc n x -> (i < slice_len n (x - 1) (x + 2))%nat ->
  norm_index n (Z.of_nat i - 1 + x) = Some r ->
  r = (slice_start n (x - 1) + i)%nat /\ okc n (Z.of_nat i - 1 + x).
Proof.
  unfold okc, slice_len, slice_start, slice_adjust, norm_index.
  intros Hx Hi Hr.
  destruct (Z.leb_spec 0 (Z.of_nat i - 1 + x));
    destruct (Z.ltb_spec (Z.of_nat i - 1 + x) (Z.of_nat n));
    destruct (Z.leb_spec (- Z.of_nat n) (Z.of_nat i - 1 + x));
    destruct (Z.ltb_spec (Z.of_nat i - 1 + x) 0);
    simpl in Hr; try discriminate; ok_inv Hr;
    destruct (Z.ltb_spec (x + 2) 0); destruct (Z.ltb_spec (x - 1) 0); lia.
Qed.

Lemma elem_of_ndenumerate {A} (a : ndarray A) r0 r1 c0 c1 i j k :
  ((i, j), k) ∈ ndenumerate a r0 r1 c0 c1 ->
  exists i' j' : nat,
    i = Z.of_nat i' /\ j = Z.of_nat j' /\
    (i' < slice_len (nrows a) r0 r1)%nat /\ (j' < slice_len (ncols a) c0 c1)%nat /\
    k = ((slice_start (nrows a) r0 + i') * ncols a + (slice_start (ncols a) c0 + j'))%nat.
Proof.
  unfold ndenumerate. rewrite list_elem_of_In, in_flat_map.
  intros (i' & Hi' & Hin). apply in_map_iff in Hin as (j' & Heq & Hj').
  apply in_seq in Hi'. apply in_seq in Hj'. ok_inv Heq.
  exists i', j'. repeat split; lia.
Qed.

Lemma neighbour_alias q_data marked p x qv :
  same_shape q_data marked -> okc2 marked p ->
  neighbour_in q_data marked p (window3 marked p) x qv ->
  okc2 marked x /\ getitem marked x = Ok UNMARKED.
Proof.
  intros Hq [Hr Hc] (i & j & k & Hin & -> & Hk & Hg).
  apply elem_of_ndenumerate in Hin as (i' & j' & -> & -> & Hi' & Hj' & ->).
  apply getitem_Ok in Hg as (kq & Hoff & _).
  rewrite (offset_same_shape _ _ _ Hq) in Hoff. unfold offset in Hoff. simpl in Hoff.
  destruct (norm_index (nrows marked) (Z.of_nat i' - 1 + fst p)) as [r|] eqn:Er; [|done].
  destruct (norm_index (ncols marked) (Z.of_nat j' - 1 + snd p)) as [c|] eqn:Ec; [|done].
  destruct (axis_alias _ _ _ _ Hr Hi' Er) as [-> Hokr].
  destruct (axis_alias _ _ _ _ Hc Hj' Ec) as [-> Hokc].
  split; [by split|]. unfold getitem, offset. simpl. rewrite Er, Ec. by rewrite Hk.
Qed.

(** ** The flood of [set_maximum] *)

Lemma flood_inv_start q_data m0 cap bl center :
  flood_inv q_data m0 cap bl center m0 [] [] [].
Proof.
  split; [apply painted_start|constructor| |constructor|simpl; lia|by constructor].
  intros k Hk. by apply elem_of_nil in Hk.
Qed.

(** One round of the [while] loop that marks a pixel. *)
Lemma flood_step q_data m0 cap bl center cd m p ab ag msf w ks m' w' ab' ag' :
  cap <> UNMARKED -> same_shape q_data m0 ->
  flood_inv q_data m0 cap bl center m msf ag ks ->
  stack_ok q_data m0 center bl (p :: ab) ->
  getitem m p = Ok UNMARKED ->
  setitem m p cap = Ok m' ->
  check_neighbors q_data m' p cd bl (window3 m' p) w ab ag = Ok (w', ab', ag') ->
  exists k,
    flood_inv q_data m0 cap bl center m' (msf ++ [p]) ag' (ks ++ [k]) /\
    stack_ok q_data m0 center bl ab' /\
    (length ab' <= length ab + 9)%nat.
Proof.
  intros Hcap Hq [Hpaint Hloc Hgrown Hglob Hgl Hgc] [Hbin Hbc] Hv Hm' Hm.
  apply Forall_cons in Hbin as [Hp Hab].
  apply getitem_Ok in Hv as (k & Hoff & Hk).
  pose proof (setitem_shape _ _ _ _ Hm') as [Hs' _].
  apply setitem_Ok in Hm' as (k' & Hoff' & _ & Em').
  assert (k' = k) as -> by congruence.
  pose proof (length_window3 m' p) as Hwin.
  assert (same_shape m0 m') as Hs0 by (eapply same_shape_trans; [apply Hpaint|done]).
  assert (forall x qv, neighbour_in q_data m' p (window3 m' p) x qv ->
                       okc2 m0 center -> okc2 m0 x) as Hcoord.
  { intros x qv Hn Hc. apply Hbc, Forall_cons in Hc as [Hpc _].
    apply (okc2_same_shape m' m0); [by apply same_shape_sym|].
    eapply neighbour_alias; [|by apply (okc2_same_shape m0 m')|exact Hn].
    by eapply same_shape_trans. }
  apply check_neighbors_inv in Hm as (nb & ng & -> & -> & Hlen & Hnb & Hng).
  assert (offset m0 p = Some k) as Hoff0.
  { rewrite <- Hoff. apply offset_same_shape, Hpaint. }
  exists k. split; [split|split; [split|]].
  - subst m'. by apply painted_step.
  - apply Forall2_app; [done|]. by constructor.
  - intros k' [Hk'|Hk'%list_elem_of_singleton]%elem_of_app; [by auto|]. subst k'.
    destruct Hp as [->|(qv & Hg & Hqv)]; [by left|]. right.
    apply getitem_Ok in Hg as (k' & Hoffq & Hkq).
    rewrite (offset_same_shape _ _ _ Hq) in Hoffq. exists qv. split; [congruence|done].
  - apply Forall_app. split; [|done].
    eapply Forall_impl; [exact Hng|]. intros x (qv & (?&?&?&?&?&?&?) & ?). by exists qv.
  - rewrite !length_app. simpl. lia.
  - intros Hc. apply Forall_app. split; [|by apply Hgc].
    eapply Forall_impl; [exact Hng|]. intros x (qv & Hn & _). by eapply Hcoord.
  - apply Forall_app. split; [|done].
    eapply Forall_impl; [exact Hnb|]. intros x (qv & (?&?&?&?&?&?&?) & ?). right. by exists qv.
  - intros Hc. apply Forall_app. split.
    + eapply Forall_impl; [exact Hnb|]. intros x (qv & Hn & _). by eapply Hcoord.
    + by apply Hbc, Forall_cons in Hc as [_ ?].
  - rewrite length_app. lia.
Qed.

Lemma stack_ok_tail q_data m0 center bl p ab :
  stack_ok q_data m0 center bl (p :: ab) -> stack_ok q_data m0 center bl ab.
Proof.
  intros [Hbin Hbc]. split; [by apply Forall_cons in Hbin as [_ ?]|].
  intros Hc. by apply Hbc, Forall_cons in Hc as [_ ?].
Qed.

Lemma flood_inv_preserved q_data m0 cap bl center cd :
  cap <> UNMARKED -> same_shape q_data m0 ->
  forall fuel m as_bin as_glob msf w ks fl,
    flood_inv q_data m0 cap bl center m msf as_glob ks ->
    stack_ok q_data m0 center bl as_bin ->
    flood fuel q_data m cd bl cap as_bin as_glob msf w = Ok fl ->
    exists ks', flood_inv q_data m0 cap bl center
                  (fl_marked fl) (fl_marked_so_far fl) (fl_as_glob fl) ks'.
Proof.
  intros Hcap Hq. induction fuel as [|fuel IH]; intros m as_bin as_glob msf w ks fl Hinv Hbin H.
  - destruct as_bin; simpl in H; [|discriminate]. ok_inv H. eauto.
  - destruct as_bin as [|p ab]; simpl in H; [ok_inv H; eauto|].
    bind_inv H as v Hv.
    destruct (Z.eqb_spec v UNMARKED) as [->|Hne]; simpl in H;
      [|eapply IH; [done|by eapply stack_ok_tail|done]].
    bind_inv H as m' Hm'. bind_inv H as [[w' ab'] ag'] Hm.
    destruct (flood_step _ _ _ _ _ _ _ _ _ _ _ _ _ _ _ _ _ Hcap Hq Hinv Hbin Hv Hm' Hm)
      as (k & Hinv' & Hbin' & _).
    by eapply IH.
Qed.

(** The work list empties: a round either drops an entry or marks a cell
    that was unmarked, and a marked cell adds at most nine entries. *)
Lemma flood_terminates q_data m0 cap bl center cd :
  cap <> UNMARKED -> same_shape q_data m0 ->
  forall fuel m as_bin as_glob msf w ks,
    flood_inv q_data m0 cap bl center m msf as_glob ks ->
    stack_ok q_data m0 center bl as_bin ->
    (length as_bin + 9 * (length (cells m0) - length ks) <= fuel)%nat ->
    flood fuel q_data m cd bl cap as_bin as_glob msf w <> OutOfFuel.
Proof.
  intros Hcap Hq. induction fuel as [|fuel IH]; intros m as_bin as_glob msf w ks Hinv Hbin Hfuel.
  - destruct as_bin; simpl in *; [done|lia].
  - destruct as_bin as [|p ab]; simpl; [done|]. simpl in Hfuel.
    destruct (getitem m p) as [v| |] eqn:Hv; simpl; [|done|].
    2:{ unfold getitem in Hv. destruct (offset m p); [|done]. by destruct (cells m !! n). }
    destruct (Z.eqb_spec v UNMARKED) as [->|Hne]; simpl.
    2:{ eapply IH; [done|by eapply stack_ok_tail|lia]. }
    destruct (setitem m p cap) as [m'| |] eqn:Hm'; simpl; [|done|].
    2:{ unfold setitem in Hm'. destruct (offset m p); [|done].
        by destruct (n <? length (cells m))%nat. }
    destruct (check_neighbors q_data m' p cd bl (window3 m' p) w ab as_glob)
      as [[[w' ab'] ag']| |] eqn:Hm; simpl; [|done|].
    + destruct (flood_step _ _ _ _ _ _ _ _ _ _ _ _ _ _ _ _ _ Hcap Hq Hinv Hbin Hv Hm' Hm)
        as (k & Hinv' & Hbin' & Hlen).
      eapply IH; [done|done|].
      pose proof (painted_length _ _ _ _ (fi_painted _ _ _ _ _ _ _ _ _ Hinv')) as Hks.
      rewrite length_app in *. simpl in *. lia.
    + exfalso. revert Hm. clear. generalize (window3 m' p) as win. revert w ab as_glob.
      intros w ab ag win. revert w ab ag.
      induction win as [|[[i j] k] win IHw]; simpl; intros w ab ag; [done|].
      unfold view_read. destruct (cells m' !! k); simpl; [|done].
      destruct (z =? UNMARKED); [|apply IHw].
      destruct (getitem q_data (i - 1 + fst p, j - 1 + snd p)) as [qv| |] eqn:Hg; simpl; [|done|].
      * destruct (bl <=? qv); [apply IHw|]. destruct (0 <=? qv); apply IHw.
      * unfold getitem in Hg. destruct (offset q_data _); [|done]. by destruct (cells q_data !! n).
Qed.

Lemma grow_region_inv fuel q_data m0 center bl cap fl :
  cap <> UNMARKED -> same_shape q_data m0 ->
  grow_region fuel q_data m0 center bl cap = Ok fl ->
  exists ks, flood_inv q_data m0 cap bl center
               (fl_marked fl) (fl_marked_so_far fl) (fl_as_glob fl) ks.
Proof.
  intros Hcap Hq H. unfold grow_region in H. bind_inv H.
  eapply flood_inv_preserved; [done|done|apply flood_inv_start| |exact H].
  split; [constructor; [by left|constructor]|]. intros Hc. by constructor.
Qed.

(** ** set_maximum *)

Lemma set_maximum_inv fuel self q_data m0 center bl fh cap m' fh' captured :
  cap <> UNMARKED -> same_shape q_data m0 ->
  set_maximum fuel self q_data m0 center bl fh cap = Ok (m', fh', captured) ->
  exists fl ks,
    grow_region fuel q_data m0 center bl cap = Ok fl /\
    flood_inv q_data m0 cap bl center (fl_marked fl) (fl_marked_so_far fl) (fl_as_glob fl) ks /\
    set_maximum_case self bl center m0 fh fl m' fh' captured.
Proof.
  intros Hcap Hq H. unfold set_maximum in H. bind_inv H as fl Hfl.
  destruct (grow_region_inv _ _ _ _ _ _ _ Hcap Hq Hfl) as (ks & Hinv).
  exists fl, ks. split; [done|]. split; [done|].
  bind_inv H as [m1 fh1] Hbr. ok_inv H.
  destruct (big_enough self fl) eqn:Hbig.
  - ok_inv Hbr. simpl. by constructor.
  - simpl. destruct (too_small self fl) eqn:Hsmall.
    + bind_inv Hbr as m2 Hun. ok_inv Hbr.
      apply (unmark_all_painted m0 cap _ ks) in Hun; [|apply Hinv|apply Hinv]. subst.
      by constructor; auto.
    + destruct (again_after bl fl) eqn:Hagain.
      * bind_inv Hbr as m2 Hun. ok_inv Hbr.
        apply (unmark_all_painted m0 cap _ ks) in Hun; [|apply Hinv|apply Hinv]. subst.
        constructor; auto. by rewrite Hagain.
      * ok_inv Hbr. by constructor.
Qed.

(** C1, as the code has it.  A call of [set_maximum] that returns gives
    true exactly when the region reached the maximum size or is not
    eligible for reconsideration (a region of at most [min_size] pixels
    that is still eligible is reported false, like any other eligible
    region); and when it gives false, the label grid and the foothill list
    are exactly what they were before the call. *)
Theorem set_maximum_verdict fuel self q_data marked center bin_lower foothills capture_index
    fl marked' foothills' captured :
  capture_index <> UNMARKED ->
  same_shape q_data marked ->
  grow_region fuel q_data marked center bin_lower capture_index = Ok fl ->
  set_maximum fuel self q_data marked center bin_lower foothills capture_index
    = Ok (marked', foothills', captured) ->
  (captured = true <-> big_enough self fl = true \/ again_after bin_lower fl = false) /\
  (captured = false -> marked' = marked /\ foothills' = foothills).
Proof.
  intros Hcap Hq Hfl H.
  apply set_maximum_inv in H as (fl' & ks & Hfl' & _ & Hcase); [|done|done].
  assert (fl' = fl) as -> by congruence.
  destruct Hcase as [Hbig|captured Hbig Hundo ->|Hbig Hsmall Hagain].
  - split; [|discriminate]. split; auto.
  - split; [|done]. rewrite Hbig. destruct (again_after bin_lower fl); simpl.
    + split; [discriminate|]. intros [?|?]; discriminate.
    + split; auto.
  - split; [|discriminate]. split; auto.
Qed.

(** ** Calls that need no fuel *)

Lemma bind_terminates {A B} (m : result A) (k : A -> result B) :
  m <> OutOfFuel -> (forall a, m = Ok a -> k a <> OutOfFuel) -> bind m k <> OutOfFuel.
Proof. destruct m; simpl; auto. Qed.

Lemma getitem_terminates {A} (a : ndarray A) p : getitem a p <> OutOfFuel.
Proof. unfold getitem. destruct (offset a p); [|done]. by destruct (cells a !! n). Qed.

Lemma setitem_terminates {A} (a : ndarray A) p v : setitem a p v <> OutOfFuel.
Proof. unfold setitem. destruct (offset a p); [|done]. by destruct (n <? length (cells a))%nat. Qed.

Lemma view_read_terminates {A} (a : ndarray A) k : view_read a k <> OutOfFuel.
Proof. unfold view_read. by destruct (cells a !! k). Qed.

Lemma dict_get_terminates d k : dict_get d k <> OutOfFuel.
Proof. induction d as [|[k' l] d IH]; simpl; [done|]. by destruct (k' =? k). Qed.

Lemma dict_append_terminates d k p : dict_append d k p <> OutOfFuel.
Proof.
  induction d as [|[k' l] d IH]; simpl; [done|]. destruct (k' =? k); [done|].
  by apply bind_terminates.
Qed.

Lemma unmark_all_terminates marked ms : unmark_all marked ms <> OutOfFuel.
Proof.
  revert marked. induction ms as [|m ms IH]; simpl; intros marked; [done|].
  apply bind_terminates; [apply setitem_terminates|auto].
Qed.

Lemma check_neighbors_terminates q_data marked p cd bl win w ab ag :
  check_neighbors q_data marked p cd bl win w ab ag <> OutOfFuel.
Proof.
  revert w ab ag. induction win as [|[[i j] k] win IH]; simpl; intros w ab ag; [done|].
  apply bind_terminates; [apply view_read_terminates|]. intros val _.
  destruct (val =? UNMARKED); [|apply IH].
  apply bind_terminates; [apply getitem_terminates|]. intros qv _.
  destruct (bl <=? qv); [apply IH|]. destruct (0 <=? qv); apply IH.
Qed.

Lemma is_closest_terminates point center centers bin_num :
  is_closest point center centers bin_num <> OutOfFuel.
Proof.
  unfold is_closest. generalize (sqdist point center) as d.
  generalize (seqZ (bin_num `quot` 2) (Z.of_nat (length (keys centers)) - bin_num `quot` 2)).
  intros bins d. induction bins as [|o bins IH]; simpl; [done|].
  apply bind_terminates; [apply dict_get_terminates|]. intros cs _.
  by destruct (existsb _ cs).
Qed.

Lemma hill_neighbors_terminates q_data marked pt center centers bn bl win hills :
  hill_neighbors q_data marked pt center centers bn bl win hills <> OutOfFuel.
Proof.
  revert hills. induction win as [|[[i j] k] win IH]; simpl; intros hills; [done|].
  apply bind_terminates; [apply view_read_terminates|]. intros val _.
  apply bind_terminates; [|auto].
  destruct (val =? UNMARKED); [|done].
  apply bind_terminates; [apply getitem_terminates|]. intros qi _.
  destruct ((0 <=? qi) && (qi <? bl)); [|done].
  apply bind_terminates; [apply getitem_terminates|]. intros qp _.
  destruct (qi <=? qp); [done|apply is_closest_terminates].
Qed.

(** ** The foothill flood *)

Lemma hill_neighbors_inv q_data marked pt center centers bn bl win hills hills' :
  hill_neighbors q_data marked pt center centers bn bl win hills = Ok hills' ->
  exists new, hills' = new ++ hills /\ (length new <= length win)%nat /\
    Forall (fun x => exists qv, neighbour_in q_data marked pt win x qv /\ 0 <= qv < bl) new.
Proof.
  revert hills. induction win as [|[[i j] k] win IH]; simpl; intros hills H.
  - ok_inv H. exists []. split; [done|]. split; [done|constructor].
  - bind_inv H as val Hval. apply view_read_Ok in Hval. bind_inv H as take Htake.
    apply IH in H as (new & -> & Hlen & Hnew).
    assert (Forall (fun x => exists qv,
              neighbour_in q_data marked pt (((i, j), k) :: win) x qv /\ 0 <= qv < bl) new)
      as Hnew'.
    { eapply Forall_impl; [exact Hnew|]. intros x (qv & Hn & Hq). exists qv.
      split; [by apply neighbour_in_cons|done]. }
    destruct take.
    + exists (new ++ [(i - 1 + fst pt, j - 1 + snd pt)]). rewrite <- app_assoc.
      split; [done|]. split; [rewrite length_app; simpl; lia|].
      apply Forall_app. split; [done|]. constructor; [|constructor].
      destruct (Z.eqb_spec val UNMARKED) as [->|]; [|discriminate].
      bind_inv Htake as qi Hqi.
      destruct (Z.leb_spec 0 qi); destruct (Z.ltb_spec qi bl); simpl in Htake;
        try discriminate.
      exists qi. split; [|lia]. exists i, j, k. split; [left|done].
    + exists new. split; [done|]. split; [lia|done].
Qed.

Lemma globbing_refl m : globbing m m.
Proof. split; [apply same_shape_refl|]. split; [done|]. by left. Qed.

Lemma globbing_trans m1 m2 m3 : globbing m1 m2 -> globbing m2 m3 -> globbing m1 m3.
Proof.
  intros (Hs & Hl & H) (Hs' & Hl' & H'). split; [by eapply same_shape_trans|].
  split; [congruence|]. intros k.
  destruct (H k) as [E|[E1 E2]]; destruct (H' k) as [E'|[E1' E2']].
  - left. congruence.
  - right. split; congruence.
  - right. split; congruence.
  - exfalso. rewrite E2 in E1'. discriminate.
Qed.

Lemma tidy_globbing q_data bl cap m m' : tidy q_data bl cap m -> globbing m m' -> tidy q_data bl cap m'.
Proof.
  intros [Hq Hv] (Hs & _ & H). split; [by eapply same_shape_trans|].
  intros k v Hk. destruct (H k) as [E|[_ E]].
  - apply Hv. congruence.
  - right. left. congruence.
Qed.

Lemma tidy_weaken q_data bl bl' cap cap' m :
  bl' <= bl -> cap <= cap' -> tidy q_data bl cap m -> tidy q_data bl' cap' m.
Proof.
  intros Hbl Hcap [Hq Hv]. split; [done|]. intros k v Hk.
  destruct (Hv _ _ Hk) as [?|[?|(Hr & qv & Hqv & Hge)]]; [by left|by right; left|].
  right. right. split; [lia|]. exists qv. split; [done|lia].
Qed.

(** Globbing a foothill pixel of a tidy grid touches no capture index. *)
Lemma glob_foot q_data bl cap m pt m' :
  tidy q_data bl cap m -> foot q_data bl pt -> setitem m pt GLOBBED = Ok m' -> globbing m m'.
Proof.
  intros [Hq Hv] (qv & Hg & Hqv) Hset.
  apply getitem_Ok in Hg as (k & Hoff & Hk).
  apply setitem_Ok in Hset as (k' & Hoff' & Hlt & ->).
  rewrite (offset_same_shape _ _ _ Hq) in Hoff. assert (k' = k) as -> by congruence.
  split; [by split|]. split; [simpl; apply length_insert|]. simpl. intros j.
  destruct (decide (j = k)) as [->|Hne]; [|left; by apply list_lookup_insert_ne].
  rewrite list_lookup_insert_eq by done.
  destruct (lookup_lt_is_Some_2 _ _ Hlt) as [v Ev].
  destruct (Hv _ _ Ev) as [->|[->|(_ & qv' & Hqv' & Hge)]].
  - by right.
  - by left.
  - exfalso. assert (qv' = qv) by congruence. lia.
Qed.

Lemma remove_hills_inv q_data cap center centers bn bl :
  forall fuel m hills m',
    tidy q_data bl cap m -> Forall (foot q_data bl) hills ->
    remove_hills fuel q_data m center centers bn bl hills = Ok m' ->
    globbing m m'.
Proof.
  induction fuel as [|fuel IH]; intros m hills m' Ht Hh H.
  - destruct hills; simpl in H; [|discriminate]. ok_inv H. apply globbing_refl.
  - destruct hills as [|pt hs]; simpl in H; [ok_inv H; apply globbing_refl|].
    apply Forall_cons in Hh as [Hpt Hhs].
    bind_inv H as m1 Hm1. bind_inv H as hs' Hhs'.
    pose proof (glob_foot _ _ _ _ _ _ Ht Hpt Hm1) as Hg.
    apply hill_neighbors_inv in Hhs' as (new & -> & _ & Hnew).
    eapply globbing_trans; [exact Hg|]. eapply IH; [by eapply tidy_globbing| |exact H].
    apply Forall_app. split; [|done].
    eapply Forall_impl; [exact Hnew|]. intros x (qv & (?&?&?&?&?&?&?) & ?). by exists qv.
Qed.

Lemma remove_foothills_inv q_data cap bn bl centers :
  forall fuel foothills m m',
    tidy q_data bl cap m -> foothills_ok q_data bl foothills ->
    remove_foothills fuel q_data m bn bl centers foothills = Ok m' ->
    globbing m m'.
Proof.
  intros fuel foothills. induction foothills as [|[center globs] fh IH]; simpl; intros m m' Ht Hf H.
  - ok_inv H. apply globbing_refl.
  - apply Forall_cons in Hf as [Hglobs Hfh]. simpl in Hglobs.
    bind_inv H as m1 Hm1. apply (remove_hills_inv _ cap) in Hm1; [|done|done].
    eapply globbing_trans; [exact Hm1|]. eapply IH; [by eapply tidy_globbing|done|done].
Qed.

(** *** Termination of the foothill flood *)

Lemma top_live_range m hills : 0 <= top_live m hills <= 1.
Proof. destruct hills; simpl; [lia|]. destruct (live m p); lia. Qed.

Lemma positions_bound (gs : list nat) (n : nat) :
  NoDup gs -> (forall k, k ∈ gs -> (k < n)%nat) -> (length gs <= n)%nat.
Proof.
  intros Hnd Hlt.
  assert (gs ⊆ seq 0 n) as Hsub by (intros k Hk; apply elem_of_seq; specialize (Hlt _ Hk); lia).
  apply NoDup_submseteq in Hsub; [|done].
  apply submseteq_length in Hsub. by rewrite length_seq in Hsub.
Qed.

(** The measure: entries on the stack, eighteen for every cell not yet
    globbed by this flood, nine less when the top entry is unmarked.  A
    round that globs an unmarked cell pays for its pushes with that cell;
    a round on a cell already globbed pays for its pushes with the top
    entry, which is then unmarked. *)
Lemma remove_hills_terminates q_data center centers bn bl :
  forall fuel m hills gs,
    same_shape q_data m -> Forall (okc2 m) hills ->
    NoDup gs -> (forall k, k ∈ gs -> cells m !! k = Some GLOBBED) ->
    Z.of_nat (length hills)
      + 18 * (Z.of_nat (length (cells m)) - Z.of_nat (length gs))
      - 9 * top_live m hills <= Z.of_nat fuel ->
    remove_hills fuel q_data m center centers bn bl hills <> OutOfFuel.
Proof.
  induction fuel as [|fuel IH]; intros m hills gs Hq Hok Hnd Hgs Hfuel.
  - destruct hills as [|pt hs]; simpl in *; [done|exfalso].
    assert (length gs <= length (cells m))%nat as Hle.
    { apply positions_bound; [done|]. intros k Hk. by eapply lookup_lt_Some, Hgs. }
    unfold live in Hfuel. destruct (getitem m pt) as [v| |] eqn:Hv; try lia.
    destruct (Z.eqb_spec v UNMARKED) as [->|]; [|lia].
    apply getitem_Ok in Hv as (k & _ & Hk).
    assert (length (k :: gs) <= length (cells m))%nat as Hle'.
    { apply positions_bound.
      - constructor; [|done]. intros Hin. apply Hgs in Hin. rewrite Hin in Hk. discriminate.
      - intros k' [->|Hk']%elem_of_cons; [by eapply lookup_lt_Some|].
        by eapply lookup_lt_Some, Hgs. }
    simpl in Hle'. lia.
  - destruct hills as [|pt hs]; simpl; [done|].
    apply Forall_cons in Hok as [Hpt Hhs].
    apply bind_terminates; [apply setitem_terminates|]. intros m1 Hm1.
    apply bind_terminates; [apply hill_neighbors_terminates|]. intros hs' Hhs'.
    pose proof (setitem_shape _ _ _ _ Hm1) as [Hs1 Hl1].
    apply setitem_Ok in Hm1 as (k & Hoff & Hlt & Em1).
    destruct (lookup_lt_is_Some_2 _ _ Hlt) as [v Hv].
    assert (same_shape q_data m1) as Hq1 by (by eapply same_shape_trans).
    assert (forall x, okc2 m x -> okc2 m1 x) as Hokm by (intros x; by apply okc2_same_shape).
    apply hill_neighbors_inv in Hhs' as (new & -> & Hlen & Hnew).
    pose proof (length_window3 m1 pt) as Hwin.
    assert (Forall (fun x => okc2 m1 x /\ live m1 x = true) new) as Hnew'.
    { eapply Forall_impl; [exact Hnew|]. intros x (qv & Hn & _).
      destruct (neighbour_alias _ _ _ _ _ Hq1 (Hokm _ Hpt) Hn) as [Hox Hgx].
      split; [done|]. unfold live. by rewrite Hgx. }
    assert (live m pt = (v =? UNMARKED)) as Hlive.
    { unfold live, getitem. by rewrite Hoff, Hv. }
    assert (length gs <= length (cells m))%nat as Hle.
    { apply positions_bound; [done|]. intros k' Hk'. by eapply lookup_lt_Some, Hgs. }
    pose proof (top_live_range m1 hs) as Hrange.
    simpl in Hfuel. rewrite Hlive in Hfuel.
    assert (forall k', k' ∈ gs -> cells m1 !! k' = Some GLOBBED) as Hgs1.
    { intros k' Hk'. subst m1. simpl. destruct (decide (k' = k)) as [->|Hne].
      - by apply list_lookup_insert_eq.
      - rewrite list_lookup_insert_ne by done. by apply Hgs. }
    assert (Forall (okc2 m1) (new ++ hs)) as Hok1.
    { apply Forall_app. split.
      - eapply Forall_impl; [exact Hnew'|]. by intros x [? _].
      - eapply Forall_impl; [exact Hhs|]. auto. }
    assert (new <> [] -> top_live m1 (new ++ hs) = 1) as Htop.
    { destruct new as [|x new']; [done|]. intros _. simpl.
      apply Forall_cons in Hnew' as [[_ ->] _]. done. }
    assert (new = [] -> top_live m1 (new ++ hs) = top_live m1 hs) as Htop0 by (by intros ->).
    destruct (Z.eqb_spec v UNMARKED) as [Ev|Hne].
    + subst v. apply (IH _ _ (k :: gs)); [done|done| | |].
      * constructor; [|done]. intros Hin. apply Hgs in Hin. rewrite Hin in Hv. discriminate.
      * intros k' [->|Hk']%elem_of_cons; [|by apply Hgs1].
        subst m1. simpl. by apply list_lookup_insert_eq.
      * pose proof (top_live_range m1 (new ++ hs)).
        rewrite length_app, Hl1. simpl. lia.
    + apply (IH _ _ gs); [done|done|done|done|].
      rewrite length_app, Hl1. destruct new as [|x new'].
      * rewrite Htop0 by done. simpl. lia.
      * rewrite Htop by done. simpl in *. lia.
Qed.

(** ** Counting the pixels of a label *)

Lemma elem_of_positions c l k : k ∈ positions c l <-> l !! k = Some c.
Proof.
  unfold positions. rewrite list_elem_of_filter, elem_of_seq. split; [by intros [? _]|].
  intros H. split; [done|]. apply lookup_lt_Some in H. lia.
Qed.

Lemma NoDup_positions c l : NoDup (positions c l).
Proof. apply NoDup_filter, NoDup_seq. Qed.

Lemma positions_length c l ks :
  NoDup ks -> (forall k, k ∈ ks <-> l !! k = Some c) -> length (positions c l) = length ks.
Proof.
  intros Hnd Hks. apply Permutation_length, NoDup_Permutation; [apply NoDup_positions|done|].
  intros k. by rewrite elem_of_positions, Hks.
Qed.

Lemma pixel_count_ext c m m' :
  (forall k, cells m !! k = Some c <-> cells m' !! k = Some c) ->
  pixel_count c m = pixel_count c m'.
Proof.
  intros H. unfold pixel_count. apply positions_length; [apply NoDup_positions|].
  intros k. by rewrite elem_of_positions, H.
Qed.

Lemma pixel_count_absent c m :
  (forall k, cells m !! k <> Some c) -> pixel_count c m = 0%nat.
Proof.
  intros H. unfold pixel_count. rewrite (positions_length c _ []); [done|constructor|].
  intros k. split; [by intros ?%elem_of_nil|]. intros E. by apply H in E.
Qed.

Lemma pixel_count_present c m k :
  cells m !! k = Some c -> (0 < pixel_count c m)%nat.
Proof.
  intros H. apply elem_of_positions in H. unfold pixel_count.
  destruct (positions c (cells m)); [by apply elem_of_nil in H|simpl; lia].
Qed.

(** ** Cells that no longer change *)

Lemma frozen_refl m : frozen m m.
Proof. split; [apply same_shape_refl|auto]. Qed.

Lemma frozen_trans m1 m2 m3 : frozen m1 m2 -> frozen m2 m3 -> frozen m1 m3.
Proof. intros [Hs H] [Hs' H']. split; [by eapply same_shape_trans|]. auto. Qed.

Lemma globbing_frozen m m' : globbing m m' -> frozen m m'.
Proof.
  intros (Hs & _ & H). split; [done|]. intros k v Hk Hv.
  destruct (H k) as [E|[E _]]; [congruence|].
  rewrite E in Hk. ok_inv Hk. unfold UNMARKED, GLOBBED in Hv. lia.
Qed.

Lemma painted_frozen m0 m v ks : painted m0 m v ks -> frozen m0 m.
Proof.
  intros (Hs & _ & _ & Hin & Hout). split; [done|]. intros k x Hk Hx.
  destruct (decide (k ∈ ks)) as [Hks|Hks].
  - destruct (Hin _ Hks) as [E _]. rewrite E in Hk. ok_inv Hk.
    unfold UNMARKED, GLOBBED in Hx. lia.
  - by rewrite Hout.
Qed.

Lemma settled_snoc history m m' :
  settled history -> last history = Some m -> frozen m m' -> settled (history ++ [m']).
Proof.
  intros Hset Hlast Hfr i j mi mj Hij Hi Hj.
  assert (forall i mi, history !! i = Some mi -> frozen mi m) as Hto_last.
  { intros i' mi' Hi'. rewrite last_lookup in Hlast.
    apply (Hset i' (pred (length history)) mi' m); [|done|done]. apply lookup_lt_Some in Hi'. lia. }
  destruct (decide (j < length history)%nat) as [Hj'|Hj'].
  - rewrite lookup_app_l in Hj by done. rewrite lookup_app_l in Hi by lia. by apply (Hset i j mi mj).
  - rewrite lookup_app_r in Hj by lia.
    apply list_lookup_singleton_Some in Hj as [_ <-].
    destruct (decide (i < length history)%nat) as [Hi'|Hi'].
    + rewrite lookup_app_l in Hi by done. eapply frozen_trans; [|exact Hfr]. by eapply Hto_last.
    + rewrite lookup_app_r in Hi by lia.
      apply list_lookup_singleton_Some in Hi as [_ <-]. apply frozen_refl.
Qed.

(** ** The invariant of grow_centers *)

Lemma tidy_clean q_data bl cap m : tidy q_data bl cap m -> clean m.
Proof.
  intros [_ Hv]. apply Forall_lookup. intros k v Hk.
  destruct (Hv _ _ Hk) as [->|[->|[? _]]]; unfold TOOSMALL; [done|done|lia].
Qed.

Lemma tidy_fresh q_data bl cap m k : tidy q_data bl cap m -> 1 <= cap -> cells m !! k <> Some cap.
Proof.
  intros [_ Hv] Hcap Hk. destruct (Hv _ _ Hk) as [E|[E|[? _]]]; [| |lia];
    unfold UNMARKED, GLOBBED in E; lia.
Qed.

Lemma grown_value q_data m0 center bl k :
  same_shape q_data m0 -> seed_ok q_data bl center -> grown q_data m0 center bl k ->
  exists qv, cells q_data !! k = Some qv /\ bl <= qv.
Proof.
  intros Hq (_ & qv & Hg & Hqv) [Hoff|H]; [|done].
  apply getitem_Ok in Hg as (k' & Hoff' & Hk').
  rewrite (offset_same_shape _ _ _ Hq) in Hoff'. exists qv. split; [congruence|done].
Qed.

Lemma tidy_painted q_data bl cap m0 m ks :
  tidy q_data bl cap m0 -> painted m0 m cap ks -> 1 <= cap ->
  (forall k, k ∈ ks -> exists qv, cells q_data !! k = Some qv /\ bl <= qv) ->
  tidy q_data bl (cap + 1) m.
Proof.
  intros [Hq Hv] (Hs & _ & _ & Hin & Hout) Hcap Hks. split; [by eapply same_shape_trans|].
  intros k v Hk. destruct (decide (k ∈ ks)) as [Hk'|Hk'].
  - destruct (Hin _ Hk') as [_ E]. rewrite E in Hk. ok_inv Hk.
    right. right. split; [lia|auto].
  - rewrite Hout in Hk by done.
    destruct (Hv _ _ Hk) as [?|[?|(? & ?)]]; [by left|by right; left|].
    right. right. split; [lia|done].
Qed.

Lemma painted_count_other m0 m cap ks c :
  painted m0 m cap ks -> c <> cap -> c <> UNMARKED -> pixel_count c m = pixel_count c m0.
Proof.
  intros (_ & _ & _ & Hin & Hout) Hc Hu. apply pixel_count_ext. intros k.
  destruct (decide (k ∈ ks)) as [Hk|Hk].
  - destruct (Hin _ Hk) as [E0 E1]. rewrite E0, E1. split; intros E; ok_inv E; done.
  - by rewrite Hout.
Qed.

Lemma painted_count_new m0 m cap ks :
  painted m0 m cap ks -> (forall k, cells m0 !! k <> Some cap) ->
  pixel_count cap m = length ks.
Proof.
  intros (_ & _ & Hnd & Hin & Hout) Hfresh. apply positions_length; [done|].
  intros k. split; [by intros [_ ?]%Hin|]. intros E.
  destruct (decide (k ∈ ks)) as [Hk|Hk]; [done|]. rewrite Hout in E by done. by apply Hfresh in E.
Qed.

Lemma globbing_count m m' c : globbing m m' -> 0 < c -> pixel_count c m' = pixel_count c m.
Proof.
  intros (_ & _ & H) Hc. apply pixel_count_ext. intros k.
  destruct (H k) as [E|[E0 E1]]; [by rewrite E|]. rewrite E0, E1.
  split; intros E; ok_inv E; unfold GLOBBED, UNMARKED in *; lia.
Qed.

Lemma located_length m0 ps ks : located m0 ps ks -> length ps = length ks.
Proof. apply Forall2_length. Qed.

Lemma set_maximum_ginv fuel self q_data bl g center marked foothills captured :
  ginv self q_data bl g -> seed_ok q_data bl center ->
  set_maximum fuel self q_data (g_marked g) center bl (g_foothills g) (g_capture_index g)
    = Ok (marked, foothills, captured) ->
  ginv self q_data bl (after_set_maximum g center bl marked foothills captured).
Proof.
  intros [Htidy Hlen Hcap Hfh Hdef Hcnt Hset Hlast Hclean] Hseed H.
  pose proof Htidy as [Hq _].
  assert (g_capture_index g <> UNMARKED) as Hne by (unfold UNMARKED; lia).
  apply set_maximum_inv in H as (fl & ks & _ & Hinv & Hcase); [|done|done].
  destruct Hinv as [Hpaint Hloc Hgrown Hglob Hgl Hgc].
  assert (forall k, k ∈ ks -> exists qv, cells q_data !! k = Some qv /\ bl <= qv) as Hks.
  { intros k Hk. eapply grown_value; eauto. }
  pose proof (tidy_painted _ _ _ _ _ _ Htidy Hpaint Hcap Hks) as Htidy'.
  pose proof (painted_frozen _ _ _ _ Hpaint) as Hfrozen.
  pose proof (painted_length _ _ _ _ Hpaint) as Hkslen.
  pose proof (located_length _ _ _ Hloc) as Hmsf.
  assert (length (cells (fl_marked fl)) = (nrows q_data * ncols q_data)%nat) as Hlen'.
  { destruct Hpaint as (_ & -> & _). done. }
  assert (forall c, 1 <= c < g_capture_index g -> retained self (fl_marked fl) c) as Hcnt_old.
  { intros c Hc. unfold retained.
    rewrite (painted_count_other _ _ _ _ c Hpaint) by (unfold UNMARKED; lia). by apply Hcnt. }
  assert (pixel_count (g_capture_index g) (fl_marked fl) = length (fl_marked_so_far fl)) as Hnew.
  { rewrite Hmsf. eapply painted_count_new; [done|]. intros k. by eapply tidy_fresh. }
  assert (pixel_count (g_capture_index g) (g_marked g) = 0%nat) as Hzero.
  { apply pixel_count_absent. intros k. by eapply tidy_fresh. }
  assert (forall h m, last h = Some (g_marked g) -> Forall clean h -> clean m ->
            Forall clean (h ++ [m])) as Hcl.
  { intros h m _ Hh Hm. apply Forall_app. split; [done|]. by constructor. }
  destruct Hcase as [Hbig|captured Hbig Hundo ->|Hbig Hsmall Hagain]; unfold after_set_maximum; simpl.
  - split; simpl.
    + done.
    + done.
    + lia.
    + apply Forall_app. split; [done|]. constructor; [|constructor].
      split; [done|]. split.
      * eapply Forall_impl; [apply Hgc; by apply (okc2_same_shape q_data), Hseed|].
        intros x. apply okc2_same_shape. by apply same_shape_sym.
      * simpl. lia.
    + done.
    + intros c Hc. destruct (decide (c = g_capture_index g)) as [->|Hc']; [|apply Hcnt_old; lia].
      right. right. rewrite Hnew. unfold big_enough in Hbig. lia.
    + by eapply settled_snoc.
    + by rewrite last_snoc.
    + apply Hcl; [done|done|by eapply tidy_clean].
  - destruct (again_after bl fl); simpl.
    + split; simpl.
      * done.
      * done.
      * done.
      * done.
      * apply Forall_app. split; [done|]. by constructor.
      * done.
      * eapply settled_snoc; [done|done|apply frozen_refl].
      * by rewrite last_snoc.
      * apply Hcl; [done|done|by eapply tidy_clean].
    + split; simpl.
      * eapply tidy_weaken; [| |exact Htidy]; lia.
      * done.
      * lia.
      * done.
      * done.
      * intros c Hc. destruct (decide (c = g_capture_index g)) as [->|Hc']; [|apply Hcnt; lia].
        by left.
      * eapply settled_snoc; [done|done|apply frozen_refl].
      * by rewrite last_snoc.
      * apply Hcl; [done|done|by eapply tidy_clean].
  - split; simpl.
    + done.
    + done.
    + lia.
    + done.
    + done.
    + intros c Hc. destruct (decide (c = g_capture_index g)) as [->|Hc']; [|apply Hcnt_old; lia].
      right. left. rewrite Hnew. unfold too_small in Hsmall. lia.
    + by eapply settled_snoc.
    + by rewrite last_snoc.
    + apply Hcl; [done|done|by eapply tidy_clean].
Qed.

Lemma norm_index_okc n x r : norm_index n x = Some r -> 0 <= x -> okc n x.
Proof.
  unfold norm_index, okc. intros H Hx.
  destruct (Z.leb_spec 0 x); [|lia]. destruct (Z.ltb_spec x (Z.of_nat n)); simpl in H; [lia|].
  destruct (Z.leb_spec (- Z.of_nat n) x); destruct (Z.ltb_spec x 0); simpl in H;
    try discriminate; lia.
Qed.

Lemma indexed_seed_ok q_data b p bl : indexed q_data b p -> bl <= b -> seed_ok q_data bl p.
Proof.
  intros (H0 & H1 & Hg) Hbl. split; [|eauto].
  apply getitem_Ok in Hg as (k & Hoff & _). unfold offset in Hoff.
  destruct (norm_index (nrows q_data) (fst p)) eqn:Er; [|done].
  destruct (norm_index (ncols q_data) (snd p)) eqn:Ec; [|done].
  split; eapply norm_index_okc; eauto.
Qed.

Lemma seed_ok_weaken q_data bl bl' s : bl' <= bl -> seed_ok q_data bl s -> seed_ok q_data bl' s.
Proof. intros Hbl (Hok & qv & Hg & Hqv). split; [done|]. exists qv. split; [done|lia]. Qed.

Lemma ginv_bin_lower self q_data bl g bin_lower :
  ginv self q_data bl g ->
  ginv self q_data bl (Grower (g_marked g) (g_foothills g) (g_deferred_to_next g)
                         (g_capture_index g) bin_lower (g_history g)).
Proof. intros []. by split. Qed.

Lemma grow_seeds_inv fuel self q_data bl :
  0 <= bl ->
  forall seeds g g',
    ginv self q_data bl g ->
    (if g_bin_lower g <? 0 then 0 else g_bin_lower g) = bl ->
    Forall (seed_ok q_data bl) seeds ->
    grow_seeds fuel self q_data seeds g = Ok g' ->
    ginv self q_data bl g' /\ (g' = g \/ g_bin_lower g' = bl).
Proof.
  intros Hbl. assert ((if bl <? 0 then 0 else bl) = bl) as Hclamp.
  { destruct (Z.ltb_spec bl 0); lia. }
  induction seeds as [|center seeds IH]; simpl; intros g g' Hinv Hg Hseeds H.
  - ok_inv H. auto.
  - apply Forall_cons in Hseeds as [Hc Hseeds]. rewrite Hg in H.
    bind_inv H as v Hv. destruct (v =? UNMARKED).
    + bind_inv H as [[marked foothills] captured] Hsm.
      apply IH in H as [Hinv' Hbl']; [| |by destruct captured|done].
      * split; [done|]. right. destruct Hbl' as [->|?]; [by destruct captured|done].
      * by apply (set_maximum_ginv _ _ _ _ _ _ _ _ _ Hinv Hc Hsm).
    + apply IH in H as [Hinv' Hbl']; [| |done|done].
      * split; [done|]. right. by destruct Hbl' as [->|?].
      * by apply ginv_bin_lower.
Qed.

Lemma grow_level_inv fuel self q_data centers b bl_prev g g' :
  centers_ok q_data centers -> 0 <= b -> Z.max (b - 1) 0 <= bl_prev ->
  ginv self q_data bl_prev g -> g_foothills g = [] ->
  grow_level fuel self q_data centers b g = Ok g' ->
  ginv self q_data (Z.max (b - 1) 0) g' /\ g_foothills g' = [].
Proof.
  intros Hcenters Hb Hprev Hinv Hfh H. unfold grow_level in H.
  bind_inv H as new_centers Hnew. bind_inv H as g1 Hg1. bind_inv H as marked Hrf. ok_inv H.
  set (bl := Z.max (b - 1) 0) in *.
  apply (grow_seeds_inv _ _ _ bl) in Hg1 as [Hinv1 Hbl1]; [|lia| | |].
  - split; [|done].
    assert (globbing (g_marked g1) marked) as Hglob.
    { destruct Hbl1 as [->|Ebl].
      - simpl in Hrf. rewrite Hfh in Hrf. simpl in Hrf. ok_inv Hrf. apply globbing_refl.
      - rewrite Ebl in Hrf.
        eapply remove_foothills_inv; [apply Hinv1| |exact Hrf].
        eapply Forall_impl; [apply Hinv1|]. by intros f [? _]. }
    destruct Hinv1 as [Htidy Hlen Hcap Hfh1 Hdef Hcnt Hset Hlast Hclean].
    pose proof (tidy_globbing _ _ _ _ _ Htidy Hglob) as Htidy'.
    split; simpl.
    + done.
    + destruct Hglob as (_ & -> & _). done.
    + done.
    + constructor.
    + done.
    + intros c Hc. unfold retained. rewrite (globbing_count _ _ c Hglob) by lia. by apply Hcnt.
    + eapply settled_snoc; [done|done|by apply globbing_frozen].
    + by rewrite last_snoc.
    + apply Forall_app. split; [done|]. constructor; [by eapply tidy_clean|constructor].
  - destruct Hinv as [Htidy Hlen Hcap Hfh0 Hdef Hcnt Hset Hlast Hclean]. split; simpl.
    + eapply tidy_weaken; [exact Hprev|reflexivity|done].
    + done.
    + done.
    + rewrite Hfh. constructor.
    + constructor.
    + done.
    + done.
    + done.
    + done.
  - simpl. subst bl. destruct (Z.ltb_spec (b - 1) 0); lia.
  - apply Forall_app. split.
    + eapply Forall_impl; [apply Hinv|]. intros s. by apply seed_ok_weaken.
    + apply Forall_forall. intros p Hp. apply dict_get_Ok in Hnew.
      apply (indexed_seed_ok _ b); [by eapply Hcenters|]. subst bl. lia.
Qed.

Lemma grow_levels_inv fuel self q_data centers :
  centers_ok q_data centers ->
  forall (n : nat) g g' bl_prev,
    Z.of_nat n <= bl_prev + 1 ->
    ginv self q_data bl_prev g -> g_foothills g = [] ->
    grow_levels fuel self q_data centers (rev (seqZ 0 (Z.of_nat n))) g = Ok g' ->
    exists bl, ginv self q_data bl g' /\ g_foothills g' = [].
Proof.
  intros Hcenters. induction n as [|n IH]; intros g g' bl_prev Hn Hinv Hfh H.
  - simpl in H. ok_inv H. eauto.
  - rewrite seqZ_S, rev_unit in H. simpl in H. bind_inv H as g1 Hg1.
    apply (grow_level_inv _ _ _ _ _ bl_prev) in Hg1 as [Hinv1 Hfh1]; [|done|lia|lia|done|done].
    eapply IH; [|exact Hinv1|done|exact H]. lia.
Qed.

Lemma ginv_start self q_data bl : ginv self q_data bl (grow_start q_data).
Proof.
  split; simpl.
  - split; [by split|]. simpl. intros k v [-> _]%lookup_replicate. by left.
  - apply length_replicate.
  - done.
  - constructor.
  - constructor.
  - intros c Hc. lia.
  - intros i j mi mj Hij Hi Hj.
    apply list_lookup_singleton_Some in Hi as [-> <-].
    apply list_lookup_singleton_Some in Hj as [-> <-]. apply frozen_refl.
  - done.
  - constructor; [|constructor]. apply Forall_forall. intros v Hv.
    apply elem_of_replicate in Hv as [-> _]. done.
Qed.

(** What holds of the grower when [grow_centers] is run on the outputs of
    the quantizer and of the local-maxima finder. *)
Lemma grow_run_inv fuel self q_data centers g :
  centers_ok q_data centers -> keys centers = seqZ 0 (max_bin self + 1) ->
  grow_run fuel self centers q_data = Ok g ->
  exists bl, ginv self q_data bl g.
Proof.
  intros Hcenters Hkeys H. unfold grow_run in H. rewrite Hkeys in H.
  destruct (Z.le_gt_cases (max_bin self + 1) 0) as [Hneg|Hpos].
  - rewrite seqZ_nil in H by done. simpl in H. ok_inv H. exists 0. apply ginv_start.
  - rewrite <- (Z2Nat.id (max_bin self + 1)) in H by lia.
    eapply (grow_levels_inv _ _ _ _ Hcenters _ _ _ (max_bin self)) in H as (bl & Hinv & _); eauto.
    + lia.
    + apply ginv_start.
Qed.

(** ** From the grid to the grower *)

Lemma pipeline_inv self input_grid pixels q_data centers :
  quantize self input_grid = Ok (pixels, q_data) ->
  find_local_maxima self pixels q_data = Ok centers ->
  same_shape input_grid q_data /\
  keys centers = seqZ 0 (max_bin self + 1) /\
  centers_ok q_data centers.
Proof.
  intros (Hs & Hk & Hpix)%quantize_inv Hf. split; [done|].
  apply (find_local_maxima_inv (indexed q_data)) in Hf as [Hk' Hall].
  - split; [congruence|done].
  - intros MIN b infl ps p _ _ Hget Hp _. apply dict_get_Ok in Hget. by eapply Hpix.
Qed.

Lemma label_inv fuel self input_grid only_objects out :
  label fuel self input_grid only_objects = Ok out ->
  exists pixels q_data centers g,
    quantize self input_grid = Ok (pixels, q_data) /\
    find_local_maxima self pixels q_data = Ok centers /\
    grow_run fuel self centers q_data = Ok g /\
    out = (if only_objects then only_positive (g_marked g) else g_marked g).
Proof.
  unfold label, grow_centers. intros H. bind_inv H as [pixels q_data] Hq.
  bind_inv H as centers Hc. bind_inv H as marked Hm. bind_inv Hm as g Hg. ok_inv Hm. ok_inv H.
  exists pixels, q_data, centers, g. done.
Qed.

Lemma label_ginv fuel self input_grid pixels q_data centers g :
  quantize self input_grid = Ok (pixels, q_data) ->
  find_local_maxima self pixels q_data = Ok centers ->
  grow_run fuel self centers q_data = Ok g ->
  exists bl, ginv self q_data bl g.
Proof.
  intros Hq Hc Hg. destruct (pipeline_inv _ _ _ _ _ Hq Hc) as (_ & Hk & Hok).
  by eapply grow_run_inv.
Qed.



(** C6. In a run of [label], a cell that holds [GLOBBED] or a positive
    capture index in the label grid left by one call of [set_maximum] or
    [remove_foothills] holds the same value in the grid left by every
    later call; in particular [remove_foothills] never overwrites a
    capture index. *)
Theorem committed_cells_are_final fuel self input_grid pixels q_data centers g
    (i j : nat) (mi mj : ndarray Z) (k : nat) (v : Z) :
  quantize self input_grid = Ok (pixels, q_data) ->
  find_local_maxima self pixels q_data = Ok centers ->
  grow_run fuel self centers q_data = Ok g ->
  (i <= j)%nat ->
  g_history g !! i = Some mi ->
  g_history g !! j = Some mj ->
  cells mi !! k = Some v ->
  v = GLOBBED \/ 0 < v ->
  cells mj !! k = Some v.
Proof.
  intros Hq Hc Hg Hij Hi Hj Hk Hv.
  destruct (label_ginv _ _ _ _ _ _ _ Hq Hc Hg) as (bl & Hinv).
  destruct (gi_settled _ _ _ _ Hinv i j mi mj Hij Hi Hj) as [_ Hfr]. by eapply Hfr.
Qed.

Lemma pixel_count_only_positive c m :
  0 < c -> pixel_count c (only_positive m) = pixel_count c m.
Proof.
  intros Hc. apply pixel_count_ext. intros k. unfold only_positive. simpl.
  rewrite list_lookup_fmap. destruct (cells m !! k) as [v|]; simpl; [|done].
  destruct (Z.ltb_spec 0 v); split; intros E; ok_inv E; try done; lia.
Qed.

Lemma init_Ok min_t max_t area dist incr self :
  init min_t max_t area dist incr = Ok self ->
  min_size self = 6 /\ max_size self = area /\ min_thresh self = min_t /\
  max_thresh self = max_t /\ data_increment self = incr /\ incr <> 0 /\
  max_bin self = Z.quot (max_t - min_t) incr.
Proof.
  unfold init. destruct (Z.eqb_spec incr 0); [discriminate|]. intros H; ok_inv H. done.
Qed.

(** C2, as the code has it.  An object on the grid returned by [label]
    covers more than 6 pixels or at least [area_threshold] pixels (the
    maximum-size test comes first, so it also keeps a region of 6 pixels
    or fewer when [area_threshold] is that small); and a region that
    [set_maximum] captures by the maximum-size rule covers at least
    [area_threshold] pixels, all the pixels the flood reached. *)
Theorem retained_object_sizes min_t max_t area dist incr self :
  init min_t max_t area dist incr = Ok self ->
  (forall fuel input_grid only_objects out c,
     label fuel self input_grid only_objects = Ok out ->
     0 < c -> (0 < pixel_count c out)%nat ->
     6 < Z.of_nat (pixel_count c out) \/ area <= Z.of_nat (pixel_count c out)) /\
  (forall fuel q_data marked center bin_lower foothills capture_index fl marked' foothills' captured,
     capture_index <> UNMARKED -> same_shape q_data marked ->
     (forall k, cells marked !! k <> Some capture_index) ->
     grow_region fuel q_data marked center bin_lower capture_index = Ok fl ->
     big_enough self fl = true ->
     set_maximum fuel self q_data marked center bin_lower foothills capture_index
       = Ok (marked', foothills', captured) ->
     pixel_count capture_index marked' = length (fl_marked_so_far fl) /\
     area <= Z.of_nat (pixel_count capture_index marked')).
Proof.
  intros (Hmin & Hmax & _)%init_Ok. split.
  - intros fuel input_grid only_objects out c Hl Hc Hpos.
    apply label_inv in Hl as (pixels & q_data & centers & g & Hq & Hf & Hg & ->).
    destruct (label_ginv _ _ _ _ _ _ _ Hq Hf Hg) as (bl & Hinv).
    assert (pixel_count c (if only_objects then only_positive (g_marked g) else g_marked g)
            = pixel_count c (g_marked g)) as E.
    { destruct only_objects; [by apply pixel_count_only_positive|done]. }
    rewrite E in *.
    assert (1 <= c < g_capture_index g) as Hrange.
    { unfold pixel_count in Hpos.
      destruct (positions c (cells (g_marked g))) as [|k ks] eqn:Ek; [simpl in Hpos; lia|].
      assert (k ∈ positions c (cells (g_marked g))) as Hk by (rewrite Ek; left).
      apply elem_of_positions in Hk. destruct (gi_tidy _ _ _ _ Hinv) as [_ Hv].
      destruct (Hv _ _ Hk) as [E'|[E'|[? _]]]; [| |done];
        unfold UNMARKED, GLOBBED in E'; lia. }
    destruct (gi_counts _ _ _ _ Hinv c Hrange) as [H0|[H1|H2]]; [lia|left; lia|right; lia].
  - intros fuel q_data marked center bin_lower foothills capture_index fl marked' foothills'
      captured Hcap Hs Hfresh Hfl Hbig H.
    apply set_maximum_inv in H as (fl' & ks & Hfl' & Hinv & Hcase); [|done|done].
    assert (fl' = fl) as -> by congruence.
    destruct Hcase as [_|captured Hbig' _ _|Hbig' _ _]; [|congruence|congruence].
    destruct Hinv as [Hpaint Hloc _ _ _ _].
    rewrite (painted_count_new _ _ _ _ Hpaint Hfresh), <- (located_length _ _ _ Hloc).
    split; [done|]. unfold big_enough in Hbig. lia.
Qed.

(** C3, as the code has it.  With [only_objects], the grid returned by
    [label] holds only 0 and positive labels, and every positive label is
    below the capture index reached at the end of the run, that is, at
    most the number of calls of [set_maximum] that returned true.  The
    index of a region that was rejected as too small labels no cell, so
    the labels present need not be contiguous. *)
Theorem labels_within_capture_range fuel self input_grid pixels q_data centers g out :
  quantize self input_grid = Ok (pixels, q_data) ->
  find_local_maxima self pixels q_data = Ok centers ->
  grow_run fuel self centers q_data = Ok g ->
  label fuel self input_grid true = Ok out ->
  Forall (fun v => v = 0 \/ 1 <= v < g_capture_index g) (cells out).
Proof.
  intros Hq Hc Hg Hl. destruct (label_ginv _ _ _ _ _ _ _ Hq Hc Hg) as (bl & Hinv).
  apply label_inv in Hl as (pixels' & q' & centers' & g' & Hq' & Hc' & Hg' & ->).
  assert (g' = g) as -> by congruence.
  unfold only_positive. simpl. apply Forall_forall. intros v Hv.
  apply list_elem_of_fmap in Hv as (x & -> & Hx).
  apply list_elem_of_lookup in Hx as [k Hk].
  destruct (gi_tidy _ _ _ _ Hinv) as [_ Hval].
  destruct (Z.ltb_spec 0 x); [|by left]. right.
  destruct (Hval _ _ Hk) as [E|[E|[? _]]]; [| |done]; unfold UNMARKED, GLOBBED in E; lia.
Qed.

(** ** Termination *)

Lemma fill_pixels_terminates data good pixels : fill_pixels data good pixels <> OutOfFuel.
Proof.
  revert pixels. induction good as [|g good IH]; simpl; intros pixels; [done|].
  apply bind_terminates; [apply getitem_terminates|]. intros b _.
  apply bind_terminates; [apply dict_append_terminates|auto].
Qed.

Lemma quantize_terminates self input_grid : quantize self input_grid <> OutOfFuel.
Proof.
  unfold quantize, quantize_int. apply bind_terminates; [apply fill_pixels_terminates|done].
Qed.

Lemma claim_square_terminates marked p infl b win ok msf :
  claim_square marked p infl b win ok msf <> OutOfFuel.
Proof.
  revert marked ok msf. induction win as [|[[i j] k] win IH]; simpl; intros marked ok msf; [done|].
  apply bind_terminates; [apply view_read_terminates|]. intros v _.
  destruct (v =? UNMARKED); [|done].
  apply bind_terminates; [apply setitem_terminates|auto].
Qed.

Lemma try_center_terminates marked centers b infl p :
  try_center marked centers b infl p <> OutOfFuel.
Proof.
  unfold try_center. apply bind_terminates; [apply getitem_terminates|]. intros v _.
  destruct (v =? UNMARKED); [|done].
  apply bind_terminates; [apply claim_square_terminates|]. intros [[m ok] msf] _.
  destruct ok.
  - apply bind_terminates; [apply dict_append_terminates|done].
  - apply bind_terminates; [apply unmark_all_terminates|done].
Qed.

Lemma scan_bin_terminates marked centers b infl ps : scan_bin marked centers b infl ps <> OutOfFuel.
Proof.
  revert marked centers. induction ps as [|p ps IH]; simpl; intros marked centers; [done|].
  apply bind_terminates; [apply try_center_terminates|]. by intros [m c] _.
Qed.

Lemma find_local_maxima_terminates self pixels q_data :
  find_local_maxima self pixels q_data <> OutOfFuel.
Proof.
  unfold find_local_maxima. apply bind_terminates.
  { unfold MIN_INFL. destruct (dist_btw_objects self <? 0); [done|]. by destruct (_ =? _). }
  intros MIN _. generalize (full (nrows q_data) (ncols q_data) UNMARKED) as marked.
  generalize (map (fun k : Z => (k, @nil pixel)) (keys pixels)) as centers.
  induction (sorted_reverse (keys pixels)) as [|b bins IH]; simpl; intros centers marked; [done|].
  apply bind_terminates; [unfold infl_dist; by destruct (max_bin self =? 0)|]. intros infl _.
  apply bind_terminates; [apply dict_get_terminates|]. intros ps _.
  apply bind_terminates; [apply scan_bin_terminates|]. by intros [m c] _.
Qed.

Lemma set_maximum_terminates fuel self q_data marked center bl fh cap :
  cap <> UNMARKED -> same_shape q_data marked ->
  (9 * length (cells marked) + 1 <= fuel)%nat ->
  set_maximum fuel self q_data marked center bl fh cap <> OutOfFuel.
Proof.
  intros Hcap Hq Hfuel. unfold set_maximum. apply bind_terminates.
  - unfold grow_region. apply bind_terminates; [apply getitem_terminates|]. intros cd _.
    eapply flood_terminates; [done|done|apply flood_inv_start| |simpl; lia].
    split; [constructor; [by left|constructor]|]. intros Hc. by constructor.
  - intros fl _. apply bind_terminates; [|by intros [m f] _].
    destruct (big_enough self fl); [done|].
    destruct (too_small self fl); [apply bind_terminates; [apply unmark_all_terminates|done]|].
    destruct (again_after bl fl); [|done].
    apply bind_terminates; [apply unmark_all_terminates|done].
Qed.

Lemma remove_foothills_terminates fuel q_data cap bn bl centers :
  forall foothills m,
    tidy q_data bl cap m -> Forall (foothill_ok q_data bl) foothills ->
    length (cells m) = (nrows q_data * ncols q_data)%nat ->
    (27 * (nrows q_data * ncols q_data) <= fuel)%nat ->
    remove_foothills fuel q_data m bn bl centers foothills <> OutOfFuel.
Proof.
  induction foothills as [|[center globs] fh IH]; simpl; intros m Ht Hfh Hlen Hfuel; [done|].
  apply Forall_cons in Hfh as [(Hfoot & Hok & Hgl) Hfh]. simpl in *.
  apply bind_terminates.
  - apply (remove_hills_terminates _ _ _ _ _ _ _ _ []); [apply Ht| |constructor| |].
    + eapply Forall_impl; [exact Hok|]. intros x. apply okc2_same_shape, Ht.
    + intros k Hk. by apply elem_of_nil in Hk.
    + pose proof (top_live_range m globs). simpl. lia.
  - intros m1 Hm1. apply (remove_hills_inv _ cap) in Hm1; [|done|done].
    apply IH; [by eapply tidy_globbing|done| |done].
    destruct Hm1 as (_ & -> & _). done.
Qed.

Lemma grow_seeds_terminates fuel self q_data bl :
  0 <= bl -> (enough_fuel q_data <= fuel)%nat ->
  forall seeds g,
    ginv self q_data bl g ->
    (if g_bin_lower g <? 0 then 0 else g_bin_lower g) = bl ->
    Forall (seed_ok q_data bl) seeds ->
    grow_seeds fuel self q_data seeds g <> OutOfFuel.
Proof.
  intros Hbl Hfuel. assert ((if bl <? 0 then 0 else bl) = bl) as Hclamp.
  { destruct (Z.ltb_spec bl 0); lia. }
  unfold enough_fuel in Hfuel.
  induction seeds as [|center seeds IH]; simpl; intros g Hinv Hg Hseeds; [done|].
  apply Forall_cons in Hseeds as [Hc Hseeds]. rewrite Hg.
  apply bind_terminates; [apply getitem_terminates|]. intros v _.
  destruct (v =? UNMARKED).
  - apply bind_terminates.
    + apply set_maximum_terminates.
      * pose proof (gi_cap _ _ _ _ Hinv). unfold UNMARKED. lia.
      * apply Hinv.
      * rewrite (gi_length _ _ _ _ Hinv). lia.
    + intros [[marked foothills] captured] Hsm.
      apply IH; [|by destruct captured|done].
      by apply (set_maximum_ginv _ _ _ _ _ _ _ _ _ Hinv Hc Hsm).
  - apply IH; [by apply ginv_bin_lower|done|done].
Qed.

Lemma grow_level_terminates fuel self q_data centers b bl_prev g :
  (enough_fuel q_data <= fuel)%nat ->
  centers_ok q_data centers -> 0 <= b -> Z.max (b - 1) 0 <= bl_prev ->
  ginv self q_data bl_prev g -> g_foothills g = [] ->
  grow_level fuel self q_data centers b g <> OutOfFuel.
Proof.
  intros Hfuel Hcenters Hb Hprev Hinv Hfh. unfold grow_level.
  apply bind_terminates; [apply dict_get_terminates|]. intros new_centers Hnew.
  set (bl := Z.max (b - 1) 0) in *.
  set (g0 := Grower (g_marked g) (g_foothills g) [] (g_capture_index g) (b - 1) (g_history g)).
  assert (ginv self q_data bl g0) as Hinv0.
  { destruct Hinv as [Htidy Hlen Hcap Hfh0 Hdef Hcnt Hset Hlast Hclean]. split; simpl; try done.
    - eapply tidy_weaken; [exact Hprev|reflexivity|done].
    - rewrite Hfh. constructor. }
  assert ((if g_bin_lower g0 <? 0 then 0 else g_bin_lower g0) = bl) as Hbl0.
  { simpl. subst bl. destruct (Z.ltb_spec (b - 1) 0); lia. }
  assert (Forall (seed_ok q_data bl) (g_deferred_to_next g ++ new_centers)) as Hseeds.
  { apply Forall_app. split.
    - eapply Forall_impl; [apply Hinv|]. intros s. by apply seed_ok_weaken.
    - apply Forall_forall. intros p Hp. apply dict_get_Ok in Hnew.
      apply (indexed_seed_ok _ b); [by eapply Hcenters|]. subst bl. lia. }
  apply bind_terminates.
  - apply (grow_seeds_terminates _ _ _ bl); [lia|done|done|done|done].
  - intros g1 Hg1. apply bind_terminates; [|done].
    apply (grow_seeds_inv _ _ _ bl) in Hg1 as [Hinv1 Hbl1]; [|lia|done|done|done].
    destruct Hbl1 as [->|Ebl].
    + simpl. rewrite Hfh. done.
    + rewrite Ebl. eapply remove_foothills_terminates; [apply Hinv1|apply Hinv1|apply Hinv1|].
      unfold enough_fuel in Hfuel. lia.
Qed.

Lemma grow_levels_terminates fuel self q_data centers :
  (enough_fuel q_data <= fuel)%nat -> centers_ok q_data centers ->
  forall (n : nat) g bl_prev,
    Z.of_nat n <= bl_prev + 1 ->
    ginv self q_data bl_prev g -> g_foothills g = [] ->
    grow_levels fuel self q_data centers (rev (seqZ 0 (Z.of_nat n))) g <> OutOfFuel.
Proof.
  intros Hfuel Hcenters. induction n as [|n IH]; intros g bl_prev Hn Hinv Hfh; [done|].
  rewrite seqZ_S, rev_unit. simpl. apply bind_terminates.
  - apply (grow_level_terminates _ _ _ _ _ bl_prev); try done; lia.
  - intros g1 Hg1.
    apply (grow_level_inv _ _ _ _ _ bl_prev) in Hg1 as [Hinv1 Hfh1]; [|done|lia|lia|done|done].
    eapply IH; [|exact Hinv1|done]. lia.
Qed.

Lemma grow_run_terminates fuel self q_data centers :
  (enough_fuel q_data <= fuel)%nat ->
  centers_ok q_data centers -> keys centers = seqZ 0 (max_bin self + 1) ->
  grow_run fuel self centers q_data <> OutOfFuel.
Proof.
  intros Hfuel Hcenters Hkeys. unfold grow_run. rewrite Hkeys.
  destruct (Z.le_gt_cases (max_bin self + 1) 0) as [Hneg|Hpos].
  - by rewrite seqZ_nil.
  - rewrite <- (Z2Nat.id (max_bin self + 1)) by lia.
    apply (grow_levels_terminates _ _ _ _ Hfuel Hcenters _ _ (max_bin self)); [lia| |done].
    apply ginv_start.
Qed.

Lemma label_within_fuel fuel self input_grid only_objects :
  (enough_fuel input_grid <= fuel)%nat ->
  label fuel self input_grid only_objects <> OutOfFuel.
Proof.
  intros Hfuel. unfold label. apply bind_terminates; [apply quantize_terminates|].
  intros [pixels q_data] Hq. apply bind_terminates; [apply find_local_maxima_terminates|].
  intros centers Hc. destruct (pipeline_inv _ _ _ _ _ Hq Hc) as ([Hr Hcol] & Hk & Hok).
  apply bind_terminates; [|done]. unfold grow_centers. apply bind_terminates; [|done].
  apply grow_run_terminates; [|done|done]. unfold enough_fuel in *. by rewrite <- Hr, <- Hcol.
Qed.

Lemma set_maximum_lowest fuel self q_data marked center foothills cap marked' foothills' captured :
  set_maximum fuel self q_data marked center 0 foothills cap = Ok (marked', foothills', captured) ->
  captured = true.
Proof.
  unfold set_maximum. intros H. bind_inv H as fl Hfl. bind_inv H as [m f] Hbr. ok_inv H.
  unfold again_after. simpl. apply orb_true_r.
Qed.

Lemma grow_seeds_lowest fuel self q_data :
  forall seeds g g',
    (if g_bin_lower g <? 0 then 0 else g_bin_lower g) = 0 ->
    grow_seeds fuel self q_data seeds g = Ok g' ->
    g_deferred_to_next g' = g_deferred_to_next g.
Proof.
  induction seeds as [|center seeds IH]; simpl; intros g g' Hbl H; [by ok_inv H|].
  rewrite Hbl in H. bind_inv H as v Hv. destruct (v =? UNMARKED).
  - bind_inv H as [[marked foothills] captured] Hsm.
    apply set_maximum_lowest in Hsm as ->. simpl in H. by apply IH in H.
  - by apply IH in H.
Qed.

(** C8. [label] terminates: with the fuel [enough_fuel], which only
    depends on the size of the grid, it never runs out of fuel, so it
    returns a grid or raises.  The same fuel empties the work list of
    every call of [set_maximum] on a label grid of that size, and no seed
    is deferred by the rounds for the bins 1 and 0, where the floor is
    already 0: nothing is postponed past the lowest bin. *)
Theorem label_terminates fuel self input_grid only_objects :
  (enough_fuel input_grid <= fuel)%nat ->
  label fuel self input_grid only_objects <> OutOfFuel /\
  (forall q_data marked center bin_lower foothills capture_index,
     capture_index <> UNMARKED -> same_shape q_data marked ->
     length (cells marked) = (nrows input_grid * ncols input_grid)%nat ->
     set_maximum fuel self q_data marked center bin_lower foothills capture_index
       <> OutOfFuel) /\
  (forall q_data centers b g g',
     b <= 1 ->
     grow_level fuel self q_data centers b g = Ok g' ->
     g_deferred_to_next g' = []).
Proof.
  intros Hfuel. split; [by apply label_within_fuel|]. split.
  - intros q_data marked center bin_lower foothills capture_index Hcap Hs Hlen.
    apply set_maximum_terminates; [done|done|]. unfold enough_fuel in Hfuel. lia.
  - intros q_data centers b g g' Hb H. unfold grow_level in H.
    bind_inv H as new_centers Hnew. bind_inv H as g1 Hg1. bind_inv H as marked Hrf. ok_inv H.
    simpl. apply grow_seeds_lowest in Hg1; [done|]. simpl.
    destruct (Z.ltb_spec (b - 1) 0); lia.
Qed.

(** ** A grid below the threshold *)

Lemma wrap32_small x : - 2 ^ 31 <= x < 2 ^ 31 -> wrap32 x = x.
Proof. intros Hx. unfold wrap32. rewrite Z.mod_small; lia. Qed.

Lemma quantize_cell_below self v :
  0 < data_increment self -> below_threshold self v ->
  quantize_cell self (to_int32 v) < 0.
Proof.
  intros Hs (_ & Hlo & Hbelow). unfold quantize_cell.
  set (x := to_int32 v) in *. set (s := data_increment self) in *.
  assert (x - min_thresh self <= 0) as Hle by lia.
  rewrite (wrap32_small (x - min_thresh self)) by lia.
  assert ((x - min_thresh self) / s <= 0) as Hq0.
  { apply Z.div_le_upper_bound; lia. }
  assert (x - min_thresh self <= (x - min_thresh self) / s) as Hq1.
  { pose proof (Z.mul_div_le (x - min_thresh self) s Hs).
    pose proof (Z.mod_pos_bound (x - min_thresh self) s Hs).
    pose proof (Z.div_mod (x - min_thresh self) s). nia. }
  rewrite wrap32_small by lia.
  assert (x < min_thresh self -> (x - min_thresh self) / s < 0) as Hneg.
  { intros Hlt. apply Z.div_lt_upper_bound; lia. }
  destruct (Z.eqb_spec (min_thresh self) 0) as [E0|E0].
  - destruct (Z.leb_spec ((x - min_thresh self) / s) 0); [|lia].
    destruct (Z.ltb_spec (max_bin self) (-1)); lia.
  - destruct (Z.ltb_spec ((x - min_thresh self) / s) 0); [|lia].
    destruct (Z.ltb_spec (max_bin self) (-1)); lia.
Qed.

Lemma where_nonneg_none data :
  Forall (fun v => v < 0) (cells data) -> where_nonneg data = [].
Proof.
  intros Hneg. unfold where_nonneg.
  destruct (omap _ _) as [|p l] eqn:E; [done|].
  assert (p ∈ where_nonneg data) as Hp by (unfold where_nonneg; rewrite E; left).
  apply where_nonneg_elem in Hp as (k & v & Hk & Hv & _).
  rewrite Forall_lookup in Hneg. specialize (Hneg _ _ Hk). simpl in Hneg. lia.
Qed.

Lemma quantize_below self input_grid :
  0 < data_increment self -> Forall (below_threshold self) (cells input_grid) ->
  exists q_data, quantize self input_grid = Ok (empty_bins self, q_data) /\
                 same_shape input_grid q_data.
Proof.
  intros Hs Hbelow. unfold quantize, quantize_int. eexists.
  rewrite where_nonneg_none; [simpl; split; [reflexivity|by split]|].
  simpl. rewrite map_map. apply Forall_fmap. eapply Forall_impl; [exact Hbelow|].
  intros v Hv. by apply quantize_cell_below.
Qed.

Lemma elem_of_insert_desc x y l : x ∈ insert_desc y l -> x = y \/ x ∈ l.
Proof.
  induction l as [|z l IH]; simpl.
  - intros ?%list_elem_of_singleton. by left.
  - destruct (z <? y).
    + intros [->|H]%elem_of_cons; auto.
    + intros [->|H]%elem_of_cons; [right; left|]. destruct (IH H); [by left|right; by right].
Qed.

Lemma elem_of_sorted_reverse x l : x ∈ sorted_reverse l -> x ∈ l.
Proof.
  unfold sorted_reverse. induction l as [|y l IH]; simpl; [done|].
  intros [->|H]%elem_of_insert_desc; [left|right; auto].
Qed.

Lemma dict_get_empty_bin (ks : list Z) b :
  b ∈ ks -> dict_get (map (fun i => (i, [])) ks) b = Ok [].
Proof.
  induction ks as [|k ks IH]; simpl; [by intros ?%elem_of_nil|].
  destruct (Z.eqb_spec k b); [done|]. intros [->|H]%elem_of_cons; [done|auto].
Qed.

Lemma keys_empty_bins (ks : list Z) : keys (map (fun i => (i, @nil pixel)) ks) = ks.
Proof. unfold keys. rewrite map_map. simpl. apply map_id. Qed.

Lemma find_local_maxima_no_pixels self q_data :
  0 <= dist_btw_objects self -> max_bin self <> 0 ->
  find_local_maxima self (empty_bins self) q_data = Ok (empty_bins self).
Proof.
  intros Hd Hmb. unfold find_local_maxima, empty_bins. rewrite keys_empty_bins.
  unfold MIN_INFL. destruct (Z.ltb_spec (dist_btw_objects self) 0); [lia|].
  set (ks := seqZ 0 (max_bin self + 1)).
  assert (forall MIN marked bins, (forall b, b ∈ bins -> b ∈ ks) ->
            scan_bins self (map (fun i => (i, [])) ks) MIN (2 * MIN) marked
              (map (fun i => (i, [])) ks) bins = Ok (map (fun i => (i, [])) ks)) as Hscan.
  { intros MIN marked bins. induction bins as [|b bins IH]; simpl; intros Hsub; [done|].
    unfold infl_dist. destruct (Z.eqb_spec (max_bin self) 0); [done|]. simpl.
    rewrite dict_get_empty_bin by (apply Hsub; left). simpl. apply IH.
    intros b' Hb'. apply Hsub. by right. }
  destruct (_ =? _); simpl; apply Hscan; intros b; apply elem_of_sorted_reverse.
Qed.

Lemma grow_levels_no_centers fuel self q_data (ks : list Z) :
  forall bins g,
    (forall b, b ∈ bins -> b ∈ ks) ->
    g_deferred_to_next g = [] -> g_foothills g = [] ->
    exists g', grow_levels fuel self q_data (map (fun i => (i, [])) ks) bins g = Ok g' /\
               g_marked g' = g_marked g.
Proof.
  induction bins as [|b bins IH]; simpl; intros g Hsub Hd Hf; [eauto|].
  unfold grow_level. rewrite dict_get_empty_bin by (apply Hsub; left). simpl.
  rewrite Hd, Hf. simpl.
  match goal with |- context [grow_levels _ _ _ _ _ ?g1] =>
    destruct (IH g1) as (g' & Hg' & Hm); [|done|done|] end.
  - intros b' Hb'. apply Hsub. by right.
  - exists g'. split; [done|]. by rewrite Hm.
Qed.

(** C7, as the code has it.  With a configuration in the 32-bit range, a
    positive step, a non-negative [dist_btw_objects] and [max_bin] other
    than 0 (the influence radius divides by it), a grid whose cells,
    converted to 32-bit integers, all lie strictly below [min_thresh], or
    at or below it when [min_thresh] is 0, is labelled with zeros only.  A
    cell equal to a non-zero [min_thresh] falls in bin 0 and can seed an
    object. *)
Theorem flat_grid_below_threshold fuel self input_grid :
  config_fits self ->
  0 < data_increment self ->
  0 <= dist_btw_objects self ->
  max_bin self <> 0 ->
  Forall (below_threshold self) (cells input_grid) ->
  label fuel self input_grid true = Ok (full (nrows input_grid) (ncols input_grid) 0).
Proof.
  intros _ Hs Hd Hmb Hbelow.
  destruct (quantize_below _ _ Hs Hbelow) as (q_data & Hq & [Hr Hc]).
  unfold label. rewrite Hq. simpl. rewrite find_local_maxima_no_pixels by done. simpl.
  unfold grow_centers, grow_run.
  destruct (grow_levels_no_centers fuel self q_data (seqZ 0 (max_bin self + 1))
              (rev (keys (empty_bins self))) (grow_start q_data)) as (g & Hg & Hm); [|done|done|].
  - intros b Hb. apply list_elem_of_In in Hb. apply in_rev in Hb.
    apply list_elem_of_In in Hb. unfold empty_bins in Hb.
    by rewrite keys_empty_bins in Hb.
  - unfold empty_bins in *. rewrite Hg. simpl. rewrite Hm. simpl.
    unfold only_positive, full. simpl. rewrite Hr, Hc. f_equal. f_equal.
    by rewrite fmap_replicate.
Qed.

(** ** The quantizer against its description *)







(** * Concrete runs *)

(** C1, as stated, fails: the seed is unmarked and its region, one pixel,
    is not above [min_size], yet [set_maximum] returns false, because the
    region is still eligible for reconsideration. *)
Lemma small_eligible_region_is_deferred :
  getitem unmarked_3x3 (1, 1) = Ok UNMARKED /\
  grow_region 10 q_lone_peak unmarked_3x3 (1, 1) 1 1 = Ok lone_peak_flood /\
  set_maximum 10 ew_0_10 q_lone_peak unmarked_3x3 (1, 1) 1 [] 1
    = Ok (unmarked_3x3, [], false) /\
  ~ (false = true <->
     big_enough ew_0_10 lone_peak_flood = true \/
     too_small ew_0_10 lone_peak_flood = true \/
     again_after 1 lone_peak_flood = false).
Proof.
  split; [reflexivity|]. split; [reflexivity|]. split; [reflexivity|].
  intros [_ H]. discriminate H. right. left. reflexivity.
Qed.

(** C2, as stated, fails twice.  With [area_threshold = 7] the plateau of
    9 pixels is captured by the maximum-size rule and keeps its 9 pixels,
    more than [area_threshold]; with [area_threshold = 1] a lone pixel is
    retained as an object of 1 pixel, not more than 6. *)
Lemma capped_object_sizes_differ :
  (init 0 10 7 0 1 = Ok ew_area7 /\
   label 244 ew_area7 (plateau_3x3 3) true = Ok (full 3 3 1) /\
   (exists fl, grow_region 244 (full 3 3 3) unmarked_3x3 (1, 1) 2 1 = Ok fl /\
               big_enough ew_area7 fl = true) /\
   pixel_count 1 (full 3 3 1) = 9%nat /\ ~ (9 <= max_size ew_area7)) /\
  (init 0 10 1 0 1 = Ok ew_area1 /\
   label 244 ew_area1 lone_pixel_grid true
     = Ok (array_of_rows [[0; 0; 0]; [0; 1; 0]; [0; 0; 0]]) /\
   pixel_count 1 (array_of_rows [[0; 0; 0]; [0; 1; 0]; [0; 0; 0]]) = 1%nat /\
   ~ (6 < 1)).
Proof.
  split.
  - split; [reflexivity|]. split; [vm_compute; reflexivity|].
    split; [eexists; split; reflexivity|]. split; [reflexivity|]. simpl. lia.
  - split; [reflexivity|]. split; [vm_compute; reflexivity|].
    split; [vm_compute; reflexivity|lia].
Qed.

(** C3, as stated, fails: the lone pixel uses up capture index 1 and is
    rejected as too small, the plateau is labelled 2, and the labels on
    the returned grid are not 1..K. *)
Lemma labels_can_skip_an_index :
  label 568 ew_0_10 peak_and_plateau true
    = Ok (array_of_rows [[0; 0; 0; 0; 2; 2; 2];
                         [0; 0; 0; 0; 2; 2; 2];
                         [0; 0; 0; 0; 2; 2; 2]]) /\
  In 2 (cells (array_of_rows [[0; 0; 0; 0; 2; 2; 2];
                              [0; 0; 0; 0; 2; 2; 2];
                              [0; 0; 0; 0; 2; 2; 2]])) /\
  ~ In 1 (cells (array_of_rows [[0; 0; 0; 0; 2; 2; 2];
                                [0; 0; 0; 0; 2; 2; 2];
                                [0; 0; 0; 0; 2; 2; 2]])).
Proof.
  split; [vm_compute; reflexivity|]. split; [simpl; tauto|]. simpl. lia.
Qed.


(** C7, as stated, fails: every cell equals [min_thresh = 5], so the grid
    is at or below [min_thresh], and [label] returns a grid of ones. *)
Lemma flat_grid_at_min_thresh_is_labelled :
  Forall (fun v => (v <= inject_Z (min_thresh ew_5_15))%Q) (cells (plateau_3x3 5)) /\
  label 244 ew_5_15 (plateau_3x3 5) true = Ok (full 3 3 1) /\
  full 3 3 1 <> full 3 3 0.
Proof.
  split; [|split; [vm_compute; reflexivity|discriminate]].
  repeat constructor; discriminate.
Qed.

(** On an axis of three cells or more, the window of a pixel of row 0 or
    of column 0 is empty. *)
Lemma window3_low_edge marked p :
  (fst p = 0 /\ (3 <= nrows marked)%nat) \/ (snd p = 0 /\ (3 <= ncols marked)%nat) ->
  window3 marked p = [].
Proof.
  unfold window3. intros [[-> Hn]|[-> Hn]];
    [apply ndenumerate_no_rows|apply ndenumerate_no_cols];
    unfold slice_len, slice_adjust; simpl; lia.
Qed.

(** C5.  The window sliced around a pixel of the top row of a grid with
    three rows is empty, because the negative start of the slice is
    counted from the end of the axis: none of the five in-bounds
    neighbours of [(0, 1)] is examined.  So a flood started there stops
    after one pixel where a flood started at [(1, 1)] covers the grid, and
    the influence square of a pixel of the top row is empty as well. *)
Theorem top_row_window_is_empty :
  window3 unmarked_3x3 (0, 1) = [] /\
  length (window3 unmarked_3x3 (1, 1)) = 9%nat /\
  (exists fl, grow_region 100 (full 3 3 1) unmarked_3x3 (0, 1) 0 1 = Ok fl /\
              fl_marked_so_far fl = [(0, 1)]) /\
  (exists fl, grow_region 100 (full 3 3 1) unmarked_3x3 (1, 1) 0 1 = Ok fl /\
              length (fl_marked_so_far fl) = 9%nat) /\
  influence_square (full 5 5 UNMARKED) (0, 2) 1 = [].
Proof.
  split; [reflexivity|]. split; [reflexivity|].
  split; [eexists; split; reflexivity|]. split; [eexists; split; reflexivity|reflexivity].
Qed.

(** ** The properties at work on one run *)

Lemma set_maximum_verdict_witness :
  (false = true <->
   big_enough ew_0_10 lone_peak_flood = true \/ again_after 1 lone_peak_flood = false) /\
  (false = false -> unmarked_3x3 = unmarked_3x3 /\ @nil foothill = []).
Proof.
  apply (set_maximum_verdict 10 ew_0_10 q_lone_peak unmarked_3x3 (1, 1) 1 [] 1
           lone_peak_flood unmarked_3x3 [] false).
  - discriminate.
  - split; reflexivity.
  - reflexivity.
  - reflexivity.
Defined.

Lemma retained_object_sizes_witness :
  6 < Z.of_nat (pixel_count 1 (full 3 3 1)) \/ 7 <= Z.of_nat (pixel_count 1 (full 3 3 1)).
Proof.
  apply (proj1 (retained_object_sizes 0 10 7 0 1 ew_area7 eq_refl)
           244%nat (plateau_3x3 3) true (full 3 3 1) 1).
  - vm_compute. reflexivity.
  - reflexivity.
  - vm_compute. lia.
Defined.

Lemma labels_within_capture_range_witness :
  Forall (fun v => v = 0 \/ 1 <= v < g_capture_index demo_grower) (cells demo_labels).
Proof.
  apply (labels_within_capture_range 568 ew_0_10 peak_and_plateau
           (fst demo_quantized) (snd demo_quantized) demo_centers demo_grower demo_labels);
    vm_compute; reflexivity.
Defined.


Lemma committed_cells_are_final_witness :
  cells (g_marked hill_grower) !! 0%nat = Some GLOBBED.
Proof.
  apply (committed_cells_are_final 973 ew_area8 hill_grid
           (fst hill_quantized) (snd hill_quantized) hill_centers hill_grower
           9%nat 13%nat hill_after_foothills (g_marked hill_grower) 0%nat GLOBBED).
  - vm_compute. reflexivity.
  - vm_compute. reflexivity.
  - vm_compute. reflexivity.
  - lia.
  - reflexivity.
  - reflexivity.
  - reflexivity.
  - left. reflexivity.
Defined.

Lemma flat_grid_below_threshold_witness :
  label 244 ew_5_15 (plateau_3x3 4) true = Ok (full 3 3 0).
Proof.
  apply (flat_grid_below_threshold 244 ew_5_15 (plateau_3x3 4)).
  - repeat split; vm_compute; solve [reflexivity | discriminate].
  - reflexivity.
  - discriminate.
  - discriminate.
  - repeat constructor; vm_compute; solve [reflexivity | discriminate].
Defined.

Lemma label_terminates_witness :
  label 568 ew_0_10 peak_and_plateau true <> OutOfFuel /\
  (forall q_data marked center bin_lower foothills capture_index,
     capture_index <> UNMARKED -> same_shape q_data marked ->
     length (cells marked) = (nrows peak_and_plateau * ncols peak_and_plateau)%nat ->
     set_maximum 568 ew_0_10 q_data marked center bin_lower foothills capture_index
       <> OutOfFuel) /\
  (forall q_data centers b g g',
     b <= 1 ->
     grow_level 568 ew_0_10 q_data centers b g = Ok g' ->
     g_deferred_to_next g' = []).
Proof.
  apply (label_terminates 568 ew_0_10 peak_and_plateau true). vm_compute. lia.
Defined.



(** * Further properties *)

(** ** Indices and positions *)

Lemma norm_index_in_range (n : nat) (i : Z) :
  0 <= i < Z.of_nat n -> norm_index n i = Some (Z.to_nat i).
Proof.
  intros H. unfold norm_index.
  destruct (Z.leb_spec 0 i); [|lia]. destruct (Z.ltb_spec i (Z.of_nat n)); [|lia]. reflexivity.
Qed.

Lemma offset_in_bounds {A} (a : ndarray A) p :
  in_bounds a p ->
  offset a p = Some (Z.to_nat (fst p) * ncols a + Z.to_nat (snd p))%nat.
Proof.
  intros [Hr Hc]. unfold offset.
  rewrite (norm_index_in_range _ _ Hr), (norm_index_in_range _ _ Hc). reflexivity.
Qed.

Lemma unravel_in_bounds {A} (a : ndarray A) k :
  (k < nrows a * ncols a)%nat -> in_bounds a (unravel a k).
Proof.
  intros Hk. assert (ncols a <> 0)%nat as Hw by lia.
  unfold in_bounds, unravel; simpl. split.
  - split; [lia|]. apply inj_lt. apply Nat.Div0.div_lt_upper_bound. lia.
  - split; [lia|]. apply inj_lt. apply Nat.mod_upper_bound. exact Hw.
Qed.

Lemma offset_unravel {A} (a : ndarray A) k :
  (k < nrows a * ncols a)%nat -> offset a (unravel a k) = Some k.
Proof.
  intros Hk. rewrite offset_in_bounds by (apply unravel_in_bounds; exact Hk).
  unfold unravel; simpl. rewrite !Nat2Z.id. f_equal.
  pose proof (Nat.div_mod_eq k (ncols a)). lia.
Qed.

Lemma unravel_offset {A} (a : ndarray A) p :
  in_bounds a p ->
  unravel a (Z.to_nat (fst p) * ncols a + Z.to_nat (snd p)) = p.
Proof.
  intros [Hr Hc]. destruct p as [r c]; simpl in *. unfold unravel.
  assert (Z.to_nat c < ncols a)%nat as Hlt by lia.
  rewrite <- (Nat.div_unique (Z.to_nat r * ncols a + Z.to_nat c) (ncols a)
                (Z.to_nat r) (Z.to_nat c)) by lia.
  rewrite <- (Nat.mod_unique (Z.to_nat r * ncols a + Z.to_nat c) (ncols a)
                (Z.to_nat r) (Z.to_nat c)) by lia.
  f_equal; lia.
Qed.


Lemma getitem_unravel {A} (a : ndarray A) k v :
  well_formed a -> cells a !! k = Some v -> getitem a (unravel a k) = Ok v.
Proof.
  intros Hwf Hk. unfold getitem. rewrite offset_unravel.
  - rewrite Hk. reflexivity.
  - rewrite <- Hwf. eapply lookup_lt_Some; eauto.
Qed.

Lemma row_major_unravel {A} (a : ndarray A) k k' :
  (k < k')%nat -> row_major (unravel a k) (unravel a k').
Proof.
  intros Hlt. unfold row_major, unravel; simpl.
  destruct (Nat.eq_dec (ncols a) 0%nat) as [E|E].
  - rewrite E. simpl. right. split; lia.
  - assert (k / ncols a <= k' / ncols a)%nat as Hle by (apply Nat.Div0.div_le_mono; lia).
    destruct (Nat.eq_dec (k / ncols a)%nat (k' / ncols a)%nat) as [Eq|Ne].
    + right. split; [lia|].
      pose proof (Nat.div_mod_eq k (ncols a)). pose proof (Nat.div_mod_eq k' (ncols a)).
      rewrite Eq in *. lia.
    + left. lia.
Qed.

(** ** More on dicts *)

Lemma dict_get_present d k : k ∈ keys d -> exists l, dict_get d k = Ok l.
Proof.
  induction d as [|[k' l] d IH]; simpl; intros H.
  - inversion H.
  - destruct (Z.eqb_spec k' k) as [E|E]; [eauto|].
    apply elem_of_cons in H as [H|H]; [congruence|eauto].
Qed.

Lemma dict_get_absent d k : k ∉ keys d -> dict_get d k = Raise KeyError.
Proof.
  induction d as [|[k' l] d IH]; simpl; intros H; [reflexivity|].
  destruct (Z.eqb_spec k' k) as [E|E].
  - exfalso. apply H. subst. left.
  - apply IH. intros Hin. apply H. right. exact Hin.
Qed.

Lemma dict_append_present d k p : k ∈ keys d -> exists d', dict_append d k p = Ok d'.
Proof.
  induction d as [|[k' l] d IH]; simpl; intros H.
  - inversion H.
  - destruct (Z.eqb_spec k' k) as [E|E]; [eauto|].
    apply elem_of_cons in H as [H|H]; [congruence|].
    destruct (IH H) as [d' ->]. simpl. eauto.
Qed.

Lemma dict_get_append_same d k p d' :
  dict_append d k p = Ok d' ->
  exists l, dict_get d k = Ok l /\ dict_get d' k = Ok (l ++ [p]).
Proof.
  revert d'. induction d as [|[k' l] d IH]; simpl; intros d' H; [discriminate|].
  destruct (Z.eqb_spec k' k) as [E|E].
  - ok_inv H. simpl. rewrite Z.eqb_refl. eauto.
  - bind_inv H as d'' Hd. ok_inv H. simpl.
    destruct (Z.eqb_spec k' k); [contradiction|]. eauto.
Qed.

Lemma dict_get_append_other d k p d' b :
  dict_append d k p = Ok d' -> b <> k -> dict_get d' b = dict_get d b.
Proof.
  revert d'. induction d as [|[k' l] d IH]; simpl; intros d' H Hb; [discriminate|].
  destruct (Z.eqb_spec k' k) as [E|E].
  - ok_inv H. simpl. destruct (Z.eqb_spec k b); [congruence|reflexivity].
  - bind_inv H as d'' Hd. ok_inv H. simpl.
    destruct (Z.eqb_spec k' b); [reflexivity|]. eauto.
Qed.

(** ** The bins of the quantizer, exactly *)

Lemma fill_pixels_exact data good :
  forall pixels pixels' b l,
    fill_pixels data good pixels = Ok pixels' ->
    dict_get pixels b = Ok l ->
    dict_get pixels' b = Ok (l ++ List.filter (holds data b) good).
Proof.
  induction good as [|g good IH]; simpl; intros pixels pixels' b l H Hl.
  - ok_inv H. rewrite app_nil_r. exact Hl.
  - bind_inv H as v Hv. bind_inv H as px Hpx.
    unfold holds at 1. rewrite Hv.
    destruct (Z.eqb_spec v b) as [E|E].
    + subst v. destruct (dict_get_append_same _ _ _ _ Hpx) as (l0 & Hl0 & Hl1).
      assert (l0 = l) by congruence. subst l0.
      rewrite (IH _ _ _ _ H Hl1). rewrite <- app_assoc. reflexivity.
    + apply (IH _ _ _ _ H). rewrite (dict_get_append_other _ _ _ _ _ Hpx); [exact Hl|congruence].
Qed.

Lemma fill_pixels_returns data good :
  forall pixels,
    (forall g, g ∈ good -> exists b, getitem data g = Ok b /\ b ∈ keys pixels) ->
    exists pixels', fill_pixels data good pixels = Ok pixels'.
Proof.
  induction good as [|g good IH]; simpl; intros pixels Hg; [eauto|].
  destruct (Hg g) as (b & Hb & Hk); [left|]. rewrite Hb. simpl.
  destruct (dict_append_present _ _ g Hk) as [px Hpx]. rewrite Hpx. simpl.
  apply IH. intros g' Hg'. destruct (Hg g') as (b' & Hb' & Hk'); [right; exact Hg'|].
  exists b'. split; [exact Hb'|]. destruct (dict_append_Ok _ _ _ _ Hpx) as [-> _]. exact Hk'.
Qed.

Lemma quantize_cell_range self v :
  quantize_cell self v <= max_bin self /\
  (-1 <= max_bin self -> quantize_cell self v = -1 \/ 0 <= quantize_cell self v) /\
  (min_thresh self = 0 -> 1 <= max_bin self -> quantize_cell self v <> 0).
Proof.
  unfold quantize_cell.
  set (d := wrap32 (wrap32 (v - min_thresh self) / data_increment self)).
  destruct (Z.eqb_spec (min_thresh self) 0) as [E|E].
  - destruct (Z.leb_spec d 0); destruct (Z.ltb_spec (max_bin self) (-1));
      destruct (Z.ltb_spec (max_bin self) d); lia.
  - destruct (Z.ltb_spec d 0); destruct (Z.ltb_spec (max_bin self) (-1));
      destruct (Z.ltb_spec (max_bin self) d); lia.
Qed.

Lemma elem_of_where_nonneg data p :
  p ∈ where_nonneg data <->
  exists k v, cells data !! k = Some v /\ 0 <= v /\ p = unravel data k.
Proof.
  split; [apply where_nonneg_elem|].
  intros (k & v & Hk & Hv & ->). unfold where_nonneg.
  apply list_elem_of_omap. exists (k, v). split.
  - apply elem_of_lookup_imap. eauto.
  - simpl. destruct (Z.leb_spec 0 v); [reflexivity|lia].
Qed.

Lemma imap_shift_sorted {A} (l : list A) :
  forall n, StronglySorted (fun a b : nat * A => (fst a < fst b)%nat)
              (imap (fun k v => ((n + k)%nat, v)) l).
Proof.
  induction l as [|x l IH]; intros n; simpl; [constructor|].
  assert (imap ((fun k v => ((n + k)%nat, v)) ∘ S) l = imap (fun k v => ((S n + k)%nat, v)) l) as E.
  { apply imap_ext. intros i y _. simpl. f_equal. lia. }
  rewrite E. constructor; [apply IH|].
  apply Forall_forall. intros [k v] Hin.
  apply elem_of_lookup_imap in Hin as (i & y & Heq & _). injection Heq as -> ->. simpl. lia.
Qed.

Lemma omap_sorted {A B} (R : A -> A -> Prop) (R' : B -> B -> Prop) (f : A -> option B) l :
  (forall a b a' b', R a b -> f a = Some a' -> f b = Some b' -> R' a' b') ->
  StronglySorted R l -> StronglySorted R' (omap f l).
Proof.
  intros Hf. induction 1 as [|a l Hs IH Ha]; simpl; [constructor|].
  destruct (f a) as [a'|] eqn:Ea; [|exact IH].
  constructor; [exact IH|].
  apply Forall_forall. intros b' Hb'. apply list_elem_of_omap in Hb' as (b & Hb & Eb).
  rewrite Forall_forall in Ha. eauto.
Qed.

Lemma filter_sorted {A} (R : A -> A -> Prop) (f : A -> bool) l :
  StronglySorted R l -> StronglySorted R (List.filter f l).
Proof.
  induction 1 as [|a l Hs IH Ha]; simpl; [constructor|].
  destruct (f a); [|exact IH].
  constructor; [exact IH|].
  apply Forall_forall. intros b Hb. apply list_elem_of_In, filter_In in Hb as [Hb _].
  rewrite Forall_forall in Ha. apply Ha. apply list_elem_of_In. exact Hb.
Qed.

Lemma sorted_NoDup {A} (R : A -> A -> Prop) l :
  (forall a, ~ R a a) -> StronglySorted R l -> NoDup l.
Proof.
  intros Hirr. induction 1 as [|a l Hs IH Ha]; constructor; [|exact IH].
  intros Hin. rewrite Forall_forall in Ha. exact (Hirr a (Ha a Hin)).
Qed.

Lemma where_nonneg_sorted data : StronglySorted row_major (where_nonneg data).
Proof.
  unfold where_nonneg.
  apply (omap_sorted (fun a b : nat * Z => (fst a < fst b)%nat)).
  - intros [k v] [k' v'] a' b' Hlt Ha Hb. simpl in *.
    destruct (0 <=? v); [|discriminate]. destruct (0 <=? v'); [|discriminate].
    injection Ha as <-. injection Hb as <-. apply row_major_unravel. exact Hlt.
  - apply (imap_shift_sorted (cells data) 0).
Qed.

Lemma row_major_irrefl p : ~ row_major p p.
Proof. unfold row_major. lia. Qed.

Lemma filter_none {A} (f : A -> bool) l :
  (forall x, In x l -> f x = false) -> List.filter f l = [].
Proof.
  induction l as [|x l IH]; simpl; intros H; [reflexivity|].
  rewrite (H x) by (left; reflexivity). apply IH. intros y Hy. apply H. right. exact Hy.
Qed.

Lemma quantize_int_returns self grid :
  well_formed grid ->
  exists pixels,
    quantize_int self grid
    = Ok (pixels, NdArray (nrows grid) (ncols grid) (map (quantize_cell self) (cells grid))).
Proof.
  intros Hwf. unfold quantize_int.
  set (data := NdArray (nrows grid) (ncols grid) (map (quantize_cell self) (cells grid))).
  assert (well_formed data) as Hwfd.
  { unfold well_formed, data. simpl. rewrite length_map. exact Hwf. }
  destruct (fill_pixels_returns data (where_nonneg data) (empty_bins self)) as [pixels Hp].
  - intros g (k & v & Hk & Hv & ->)%where_nonneg_elem.
    exists v. split; [apply getitem_unravel; assumption|].
    unfold empty_bins. rewrite keys_empty_bins. apply elem_of_seqZ.
    unfold data in Hk. simpl in Hk. apply list_lookup_fmap_Some in Hk as (x & -> & Hx).
    pose proof (quantize_cell_range self x) as [Hmax _]. lia.
  - exists pixels. rewrite Hp. reflexivity.
Qed.

Lemma quantize_total self input_grid :
  well_formed input_grid ->
  exists pixels q_data,
    quantize self input_grid = Ok (pixels, q_data) /\
    same_shape input_grid q_data /\ well_formed q_data /\
    keys pixels = seqZ 0 (max_bin self + 1).
Proof.
  intros Hwf. unfold quantize.
  destruct (quantize_int_returns self (astype_int32 input_grid)) as [pixels Hq].
  { unfold well_formed, astype_int32. simpl. rewrite length_map. exact Hwf. }
  eexists _, _. split; [exact Hq|].
  destruct (quantize_int_inv _ _ _ _ Hq) as (_ & Hkeys & _).
  repeat split; [| exact Hkeys].
  unfold well_formed. simpl. rewrite !length_map. exact Hwf.
Qed.

(** X1.  On a grid whose buffer matches its shape [quantize] raises
    nothing: it returns a quantized array of the same shape, again
    well-formed, and a dict with one bin for each level [0 .. max_bin], in
    this order. *)
Theorem quantize_returns self input_grid :
  well_formed input_grid ->
  exists pixels q_data,
    quantize self input_grid = Ok (pixels, q_data) /\
    same_shape input_grid q_data /\ well_formed q_data /\
    keys pixels = seqZ 0 (max_bin self + 1).
Proof. apply quantize_total. Qed.

(** X2.  Every cell of the quantized array is -1 or a level between 0 and
    [max_bin] (for [max_bin >= -1]); and when [min_thresh] is 0 and
    [max_bin >= 1], level 0 is excluded as well: no cell holds 0 and
    bin 0 of the dict is empty. *)
Theorem quantized_values_in_range self input_grid pixels q_data :
  -1 <= max_bin self ->
  quantize self input_grid = Ok (pixels, q_data) ->
  Forall (fun v => v = -1 \/ 0 <= v <= max_bin self) (cells q_data) /\
  (min_thresh self = 0 -> 1 <= max_bin self ->
   Forall (fun v => v <> 0) (cells q_data) /\ dict_get pixels 0 = Ok []).
Proof.
  intros Hmb Hq. unfold quantize in Hq.
  destruct (quantize_int_inv _ _ _ _ Hq) as (Hdata & Hkeys & _).
  assert (forall v, v ∈ cells q_data -> exists x, v = quantize_cell self x) as Hcell.
  { intros v Hv. rewrite Hdata in Hv. simpl in Hv.
    apply list_elem_of_fmap in Hv as (x & -> & _). eauto. }
  split.
  - apply Forall_forall. intros v (x & ->)%Hcell.
    pose proof (quantize_cell_range self x) as (Hmax & Hneg & _).
    destruct (Hneg Hmb); [left; assumption|right; lia].
  - intros Hmin Hmax.
    assert (Forall (fun v => v <> 0) (cells q_data)) as Hnz.
    { apply Forall_forall. intros v (x & ->)%Hcell.
      pose proof (quantize_cell_range self x) as (_ & _ & Hz). auto. }
    split; [exact Hnz|].
    unfold quantize_int in Hq. bind_inv Hq as px Hpx. ok_inv Hq.
    rewrite (fill_pixels_exact _ _ _ _ 0 [] Hpx).
    + f_equal. simpl. apply filter_none. intros g _. unfold holds.
      destruct (getitem _ g) as [v| |] eqn:Hg; try reflexivity.
      apply getitem_Ok in Hg as (k & _ & Hk).
      rewrite Forall_forall in Hnz. apply Z.eqb_neq, Hnz.
      eapply list_elem_of_lookup_2. exact Hk.
    + unfold empty_bins. apply dict_get_empty_bin. apply elem_of_seqZ. lia.
Qed.

(** X3.  The dict returned by [quantize] indexes the quantized array
    exactly: bin [b] lists the pixels inside the grid that hold level [b],
    each once, in row-by-row order (the order in which later stages try
    them as seeds), and nothing else. *)
Theorem quantize_bins_exact self input_grid pixels q_data b ps :
  well_formed input_grid ->
  quantize self input_grid = Ok (pixels, q_data) ->
  dict_get pixels b = Ok ps ->
  StronglySorted row_major ps /\ NoDup ps /\
  forall p, p ∈ ps <-> in_bounds q_data p /\ getitem q_data p = Ok b.
Proof.
  intros Hwf Hq Hb. unfold quantize in Hq.
  destruct (quantize_int_inv _ _ _ _ Hq) as (Hdata & Hkeys & _).
  assert (0 <= b) as Hb0.
  { apply dict_get_Ok in Hb.
    assert (b ∈ keys pixels) as Hk by (apply list_elem_of_fmap; exists (b, ps); auto).
    rewrite Hkeys in Hk. apply elem_of_seqZ in Hk. lia. }
  assert (well_formed q_data) as Hwfq.
  { rewrite Hdata. unfold well_formed, astype_int32. simpl. rewrite !length_map. exact Hwf. }
  clear Hdata. unfold quantize_int in Hq. bind_inv Hq as px Hpx. simpl in Hpx.
  injection Hq as -> Hq. rewrite Hq in Hpx.
  assert (dict_get pixels b = Ok ([] ++ List.filter (holds q_data b) (where_nonneg q_data))) as Hex.
  { apply (fill_pixels_exact _ _ _ _ b [] Hpx).
    unfold empty_bins. apply dict_get_empty_bin.
    apply dict_get_Ok in Hb.
    assert (b ∈ keys pixels) as Hk by (apply list_elem_of_fmap; exists (b, ps); auto).
    rewrite Hkeys in Hk. exact Hk. }
  simpl in Hex. rewrite Hb in Hex. injection Hex as ->.
  assert (StronglySorted row_major (List.filter (holds q_data b) (where_nonneg q_data))) as Hs
    by (apply filter_sorted, where_nonneg_sorted).
  split; [exact Hs|]. split; [exact (sorted_NoDup _ _ row_major_irrefl Hs)|].
  intros p. rewrite list_elem_of_In, filter_In, <- list_elem_of_In, elem_of_where_nonneg.
  unfold holds. split.
  - intros [(k & v & Hk & Hv & ->) Hh]. split.
    + apply unravel_in_bounds. rewrite <- Hwfq. eapply lookup_lt_Some; eauto.
    + destruct (getitem q_data (unravel q_data k)) as [x| |]; try discriminate.
      apply Z.eqb_eq in Hh. congruence.
  - intros [Hin Hg]. rewrite Hg, Z.eqb_refl. split; [|reflexivity].
    apply getitem_Ok in Hg as (k & Hoff & Hk).
    rewrite (offset_in_bounds _ _ Hin) in Hoff. injection Hoff as <-.
    eexists _, b. split; [exact Hk|]. split; [exact Hb0|].
    symmetry. apply unravel_offset. exact Hin.
Qed.

(** ** Centers and pixels *)

(** X4.  [find_local_maxima] keeps the bins of [pixels], in their order,
    and every center it returns under a bin is one of the pixels listed
    under that bin: it selects, it never invents or moves a pixel. *)
Theorem centers_are_pixels self pixels q_data centers b cs c :
  find_local_maxima self pixels q_data = Ok centers ->
  dict_get centers b = Ok cs ->
  c ∈ cs ->
  keys centers = keys pixels /\
  exists ps, dict_get pixels b = Ok ps /\ c ∈ ps.
Proof.
  intros Hf Hb Hc.
  apply (find_local_maxima_inv (fun b p => exists ps, dict_get pixels b = Ok ps /\ p ∈ ps))
    in Hf as [Hk Hall].
  - split; [exact Hk|]. apply dict_get_Ok in Hb. exact (Hall _ _ _ Hb Hc).
  - intros MIN b' infl ps p _ _ Hget Hp _. eauto.
Qed.

(** ** Runs of [label] that fail or have nothing to do *)

Lemma MIN_INFL_returns self :
  0 <= dist_btw_objects self -> exists MIN, MIN_INFL self = Ok MIN.
Proof.
  intros Hd. unfold MIN_INFL. destruct (Z.ltb_spec (dist_btw_objects self) 0); [lia|].
  destruct (_ =? _); eauto.
Qed.

(** X5.  With [max_bin = 0] (the thresholds are less than one increment
    apart) [label] raises [ZeroDivisionError] on every well-formed grid:
    the influence radius of the only bin divides by [max_bin]. *)
Theorem label_zero_max_bin fuel self input_grid only_objects :
  well_formed input_grid ->
  max_bin self = 0 ->
  0 <= dist_btw_objects self ->
  label fuel self input_grid only_objects = Raise ZeroDivisionError.
Proof.
  intros Hwf Hmb Hd.
  destruct (quantize_total self input_grid Hwf) as (pixels & q_data & Hq & _ & _ & Hk).
  destruct (MIN_INFL_returns self Hd) as [MIN HMIN].
  unfold label. rewrite Hq. simpl. unfold find_local_maxima. rewrite HMIN. simpl.
  rewrite Hk, Hmb. simpl. unfold infl_dist. rewrite Hmb. reflexivity.
Qed.

(** X6.  With a negative [dist_btw_objects] [label] raises [ValueError]
    on every well-formed grid, whatever the grid holds: the square root is
    not a number and [int] refuses it before any bin is looked at. *)
Theorem label_negative_distance fuel self input_grid only_objects :
  well_formed input_grid ->
  dist_btw_objects self < 0 ->
  label fuel self input_grid only_objects = Raise ValueError.
Proof.
  intros Hwf Hd.
  destruct (quantize_total self input_grid Hwf) as (pixels & q_data & Hq & _).
  unfold label. rewrite Hq. simpl. unfold find_local_maxima, MIN_INFL.
  destruct (Z.ltb_spec (dist_btw_objects self) 0); [reflexivity|lia].
Qed.

Lemma only_positive_unmarked h w : only_positive (full h w UNMARKED) = full h w 0.
Proof.
  unfold only_positive, full. simpl. f_equal.
  induction (h * w)%nat as [|n IH]; simpl; [reflexivity|]. f_equal. exact IH.
Qed.

(** X7.  With a negative [max_bin] ([max_thresh] below [min_thresh])
    there is no bin at all, and [label] returns the grid of the input's
    shape that holds 0 everywhere (-1 everywhere when [only_objects] is
    false). *)
Theorem label_without_bins fuel self input_grid only_objects :
  well_formed input_grid ->
  max_bin self < 0 ->
  0 <= dist_btw_objects self ->
  label fuel self input_grid only_objects
  = Ok (full (nrows input_grid) (ncols input_grid) (if only_objects then 0 else UNMARKED)).
Proof.
  intros Hwf Hmb Hd.
  destruct (quantize_total self input_grid Hwf) as (pixels & q_data & Hq & [Hr Hc] & _ & Hk).
  destruct (MIN_INFL_returns self Hd) as [MIN HMIN].
  rewrite seqZ_nil in Hk by lia.
  assert (pixels = []) as -> by (destruct pixels; [reflexivity|discriminate]).
  unfold label. rewrite Hq. simpl. unfold find_local_maxima. rewrite HMIN. simpl.
  unfold grow_centers, grow_run. simpl. rewrite <- Hr, <- Hc.
  destruct only_objects; [|reflexivity].
  rewrite only_positive_unmarked. reflexivity.
Qed.

(** ** The shape of the result *)

(** X8.  The grid returned by [label] has the shape of the input grid and
    exactly one cell for each index of that shape. *)
Theorem label_keeps_shape fuel self input_grid only_objects out :
  label fuel self input_grid only_objects = Ok out ->
  same_shape input_grid out /\ well_formed out.
Proof.
  intros (pixels & q_data & centers & g & Hq & Hc & Hg & ->)%label_inv.
  destruct (label_ginv _ _ _ _ _ _ _ Hq Hc Hg) as [bl Hinv].
  destruct (pipeline_inv _ _ _ _ _ Hq Hc) as (Hs & _ & _).
  destruct Hinv as [[Hsq _] Hlen _ _ _ _ _ _ _].
  assert (same_shape input_grid (g_marked g)) as Hsm by (eapply same_shape_trans; eauto).
  assert (well_formed (g_marked g)) as Hwf.
  { unfold well_formed. rewrite Hlen. destruct Hsq as [-> ->]. reflexivity. }
  destruct only_objects; [|auto].
  split; [exact Hsm|]. unfold well_formed, only_positive. simpl. rewrite length_map. exact Hwf.
Qed.

(** ** Regions are connected *)





(** ** What [set_maximum] writes *)

Lemma set_maximum_cells fuel self q_data marked center bin_lower foothills capture_index
    marked' foothills' captured :
  capture_index <> UNMARKED ->
  same_shape q_data marked ->
  set_maximum fuel self q_data marked center bin_lower foothills capture_index
    = Ok (marked', foothills', captured) ->
  forall k,
    cells marked' !! k = cells marked !! k \/
    (cells marked !! k = Some UNMARKED /\ cells marked' !! k = Some capture_index /\
     (offset marked center = Some k \/
      exists qv, cells q_data !! k = Some qv /\ bin_lower <= qv)).
Proof.
  intros Hcap Hshape H.
  apply set_maximum_inv in H as (fl & ks & _ & Hinv & Hcase); [|assumption|assumption].
  destruct Hinv as [Hpaint Hloc Hgrown Hglob _ _].
  destruct Hcase as [Hbig|c Hbig Hundo ->|Hbig Hsmall Hagain];
    intros k; try (left; reflexivity);
    destruct Hpaint as (_ & _ & _ & Hin & Hout);
    (destruct (decide (k ∈ ks)) as [Hk|Hk];
     [right; destruct (Hin k Hk) as [H0 H1]; split; [exact H0|]; split; [exact H1|];
      exact (Hgrown k Hk)
     |left; apply Hout; exact Hk]).
Qed.

(** X10.  A call of [set_maximum] changes the label grid only by turning
    unmarked cells into [capture_index], and each cell it labels is the
    seed or holds a quantized value of at least [bin_lower]; it appends
    at most one foothill record, only when it reports a capture, with the
    seed as its center and candidates whose quantized values lie in
    [0, bin_lower). *)
Theorem set_maximum_writes fuel self q_data marked center bin_lower foothills capture_index
    marked' foothills' captured :
  capture_index <> UNMARKED ->
  same_shape q_data marked ->
  set_maximum fuel self q_data marked center bin_lower foothills capture_index
    = Ok (marked', foothills', captured) ->
  (forall k,
     cells marked' !! k = cells marked !! k \/
     (cells marked !! k = Some UNMARKED /\ cells marked' !! k = Some capture_index /\
      (offset marked center = Some k \/
       exists qv, cells q_data !! k = Some qv /\ bin_lower <= qv))) /\
  (foothills' = foothills \/
   exists as_glob, foothills' = foothills ++ [(center, as_glob)] /\ captured = true /\
                   Forall (foot q_data bin_lower) as_glob).
Proof.
  intros Hcap Hshape H. split.
  - eapply set_maximum_cells; eauto.
  - apply set_maximum_inv in H as (fl & ks & _ & Hinv & Hcase); [|assumption|assumption].
    destruct Hinv as [_ _ _ Hglob _ _].
    destruct Hcase as [Hbig|c Hbig Hundo ->|Hbig Hsmall Hagain]; [|left; reflexivity..].
    right. exists (fl_as_glob fl). auto.
Qed.

(** ** What [remove_foothills] writes *)

Lemma lowland_refl q_data bl m : lowland q_data bl m m.
Proof. split; [apply same_shape_refl|]. intros k. left. reflexivity. Qed.

Lemma lowland_trans q_data bl m1 m2 m3 :
  lowland q_data bl m1 m2 -> lowland q_data bl m2 m3 -> lowland q_data bl m1 m3.
Proof.
  intros [Hs1 H1] [Hs2 H2]. split; [eapply same_shape_trans; eauto|].
  intros k. destruct (H2 k) as [E|E]; [|right; exact E].
  rewrite E. apply H1.
Qed.

Lemma glob_lowland q_data bl m pt m' :
  same_shape q_data m -> foot q_data bl pt -> setitem m pt GLOBBED = Ok m' ->
  lowland q_data bl m m'.
Proof.
  intros Hshape (qv & Hg & Hqv) Hset.
  pose proof (setitem_shape _ _ _ _ Hset) as [Hs _].
  apply setitem_Ok in Hset as (k0 & Hoff & Hlt & ->).
  apply getitem_Ok in Hg as (k1 & Hoff1 & Hk1).
  rewrite (offset_same_shape _ _ _ Hshape) in Hoff1.
  assert (k1 = k0) by congruence. subst k1.
  split; [exact Hs|]. intros k. simpl. destruct (decide (k = k0)) as [->|Hne].
  - right. split; [apply list_lookup_insert_eq; exact Hlt|eauto].
  - left. apply list_lookup_insert_ne. congruence.
Qed.

Lemma remove_hills_lowland q_data center centers bn bl :
  forall fuel m hills m',
    same_shape q_data m -> Forall (foot q_data bl) hills ->
    remove_hills fuel q_data m center centers bn bl hills = Ok m' ->
    lowland q_data bl m m'.
Proof.
  induction fuel as [|fuel IH]; intros m hills m' Hshape Hhills H.
  - destruct hills; simpl in H; [|discriminate]. ok_inv H. apply lowland_refl.
  - destruct hills as [|pt hills]; simpl in H; [ok_inv H; apply lowland_refl|].
    apply Forall_cons in Hhills as [Hpt Hhills].
    bind_inv H as m1 Hset. bind_inv H as hills1 Hn.
    pose proof (glob_lowland _ _ _ _ _ Hshape Hpt Hset) as Hl1.
    apply hill_neighbors_inv in Hn as (new & -> & _ & Hnew).
    eapply lowland_trans; [exact Hl1|].
    eapply IH; [|  |exact H].
    + eapply same_shape_trans; [exact Hshape|apply Hl1].
    + apply Forall_app. split; [|exact Hhills].
      eapply Forall_impl; [exact Hnew|].
      intros x (qv & (i & j & k & _ & _ & _ & Hg) & Hqv). exists qv. auto.
Qed.

Lemma remove_foothills_lowland q_data bn bl centers :
  forall fuel foothills m m',
    same_shape q_data m -> foothills_ok q_data bl foothills ->
    remove_foothills fuel q_data m bn bl centers foothills = Ok m' ->
    lowland q_data bl m m'.
Proof.
  intros fuel. induction foothills as [|[center as_glob] foothills IH];
    simpl; intros m m' Hshape Hfh H.
  - ok_inv H. apply lowland_refl.
  - apply Forall_cons in Hfh as [Hf Hfh]. bind_inv H as m1 Hm1.
    pose proof (remove_hills_lowland _ _ _ _ _ _ _ _ _ Hshape Hf Hm1) as Hl1.
    eapply lowland_trans; [exact Hl1|].
    eapply IH; [|exact Hfh|exact H].
    eapply same_shape_trans; [exact Hshape|apply Hl1].
Qed.

(** X11.  [remove_foothills] writes nothing but GLOBBED, and only on
    cells whose quantized value lies in [0, bin_lower), provided the
    candidates recorded in [foothills] have such values (as those recorded
    by [set_maximum] do); the shape of the label grid is kept. *)
Theorem remove_foothills_writes fuel q_data marked bin_num bin_lower centers foothills marked' :
  same_shape q_data marked ->
  foothills_ok q_data bin_lower foothills ->
  remove_foothills fuel q_data marked bin_num bin_lower centers foothills = Ok marked' ->
  same_shape marked marked' /\
  forall k, cells marked' !! k = cells marked !! k \/
            (cells marked' !! k = Some GLOBBED /\
             exists qv, cells q_data !! k = Some qv /\ 0 <= qv < bin_lower).
Proof. intros Hs Hfh H. exact (remove_foothills_lowland _ _ _ _ _ _ _ _ Hs Hfh H). Qed.

(** ** Excluded pixels are never touched *)

Lemma grow_seeds_globs fuel self q_data bl :
  0 <= bl ->
  forall seeds g g',
    ginv self q_data bl g ->
    (if g_bin_lower g <? 0 then 0 else g_bin_lower g) = bl ->
    Forall (seed_ok q_data bl) seeds ->
    globs_over q_data (g_marked g) ->
    grow_seeds fuel self q_data seeds g = Ok g' ->
    globs_over q_data (g_marked g').
Proof.
  intros Hbl. assert ((if bl <? 0 then 0 else bl) = bl) as Hclamp.
  { destruct (Z.ltb_spec bl 0); lia. }
  induction seeds as [|center seeds IH]; simpl; intros g g' Hinv Hg Hseeds Hglobs H.
  - ok_inv H. exact Hglobs.
  - apply Forall_cons in Hseeds as [Hc Hseeds]. rewrite Hg in H.
    bind_inv H as v Hv. destruct (v =? UNMARKED).
    + bind_inv H as [[marked foothills] captured] Hsm.
      pose proof (set_maximum_ginv _ _ _ _ _ _ _ _ _ Hinv Hc Hsm) as Hinv'.
      assert (globs_over q_data marked) as Hglobs'.
      { intros k Hk. pose proof (gi_cap _ _ _ _ Hinv) as Hcap.
        assert (g_capture_index g <> UNMARKED) as Hne by (unfold UNMARKED; lia).
        destruct (set_maximum_cells _ _ _ _ _ _ _ _ _ _ _
                    Hne (proj1 (gi_tidy _ _ _ _ Hinv)) Hsm k)
          as [E|(_ & E & _)].
        - apply Hglobs. congruence.
        - rewrite E in Hk. injection Hk as Hk. unfold GLOBBED in Hk. lia. }
      unfold after_set_maximum in Hinv'.
      apply IH in H; [exact H| |by destruct captured|done|by destruct captured].
      by destruct captured.
    + apply IH in H; [exact H| |done|done|done]. by apply ginv_bin_lower.
Qed.

Lemma grow_level_globs fuel self q_data centers b bl_prev g g' :
  centers_ok q_data centers -> 0 <= b -> Z.max (b - 1) 0 <= bl_prev ->
  ginv self q_data bl_prev g -> g_foothills g = [] ->
  globs_over q_data (g_marked g) ->
  grow_level fuel self q_data centers b g = Ok g' ->
  globs_over q_data (g_marked g').
Proof.
  intros Hcenters Hb Hprev Hinv Hfh Hglobs H. unfold grow_level in H.
  bind_inv H as new_centers Hnew. bind_inv H as g1 Hg1. bind_inv H as marked Hrf. ok_inv H.
  set (bl := Z.max (b - 1) 0) in *. simpl.
  assert (ginv self q_data bl
            (Grower (g_marked g) (g_foothills g) [] (g_capture_index g) (b - 1) (g_history g)))
    as Hinv0.
  { destruct Hinv as [Htidy Hlen Hcap Hfh0 Hdef Hcnt Hset Hlast Hclean]. split; simpl.
    + eapply tidy_weaken; [exact Hprev|reflexivity|done].
    + done.
    + done.
    + rewrite Hfh. constructor.
    + constructor.
    + done.
    + done.
    + done.
    + done. }
  assert ((if b - 1 <? 0 then 0 else b - 1) = bl) as Hclamp.
  { subst bl. destruct (Z.ltb_spec (b - 1) 0); lia. }
  assert (Forall (seed_ok q_data bl) (g_deferred_to_next g ++ new_centers)) as Hseeds.
  { apply Forall_app. split.
    + eapply Forall_impl; [apply Hinv|]. intros s. by apply seed_ok_weaken.
    + apply Forall_forall. intros p Hp. apply dict_get_Ok in Hnew.
      apply (indexed_seed_ok _ b); [by eapply Hcenters|]. subst bl. lia. }
  pose proof (grow_seeds_globs _ _ _ bl ltac:(lia) _ _ _ Hinv0 Hclamp Hseeds Hglobs Hg1) as Hglobs1.
  apply (grow_seeds_inv _ _ _ bl) in Hg1 as [Hinv1 Hbl1]; [|lia|done|done|done].
  assert (lowland q_data bl (g_marked g1) marked) as [_ Hlow].
  { destruct Hbl1 as [->|Ebl].
    - simpl in Hrf. rewrite Hfh in Hrf. simpl in Hrf. ok_inv Hrf. apply lowland_refl.
    - rewrite Ebl in Hrf.
      eapply remove_foothills_lowland; [apply Hinv1| |exact Hrf].
      eapply Forall_impl; [apply Hinv1|]. by intros f [? _]. }
  intros k Hk. destruct (Hlow k) as [E|(_ & qv & Hq & Hqv)].
  - apply Hglobs1. congruence.
  - exists qv. split; [done|lia].
Qed.

Lemma grow_levels_touched fuel self q_data centers :
  centers_ok q_data centers ->
  forall (n : nat) g g' bl_prev,
    0 <= bl_prev -> Z.of_nat n <= bl_prev + 1 ->
    ginv self q_data bl_prev g -> g_foothills g = [] ->
    globs_over q_data (g_marked g) ->
    grow_levels fuel self q_data centers (rev (seqZ 0 (Z.of_nat n))) g = Ok g' ->
    exists bl, 0 <= bl /\ ginv self q_data bl g' /\ globs_over q_data (g_marked g').
Proof.
  intros Hcenters. induction n as [|n IH]; intros g g' bl_prev Hbl Hn Hinv Hfh Hglobs H.
  - simpl in H. ok_inv H. eauto.
  - rewrite seqZ_S, rev_unit in H. simpl in H. bind_inv H as g1 Hg1.
    assert (globs_over q_data (g_marked g1)) as Hglobs1.
    { eapply (grow_level_globs _ _ _ _ _ bl_prev); [exact Hcenters| | |exact Hinv|done|done|exact Hg1];
        lia. }
    apply (grow_level_inv _ _ _ _ _ bl_prev) in Hg1 as [Hinv1 Hfh1]; [|done|lia|lia|done|done].
    eapply (IH _ _ (Z.max (0 + Z.of_nat n - 1) 0)); [lia|lia|exact Hinv1|done|done|exact H].
Qed.

Lemma grow_run_touched fuel self q_data centers g :
  centers_ok q_data centers -> keys centers = seqZ 0 (max_bin self + 1) ->
  grow_run fuel self centers q_data = Ok g ->
  exists bl, 0 <= bl /\ ginv self q_data bl g /\ globs_over q_data (g_marked g).
Proof.
  intros Hcenters Hkeys H. unfold grow_run in H. rewrite Hkeys in H.
  assert (globs_over q_data (g_marked (grow_start q_data))) as Hstart.
  { intros k Hk. simpl in Hk. apply lookup_replicate in Hk as [Hk _]. discriminate. }
  destruct (Z.le_gt_cases (max_bin self + 1) 0) as [Hneg|Hpos].
  - rewrite seqZ_nil in H by done. simpl in H. ok_inv H. exists 0.
    split; [lia|]. split; [apply ginv_start|exact Hstart].
  - rewrite <- (Z2Nat.id (max_bin self + 1)) in H by lia.
    eapply (grow_levels_touched _ _ _ _ Hcenters _ _ _ (max_bin self)) in H; eauto.
    + lia.
    + lia.
    + apply ginv_start.
Qed.

(** X12.  A pixel that the quantizer excluded is never touched: in the
    grid returned by [label], every cell that is labelled (or, with
    [only_objects] false, labelled or globbed) lies over a quantized value
    that is not negative. *)
Theorem excluded_pixels_stay_unmarked fuel self input_grid pixels q_data only_objects out k v :
  quantize self input_grid = Ok (pixels, q_data) ->
  label fuel self input_grid only_objects = Ok out ->
  cells out !! k = Some v ->
  v <> (if only_objects then 0 else UNMARKED) ->
  exists qv, cells q_data !! k = Some qv /\ 0 <= qv.
Proof.
  intros Hq (pixels' & q_data' & centers & g & Hq' & Hc & Hg & ->)%label_inv Hk Hv.
  rewrite Hq in Hq'. ok_inv Hq'.
  destruct (pipeline_inv _ _ _ _ _ Hq Hc) as (_ & Hkeys & Hok).
  destruct (grow_run_touched _ _ _ _ _ Hok Hkeys Hg) as (bl & Hbl & Hinv & Hglobs).
  destruct Hinv as [[_ Htidy] _ _ _ _ _ _ _ _].
  assert (forall x, cells (g_marked g) !! k = Some x -> x <> UNMARKED ->
            exists qv, cells q_data' !! k = Some qv /\ 0 <= qv) as Hraw.
  { intros x Hx Hne. destruct (Htidy k x Hx) as [->|[->|(_ & qv & Hqv & Hle)]].
    - contradiction.
    - apply Hglobs. exact Hx.
    - exists qv. split; [exact Hqv|lia]. }
  destruct only_objects; [|eauto].
  simpl in Hk. apply list_lookup_fmap_Some in Hk as (x & -> & Hx).
  apply (Hraw x Hx). destruct (Z.ltb_spec 0 x); [unfold UNMARKED; lia|contradiction].
Qed.

(** ** is_closest *)

Lemma is_closest_from_spec point my_dist centers :
  forall bins,
    (forall o, o ∈ bins -> o ∈ keys centers) ->
    exists r, is_closest_from point my_dist centers bins = Ok r /\
      (r = true <->
       forall o cs c, o ∈ bins -> dict_get centers o = Ok cs -> c ∈ cs ->
                      my_dist <= sqdist point c).
Proof.
  induction bins as [|o bins IH]; intros Hkeys.
  - exists true. split; [reflexivity|]. split; [|reflexivity].
    intros _ o cs c Ho. inversion Ho.
  - simpl. destruct (dict_get_present centers o) as [cs Hcs]; [apply Hkeys; left|].
    rewrite Hcs. simpl.
    destruct (existsb (fun c => sqdist point c <? my_dist) cs) eqn:Ex.
    + exists false. split; [reflexivity|]. split; [discriminate|].
      intros Hall. apply existsb_exists in Ex as (c & Hc & Hlt).
      apply Z.ltb_lt in Hlt. apply list_elem_of_In in Hc.
      pose proof (Hall o cs c ltac:(left) Hcs Hc). lia.
    + destruct IH as (r & Hr & Hiff); [intros o' Ho'; apply Hkeys; right; exact Ho'|].
      exists r. split; [exact Hr|]. rewrite Hiff. split.
      * intros Hall o' cs' c Ho' Hcs' Hc.
        apply elem_of_cons in Ho' as [->|Ho']; [|eauto].
        assert (cs' = cs) by congruence. subst cs'.
        destruct (Z.le_gt_cases my_dist (sqdist point c)) as [Hle|Hgt]; [exact Hle|].
        assert (existsb (fun c => sqdist point c <? my_dist) cs = true) as Hex.
        { apply existsb_exists. exists c. split; [apply list_elem_of_In; exact Hc|].
          apply Z.ltb_lt. lia. }
        congruence.
      * intros Hall o' cs' c Ho'. apply Hall. right. exact Ho'.
Qed.

(** X13.  On a dict of centers whose keys are [0 .. n-1] (as
    [find_local_maxima] returns them) and for a bin number that is not
    negative, [is_closest] raises nothing, and it answers true exactly when
    no center of a bin from [bin_num / 2] upwards is strictly closer to the
    point than the given center: centers of lower bins are not looked at,
    and a tie counts as closest. *)
Theorem is_closest_spec point center centers bin_num n :
  keys centers = seqZ 0 n ->
  0 <= bin_num ->
  exists r, is_closest point center centers bin_num = Ok r /\
    (r = true <->
     forall o cs c, Z.quot bin_num 2 <= o -> dict_get centers o = Ok cs -> c ∈ cs ->
                    sqdist point center <= sqdist point c).
Proof.
  intros Hkeys Hbn. unfold is_closest.
  assert (0 <= Z.quot bin_num 2) as Hbt by (apply Z.quot_pos; lia).
  destruct (is_closest_from_spec point (sqdist point center) centers
              (seqZ (bin_num ÷ 2) (Z.of_nat (length (keys centers)) - bin_num ÷ 2)))
    as (r & Hr & Hiff).
  - intros o Ho. apply elem_of_seqZ in Ho. rewrite Hkeys in *.
    rewrite length_seqZ in Ho. apply elem_of_seqZ. lia.
  - exists r. split; [exact Hr|]. rewrite Hiff. split.
    + intros Hall o cs c Ho Hcs Hc. apply (Hall o cs c); [|exact Hcs|exact Hc].
      pose proof (dict_get_Ok _ _ _ Hcs) as Hin.
      assert (o ∈ keys centers) as Hk by (apply list_elem_of_fmap; exists (o, cs); auto).
      apply elem_of_seqZ. rewrite Hkeys in *. rewrite length_seqZ.
      apply elem_of_seqZ in Hk. lia.
    + intros Hall o cs c Ho. apply Hall. apply elem_of_seqZ in Ho. lia.
Qed.

(** ** size_filter *)

Lemma foldr_max_spec x xs :
  foldr Nat.max x xs ∈ x :: xs /\ forall y, y ∈ x :: xs -> (y <= foldr Nat.max x xs)%nat.
Proof.
  induction xs as [|a xs [IHin IHle]]; simpl.
  - split; [left|]. intros y ->%list_elem_of_singleton. lia.
  - split.
    + destruct (Nat.max_spec a (foldr Nat.max x xs)) as [[_ ->]|[_ ->]].
      * apply elem_of_cons in IHin as [->|Hin]; [left|right; right; exact Hin].
      * right. left.
    + intros y Hy. apply elem_of_cons in Hy as [->|Hy].
      * pose proof (IHle x ltac:(left)). lia.
      * apply elem_of_cons in Hy as [->|Hy]; [lia|].
        pose proof (IHle y ltac:(right; exact Hy)). lia.
Qed.

Lemma foldr_min_spec x xs :
  foldr Nat.min x xs ∈ x :: xs /\ forall y, y ∈ x :: xs -> (foldr Nat.min x xs <= y)%nat.
Proof.
  induction xs as [|a xs [IHin IHle]]; simpl.
  - split; [left|]. intros y ->%list_elem_of_singleton. lia.
  - split.
    + destruct (Nat.min_spec a (foldr Nat.min x xs)) as [[_ ->]|[_ ->]].
      * right. left.
      * apply elem_of_cons in IHin as [->|Hin]; [left|right; right; exact Hin].
    + intros y Hy. apply elem_of_cons in Hy as [->|Hy].
      * pose proof (IHle x ltac:(left)). lia.
      * apply elem_of_cons in Hy as [->|Hy]; [lia|].
        pose proof (IHle y ltac:(right; exact Hy)). lia.
Qed.

Lemma span_two xs : (1 <? span xs)%nat = true <-> exists x y, x ∈ xs /\ y ∈ xs /\ x <> y.
Proof.
  rewrite Nat.ltb_lt. destruct xs as [|x xs]; simpl.
  - split; [lia|]. intros (a & _ & Ha & _). inversion Ha.
  - destruct (foldr_max_spec x xs) as [Hmax_in Hmax]. destruct (foldr_min_spec x xs) as [Hmin_in Hmin].
    split.
    + intros H. exists (foldr Nat.min x xs), (foldr Nat.max x xs).
      split; [exact Hmin_in|]. split; [exact Hmax_in|]. lia.
    + intros (a & b & Ha & Hb & Hne).
      pose proof (Hmax a Ha). pose proof (Hmax b Hb).
      pose proof (Hmin a Ha). pose proof (Hmin b Hb). lia.
Qed.

Lemma passes_spec labeled_grid min_size l :
  passes labeled_grid min_size l = true <->
  min_size <= Z.of_nat (pixel_count l labeled_grid) /\
  two_rows labeled_grid l /\ two_cols labeled_grid l.
Proof.
  unfold passes, find_object, two_rows, two_cols.
  assert (forall (f : nat -> nat),
            (exists x y, x ∈ map f (positions l (cells labeled_grid)) /\
                         y ∈ map f (positions l (cells labeled_grid)) /\ x <> y) <->
            exists k k', cells labeled_grid !! k = Some l /\ cells labeled_grid !! k' = Some l /\
                         f k <> f k') as Hmap.
  { intros f. split.
    - intros (x & y & (k & -> & Hk)%list_elem_of_fmap & (k' & -> & Hk')%list_elem_of_fmap & Hne).
      apply elem_of_positions in Hk, Hk'. eauto.
    - intros (k & k' & Hk & Hk' & Hne). exists (f k), (f k').
      split; [|split; [|exact Hne]]; apply list_elem_of_fmap; eexists; split; eauto;
        apply elem_of_positions; assumption. }
  destruct (positions l (cells labeled_grid)) as [|k0 ks] eqn:E.
  - split; [discriminate|]. intros (_ & (k & _ & Hk & _) & _).
    apply elem_of_positions in Hk. rewrite E in Hk. inversion Hk.
  - rewrite !andb_true_iff, Z.leb_le, !span_two, !Hmap. tauto.
Qed.

Lemma length_foldr_insert {A} (j : A) (out : list A) (ks : list nat) :
  length (foldr (fun k o => <[k:=j]> o) out ks) = length out.
Proof.
  induction ks as [|k ks IH]; simpl; [reflexivity|]. rewrite length_insert. exact IH.
Qed.

Lemma length_assign labeled l j out : length (assign labeled l j out) = length out.
Proof. apply length_foldr_insert. Qed.

Lemma lookup_assign labeled l j out k v :
  length out = length labeled -> labeled !! k = Some v ->
  assign labeled l j out !! k = if v =? l then Some j else out !! k.
Proof.
  intros Hlen Hk. unfold assign.
  assert (forall ks, foldr (fun k o => <[k:=j]> o) out ks !! k
                     = if decide (k ∈ ks) then Some j else out !! k) as Hfold.
  { induction ks as [|a ks IH]; simpl.
    - destruct (decide (k ∈ [])) as [Hin|_]; [inversion Hin|reflexivity].
    - destruct (decide (k = a)) as [->|Hne].
      + rewrite list_lookup_insert_eq.
        * destruct (decide (a ∈ a :: ks)) as [_|Hn]; [reflexivity|]. exfalso. apply Hn. left.
        * rewrite length_foldr_insert. rewrite Hlen. eapply lookup_lt_Some; eauto.
      + rewrite list_lookup_insert_ne by congruence. rewrite IH.
        destruct (decide (k ∈ ks)) as [Hin|Hin]; destruct (decide (k ∈ a :: ks)) as [Hin'|Hin'];
          try reflexivity.
        * exfalso. apply Hin'. right. exact Hin.
        * apply elem_of_cons in Hin' as [?|?]; [congruence|contradiction]. }
  rewrite Hfold. destruct (decide (k ∈ positions l labeled)) as [Hin|Hin].
  - apply elem_of_positions in Hin. assert (v = l) by congruence. subst.
    rewrite Z.eqb_refl. reflexivity.
  - destruct (Z.eqb_spec v l) as [->|_]; [|reflexivity].
    exfalso. apply Hin. apply elem_of_positions. exact Hk.
Qed.

Lemma filter_labels_lookup labeled_grid min_size k v :
  cells labeled_grid !! k = Some v ->
  forall (n : nat) a out j,
    length out = length (cells labeled_grid) ->
    filter_labels labeled_grid min_size (seqZ a (Z.of_nat n)) out j !! k
    = if (a <=? v) && (v <? a + Z.of_nat n) && passes labeled_grid min_size v
      then Some (j + Z.of_nat (length (List.filter (passes labeled_grid min_size)
                                         (seqZ a (v - a)))))
      else out !! k.
Proof.
  intros Hk. induction n as [|n IH]; intros a out j Hlen.
  - simpl. change (Z.of_nat 0) with 0. rewrite Z.add_0_r.
    destruct (Z.leb_spec a v); destruct (Z.ltb_spec v a); simpl; try reflexivity. lia.
  - rewrite seqZ_cons by lia. simpl.
    replace (Z.pred (Z.of_nat (S n))) with (Z.of_nat n) by lia.
    destruct (Z.eq_dec v a) as [->|Hne].
    + destruct (passes labeled_grid min_size a) eqn:Ep.
      * rewrite IH by (rewrite length_assign; exact Hlen).
        destruct (Z.leb_spec (Z.succ a) a); [lia|]. simpl.
        rewrite (lookup_assign _ _ _ _ _ _ Hlen Hk), Z.eqb_refl.
        destruct (Z.leb_spec a a); [|lia]. destruct (Z.ltb_spec a (a + Z.of_nat (S n))); [|lia]. simpl.
        rewrite Z.sub_diag. simpl. f_equal. lia.
      * rewrite IH by exact Hlen.
        destruct (Z.leb_spec (Z.succ a) a); [lia|]. simpl.
        rewrite andb_false_r. reflexivity.
    + assert ((Z.succ a <=? v) && (v <? Z.succ a + Z.of_nat n) = (a <=? v) && (v <? a + Z.of_nat (S n))) as Hrange.
      { destruct (Z.leb_spec (Z.succ a) v); destruct (Z.leb_spec a v);
          destruct (Z.ltb_spec v (Z.succ a + Z.of_nat n)); destruct (Z.ltb_spec v (a + Z.of_nat (S n)));
          simpl; try reflexivity; lia. }
      destruct (passes labeled_grid min_size a) eqn:Ep.
      * rewrite IH by (rewrite length_assign; exact Hlen). rewrite Hrange.
        rewrite (lookup_assign _ _ _ _ _ _ Hlen Hk).
        destruct (Z.eqb_spec v a); [contradiction|].
        destruct ((a <=? v) && (v <? a + Z.of_nat (S n)) && passes labeled_grid min_size v) eqn:Ec;
          [|reflexivity].
        apply andb_true_iff in Ec as [[Hle _]%andb_true_iff _]. apply Z.leb_le in Hle.
        rewrite (seqZ_cons a (v - a)) by lia. simpl. rewrite Ep. simpl.
        replace (Z.pred (v - a)) with (v - Z.succ a) by lia. f_equal. lia.
      * rewrite IH by exact Hlen. rewrite Hrange.
        destruct ((a <=? v) && (v <? a + Z.of_nat (S n)) && passes labeled_grid min_size v) eqn:Ec;
          [|reflexivity].
        apply andb_true_iff in Ec as [[Hle _]%andb_true_iff _]. apply Z.leb_le in Hle.
        rewrite (seqZ_cons a (v - a)) by lia. simpl. rewrite Ep.
        replace (Z.pred (v - a)) with (v - Z.succ a) by lia. reflexivity.
Qed.

Lemma foldr_Zmax_ge v vs y : y ∈ v :: vs -> y <= foldr Z.max v vs.
Proof.
  induction vs as [|a vs IH]; simpl.
  - intros ->%list_elem_of_singleton. lia.
  - intros [->|[->|Hy]%elem_of_cons]%elem_of_cons.
    + pose proof (IH ltac:(left)). lia.
    + lia.
    + pose proof (IH ltac:(right; exact Hy)). lia.
Qed.

Lemma new_label_step labeled_grid min_size l :
  0 <= l ->
  new_label labeled_grid min_size (l + 1)
  = new_label labeled_grid min_size l + (if passes labeled_grid min_size (l + 1) then 1 else 0).
Proof.
  intros Hl. unfold new_label.
  replace (seqZ 1 (l + 1)) with (seqZ 1 l ++ [l + 1]).
  - rewrite List.filter_app, length_app. simpl.
    destruct (passes labeled_grid min_size (l + 1)); simpl; lia.
  - replace (l + 1) with (Z.of_nat (S (Z.to_nat l))) at 2 by lia.
    rewrite seqZ_S. rewrite Z2Nat.id by lia. f_equal. f_equal. lia.
Qed.

Lemma new_label_mono labeled_grid min_size l l' :
  l <= l' -> new_label labeled_grid min_size l <= new_label labeled_grid min_size l'.
Proof.
  intros Hle. destruct (Z.le_gt_cases l 0) as [Hneg|Hpos].
  - unfold new_label at 1. rewrite seqZ_nil by lia. simpl. unfold new_label. lia.
  - replace l' with (l + Z.of_nat (Z.to_nat (l' - l))) by lia.
    induction (Z.to_nat (l' - l)) as [|n IH]; [rewrite Z.add_0_r; lia|].
    replace (l + Z.of_nat (S n)) with (l + Z.of_nat n + 1) by lia.
    rewrite new_label_step by lia.
    destruct (passes labeled_grid min_size (l + Z.of_nat n + 1)); lia.
Qed.

Lemma new_label_reached labeled_grid min_size (n : nat) c :
  1 <= c <= new_label labeled_grid min_size (Z.of_nat n) ->
  exists l, 1 <= l <= Z.of_nat n /\ passes labeled_grid min_size l = true /\
            new_label labeled_grid min_size l = c.
Proof.
  induction n as [|n IH]; intros Hc.
  - unfold new_label in Hc. simpl in Hc. lia.
  - replace (Z.of_nat (S n)) with (Z.of_nat n + 1) in * by lia.
    rewrite new_label_step in Hc by lia.
    destruct (Z.le_gt_cases c (new_label labeled_grid min_size (Z.of_nat n))) as [Hle|Hgt].
    + destruct IH as (l & Hl & Hp & E); [lia|]. exists l. split; [lia|auto].
    + destruct (passes labeled_grid min_size (Z.of_nat n + 1)) eqn:Ep; [|lia].
      exists (Z.of_nat n + 1). split; [lia|]. split; [exact Ep|].
      rewrite new_label_step by lia. rewrite Ep. lia.
Qed.

Lemma size_filter_Ok labeled_grid min_size out :
  size_filter labeled_grid min_size = Ok out ->
  exists M, (forall y, y ∈ cells labeled_grid -> y <= M) /\
    out = NdArray (nrows labeled_grid) (ncols labeled_grid)
            (filter_labels labeled_grid min_size (seqZ 1 M)
               (replicate (nrows labeled_grid * ncols labeled_grid) 0) 1).
Proof.
  unfold size_filter. destruct (cells labeled_grid) as [|v0 vs]; [discriminate|].
  intros H. ok_inv H. exists (foldr Z.max v0 vs). split; [|reflexivity].
  intros y Hy. apply foldr_Zmax_ge. exact Hy.
Qed.

Lemma length_filter_labels labeled_grid min_size labels :
  forall out j,
    length (filter_labels labeled_grid min_size labels out j) = length out.
Proof.
  induction labels as [|l labels IH]; simpl; intros out j; [reflexivity|].
  destruct (passes labeled_grid min_size l); rewrite IH; [apply length_assign|reflexivity].
Qed.

(** The cells of the grid that [size_filter] returns. *)
Lemma size_filter_cells labeled_grid min_size out k v :
  well_formed labeled_grid ->
  size_filter labeled_grid min_size = Ok out ->
  cells labeled_grid !! k = Some v ->
  same_shape labeled_grid out /\
  length (cells out) = length (cells labeled_grid) /\
  cells out !! k
  = Some (if (1 <=? v) && passes labeled_grid min_size v
          then new_label labeled_grid min_size v else 0).
Proof.
  intros Hwf H Hk. apply size_filter_Ok in H as (M & HM & ->).
  assert (length (replicate (nrows labeled_grid * ncols labeled_grid) 0)
          = length (cells labeled_grid)) as Hlen.
  { rewrite length_replicate. symmetry. exact Hwf. }
  assert (v <= M) as Hmax by (apply HM; eapply list_elem_of_lookup_2; exact Hk).
  assert (replicate (nrows labeled_grid * ncols labeled_grid) 0 !! k = Some 0) as Hzero.
  { apply lookup_replicate. split; [reflexivity|]. rewrite <- Hwf.
    eapply lookup_lt_Some. exact Hk. }
  split; [split; reflexivity|]. cbn [cells]. split.
  - rewrite length_filter_labels. exact Hlen.
  - destruct (Z.le_gt_cases M 0) as [Hneg|Hpos].
    + rewrite seqZ_nil by lia. cbn [filter_labels].
      destruct (Z.leb_spec 1 v); [lia|]. exact Hzero.
    + rewrite <- (Z2Nat.id M) at 1 by lia.
      rewrite (filter_labels_lookup _ _ _ _ Hk) by exact Hlen.
      rewrite Z2Nat.id by lia.
      destruct (Z.leb_spec 1 v); destruct (Z.ltb_spec v (1 + M)); cbn [andb]; try lia;
        [|exact Hzero].
      destruct (passes labeled_grid min_size v) eqn:Ep; [|exact Hzero].
      f_equal. replace v with (v - 1 + 1) at 2 by lia.
      rewrite new_label_step by lia. replace (v - 1 + 1) with v by lia.
      rewrite Ep. unfold new_label. lia.
Qed.

Lemma new_label_positive labeled_grid min_size v :
  1 <= v -> passes labeled_grid min_size v = true -> 1 <= new_label labeled_grid min_size v.
Proof.
  intros Hv Hp. replace v with (v - 1 + 1) by lia. rewrite new_label_step by lia.
  replace (v - 1 + 1) with v by lia. rewrite Hp. unfold new_label. lia.
Qed.

(** X14.  [size_filter] keeps the shape of the grid and decides cell by
    cell on the label the cell holds: the cell gets a label other than 0
    exactly when its label is at least 1, covers at least [min_size]
    cells, and has cells in two different rows and in two different
    columns.  An object lying in one row or in one column is removed
    whatever its size. *)
Theorem size_filter_keeps labeled_grid min_size out k v :
  well_formed labeled_grid ->
  size_filter labeled_grid min_size = Ok out ->
  cells labeled_grid !! k = Some v ->
  same_shape labeled_grid out /\
  exists w, cells out !! k = Some w /\
    (w <> 0 <->
     1 <= v /\ min_size <= Z.of_nat (pixel_count v labeled_grid) /\
     two_rows labeled_grid v /\ two_cols labeled_grid v).
Proof.
  intros Hwf H Hk.
  destruct (size_filter_cells _ _ _ _ _ Hwf H Hk) as (Hs & _ & Hout).
  split; [exact Hs|]. eexists. split; [exact Hout|].
  rewrite <- passes_spec.
  destruct (Z.leb_spec 1 v) as [Hv|Hv]; simpl.
  - destruct (passes labeled_grid min_size v) eqn:Ep.
    + pose proof (new_label_positive _ _ _ Hv Ep). split; [auto|lia].
    + split; [congruence|]. intros [_ ?]. discriminate.
  - split; [congruence|lia].
Qed.

(** X15.  [size_filter] renumbers the objects it keeps without gaps and
    in the order of their old labels: for some [K] every cell of the
    result lies in [0 .. K] and every label [1 .. K] occurs; and of two
    kept cells the one with the smaller old label has the smaller new one
    (so cells share a new label exactly when they shared the old one). *)
Theorem size_filter_renumbers labeled_grid min_size out :
  well_formed labeled_grid ->
  size_filter labeled_grid min_size = Ok out ->
  (exists K, Forall (fun w => 0 <= w <= K) (cells out) /\
             forall c, 1 <= c <= K -> c ∈ cells out) /\
  (forall k k' v v' w w',
     cells labeled_grid !! k = Some v -> cells labeled_grid !! k' = Some v' ->
     cells out !! k = Some w -> cells out !! k' = Some w' ->
     w <> 0 -> w' <> 0 -> (w < w' <-> v < v')).
Proof.
  intros Hwf H.
  assert (forall k v, cells labeled_grid !! k = Some v ->
            cells out !! k = Some (if (1 <=? v) && passes labeled_grid min_size v
                                   then new_label labeled_grid min_size v else 0)) as Hout.
  { intros k v Hk. apply (size_filter_cells _ _ _ _ _ Hwf H Hk). }
  pose proof H as (M & HM & Hshape)%size_filter_Ok.
  assert (length (cells out) = length (cells labeled_grid)) as Hlen.
  { rewrite Hshape. cbn [cells]. rewrite length_filter_labels, length_replicate.
    symmetry. exact Hwf. }
  split.
  - exists (new_label labeled_grid min_size M). split.
    + apply Forall_forall. intros w Hw. apply list_elem_of_lookup in Hw as [k Hw].
      destruct (lookup_lt_is_Some_2 (cells labeled_grid) k) as [v Hv].
      { rewrite <- Hlen. eapply lookup_lt_Some. exact Hw. }
      rewrite (Hout _ _ Hv) in Hw. injection Hw as <-.
      assert (v <= M) as HvM by (apply HM; eapply list_elem_of_lookup_2; exact Hv).
      pose proof (new_label_mono labeled_grid min_size v M HvM).
      assert (0 <= new_label labeled_grid min_size v) by (unfold new_label; lia).
      assert (0 <= new_label labeled_grid min_size M) by (unfold new_label; lia).
      destruct ((1 <=? v) && passes labeled_grid min_size v); lia.
    + intros c Hc.
      destruct (Z.le_gt_cases M 0) as [Hneg|Hpos].
      { unfold new_label in Hc. rewrite seqZ_nil in Hc by lia. simpl in Hc. lia. }
      rewrite <- (Z2Nat.id M) in Hc by lia.
      apply new_label_reached in Hc as (l & Hl & Hp & <-).
      pose proof Hp as (_ & (k & _ & Hk & _) & _)%passes_spec.
      pose proof (Hout _ _ Hk) as Ho. rewrite Hp in Ho.
      destruct (Z.leb_spec 1 l); [|lia]. simpl in Ho.
      eapply list_elem_of_lookup_2. exact Ho.
  - intros k k' v v' w w' Hv Hv' Hw Hw' Hnz Hnz'.
    rewrite (Hout _ _ Hv) in Hw. rewrite (Hout _ _ Hv') in Hw'.
    destruct ((1 <=? v) && passes labeled_grid min_size v) eqn:Ev; [|congruence].
    destruct ((1 <=? v') && passes labeled_grid min_size v') eqn:Ev'; [|congruence].
    injection Hw as <-. injection Hw' as <-.
    apply andb_true_iff in Ev as [Hv1%Z.leb_le Hp]. apply andb_true_iff in Ev' as [Hv1'%Z.leb_le Hp'].
    split.
    + intros Hlt. destruct (Z.lt_ge_cases v v') as [?|Hge]; [assumption|].
      pose proof (new_label_mono labeled_grid min_size v' v ltac:(lia)). lia.
    + intros Hlt. pose proof (new_label_mono labeled_grid min_size v (v' - 1) ltac:(lia)).
      replace v' with (v' - 1 + 1) at 1 by lia. rewrite new_label_step by lia.
      replace (v' - 1 + 1) with v' by lia. rewrite Hp'. lia.
Qed.

(** ** Centers keep their distance *)

Lemma elem_of_ndenumerate_2 {A} (a : ndarray A) r0 r1 c0 c1 (i' j' : nat) :
  (i' < slice_len (nrows a) r0 r1)%nat -> (j' < slice_len (ncols a) c0 c1)%nat ->
  ((Z.of_nat i', Z.of_nat j'),
   ((slice_start (nrows a) r0 + i') * ncols a + (slice_start (ncols a) c0 + j'))%nat)
  ∈ ndenumerate a r0 r1 c0 c1.
Proof.
  intros Hi Hj. unfold ndenumerate. apply list_elem_of_In, in_flat_map.
  exists i'. split; [apply in_seq; lia|].
  apply in_map_iff. exists j'. split; [reflexivity|apply in_seq; lia].
Qed.

Lemma slice_inside (n : nat) (x d : Z) :
  0 <= d -> d <= x < Z.of_nat n ->
  slice_start n (x - d) = Z.to_nat (x - d) /\
  slice_len n (x - d) (x + d + 1) = Z.to_nat (Z.min (x + d + 1) (Z.of_nat n) - (x - d)).
Proof.
  intros Hd Hx. unfold slice_start, slice_len, slice_adjust.
  destruct (Z.ltb_spec (x - d) 0); [lia|]. destruct (Z.ltb_spec (x + d + 1) 0); [lia|].
  split; f_equal; lia.
Qed.


Lemma influence_square_covers (marked : ndarray Z) p d x :
  in_bounds marked p -> 0 <= d -> d <= fst p -> d <= snd p ->
  in_bounds marked x -> cheb p x <= d ->
  exists i j k, ((i, j), k) ∈ influence_square marked p d /\
                x = (i - d + fst p, j - d + snd p).
Proof.
  intros [Hr Hc] Hd Hp0 Hp1 [Hxr Hxc] Hx. unfold cheb in Hx.
  destruct (slice_inside (nrows marked) (fst p) d Hd ltac:(lia)) as [Hrs Hrl].
  destruct (slice_inside (ncols marked) (snd p) d Hd ltac:(lia)) as [Hcs Hcl].
  exists (Z.of_nat (Z.to_nat (fst x - (fst p - d)))),
         (Z.of_nat (Z.to_nat (snd x - (snd p - d)))).
  eexists. split.
  - unfold influence_square. apply elem_of_ndenumerate_2.
    + rewrite Hrl. lia.
    + rewrite Hcl. lia.
  - destruct x as [x0 x1]. simpl in *. f_equal; lia.
Qed.

















(** ** Objects are connected *)












(** ** is_valid and the window of the neighbour scans *)

Lemma is_valid_in_bounds {A} (a : ndarray A) p :
  is_valid p (nrows a, ncols a) = true <-> in_bounds a p.
Proof.
  unfold is_valid, in_bounds. simpl.
  rewrite !andb_true_iff, !Z.leb_le, !Z.ltb_lt. lia.
Qed.

Lemma influence_square_inside (marked : ndarray Z) p d i j k :
  in_bounds marked p -> 0 <= d -> d <= fst p -> d <= snd p ->
  ((i, j), k) ∈ influence_square marked p d ->
  in_bounds marked (i - d + fst p, j - d + snd p) /\
  cheb p (i - d + fst p, j - d + snd p) <= d /\
  offset marked (i - d + fst p, j - d + snd p) = Some k.
Proof.
  intros [Hr Hc] Hd Hp0 Hp1 Hin. unfold influence_square in Hin.
  apply elem_of_ndenumerate in Hin as (i' & j' & -> & -> & Hi & Hj & ->).
  destruct (slice_inside (nrows marked) (fst p) d Hd ltac:(lia)) as [Hrs Hrl].
  destruct (slice_inside (ncols marked) (snd p) d Hd ltac:(lia)) as [Hcs Hcl].
  rewrite Hrs, Hrl, Hcs, Hcl in *.
  assert (in_bounds marked (Z.of_nat i' - d + fst p, Z.of_nat j' - d + snd p)) as Hb.
  { unfold in_bounds. simpl. lia. }
  split; [exact Hb|]. split; [unfold cheb; simpl; lia|].
  rewrite (offset_in_bounds _ _ Hb). simpl. f_equal.
  replace (Z.to_nat (Z.of_nat i' - d + fst p)) with (Z.to_nat (fst p - d) + i')%nat by lia.
  replace (Z.to_nat (Z.of_nat j' - d + snd p)) with (Z.to_nat (snd p - d) + j')%nat by lia.
  reflexivity.
Qed.

Lemma window3_influence_square marked p : window3 marked p = influence_square marked p 1.
Proof. unfold window3, influence_square. f_equal; lia. Qed.

(** X18.  Away from the first row and the first column the neighbour
    scans of [set_maximum] and [remove_foothills] see the clipped 3 x 3
    neighbourhood: for a pixel of the grid with row and column at least 1
    the pixels that the loop computes from the entries of its window are
    exactly the pixels within one king's move that [is_valid] accepts, and
    each entry shows the cell of the pixel computed from it. *)
Theorem window3_off_the_low_edges (marked : ndarray Z) p x :
  is_valid p (nrows marked, ncols marked) = true ->
  1 <= fst p -> 1 <= snd p ->
  (exists i j k, ((i, j), k) ∈ window3 marked p /\ x = (i - 1 + fst p, j - 1 + snd p) /\
                 offset marked x = Some k) <->
  (is_valid x (nrows marked, ncols marked) = true /\ adjacent p x).
Proof.
  intros Hp Hp0 Hp1. apply is_valid_in_bounds in Hp.
  rewrite window3_influence_square, is_valid_in_bounds.
  assert (adjacent p x <-> cheb p x <= 1) as -> by (unfold adjacent, cheb; lia).
  split.
  - intros (i & j & k & Hin & -> & _).
    destruct (influence_square_inside marked p 1 i j k Hp ltac:(lia) Hp0 Hp1 Hin) as (? & ? & _).
    auto.
  - intros [Hx Hc].
    destruct (influence_square_covers marked p 1 x Hp ltac:(lia) Hp0 Hp1 Hx Hc)
      as (i & j & k & Hin & ->).
    exists i, j, k. split; [exact Hin|]. split; [reflexivity|].
    apply (influence_square_inside marked p 1 i j k Hp ltac:(lia) Hp0 Hp1 Hin).
Qed.

(** ** Calls that raise nothing *)













Lemma in_bounds_okc2 {A} (a : ndarray A) p : in_bounds a p -> okc2 a p.
Proof. unfold okc2, okc, in_bounds. lia. Qed.

























(** ** Concrete runs of the further properties *)

Lemma quantize_returns_witness :
  exists pixels q_data,
    quantize ew_0_10 peak_and_plateau = Ok (pixels, q_data) /\
    same_shape peak_and_plateau q_data /\ well_formed q_data /\
    keys pixels = seqZ 0 (max_bin ew_0_10 + 1).
Proof. apply (quantize_returns ew_0_10 peak_and_plateau). reflexivity. Defined.

Lemma quantized_values_in_range_witness :
  Forall (fun v => v = -1 \/ 0 <= v <= max_bin ew_0_10) (cells (snd demo_quantized)) /\
  (min_thresh ew_0_10 = 0 -> 1 <= max_bin ew_0_10 ->
   Forall (fun v => v <> 0) (cells (snd demo_quantized)) /\
   dict_get (fst demo_quantized) 0 = Ok []).
Proof.
  apply (quantized_values_in_range ew_0_10 peak_and_plateau
           (fst demo_quantized) (snd demo_quantized)).
  - simpl. lia.
  - vm_compute. reflexivity.
Defined.

Lemma quantize_bins_exact_witness :
  StronglySorted row_major
    [(0, 4); (0, 5); (0, 6); (1, 4); (1, 5); (1, 6); (2, 4); (2, 5); (2, 6)] /\
  NoDup [(0, 4); (0, 5); (0, 6); (1, 4); (1, 5); (1, 6); (2, 4); (2, 5); (2, 6)] /\
  forall p,
    p ∈ [(0, 4); (0, 5); (0, 6); (1, 4); (1, 5); (1, 6); (2, 4); (2, 5); (2, 6)] <->
    in_bounds (snd demo_quantized) p /\ getitem (snd demo_quantized) p = Ok 2.
Proof.
  apply (quantize_bins_exact ew_0_10 peak_and_plateau (fst demo_quantized) (snd demo_quantized) 2).
  - reflexivity.
  - vm_compute. reflexivity.
  - reflexivity.
Defined.

Lemma centers_are_pixels_witness :
  keys demo_centers = keys (fst demo_quantized) /\
  exists ps, dict_get (fst demo_quantized) 2 = Ok ps /\ (1, 4) ∈ ps.
Proof.
  apply (centers_are_pixels ew_0_10 (fst demo_quantized) (snd demo_quantized) demo_centers
           2 [(1, 4)] (1, 4)).
  - vm_compute. reflexivity.
  - reflexivity.
  - left.
Defined.

Lemma label_zero_max_bin_witness :
  label 244 ew_0_0 lone_pixel_grid true = Raise ZeroDivisionError.
Proof.
  apply (label_zero_max_bin 244 ew_0_0 lone_pixel_grid true).
  - reflexivity.
  - reflexivity.
  - simpl. lia.
Defined.

Lemma label_negative_distance_witness :
  label 244 ew_negative_distance lone_pixel_grid true = Raise ValueError.
Proof.
  apply (label_negative_distance 244 ew_negative_distance lone_pixel_grid true).
  - reflexivity.
  - simpl. lia.
Defined.

Lemma label_without_bins_witness :
  label 244 ew_10_0 lone_pixel_grid true
  = Ok (full (nrows lone_pixel_grid) (ncols lone_pixel_grid) 0).
Proof.
  apply (label_without_bins 244 ew_10_0 lone_pixel_grid true).
  - reflexivity.
  - simpl. lia.
  - simpl. lia.
Defined.

Lemma label_keeps_shape_witness :
  same_shape peak_and_plateau demo_labels /\ well_formed demo_labels.
Proof.
  apply (label_keeps_shape 568 ew_0_10 peak_and_plateau true demo_labels).
  vm_compute. reflexivity.
Defined.


Lemma set_maximum_writes_witness :
  (forall k,
     cells (full 3 3 1) !! k = cells unmarked_3x3 !! k \/
     (cells unmarked_3x3 !! k = Some UNMARKED /\ cells (full 3 3 1) !! k = Some 1 /\
      (offset unmarked_3x3 (1, 1) = Some k \/
       exists qv, cells (full 3 3 3) !! k = Some qv /\ 2 <= qv))) /\
  ([((1, 1), @nil pixel)] = [] \/
   exists as_glob, [((1, 1), @nil pixel)] = [] ++ [((1, 1), as_glob)] /\ true = true /\
                   Forall (foot (full 3 3 3) 2) as_glob).
Proof.
  apply (set_maximum_writes 244 ew_area7 (full 3 3 3) unmarked_3x3 (1, 1) 2 [] 1
           (full 3 3 1) [((1, 1), [])] true).
  - discriminate.
  - split; reflexivity.
  - vm_compute. reflexivity.
Defined.

Lemma remove_foothills_writes_witness :
  same_shape lone_peak_labelled lone_peak_globbed /\
  forall k, cells lone_peak_globbed !! k = cells lone_peak_labelled !! k \/
            (cells lone_peak_globbed !! k = Some GLOBBED /\
             exists qv, cells q_lone_peak !! k = Some qv /\ 0 <= qv < 1).
Proof.
  apply (remove_foothills_writes 100 q_lone_peak lone_peak_labelled 2 1 lone_peak_centers
           [((1, 1), [(1, 2)])] lone_peak_globbed).
  - split; reflexivity.
  - repeat constructor. exists 0. split; [reflexivity|lia].
  - vm_compute. reflexivity.
Defined.

Lemma excluded_pixels_stay_unmarked_witness :
  exists qv, cells (snd demo_quantized) !! 4%nat = Some qv /\ 0 <= qv.
Proof.
  apply (excluded_pixels_stay_unmarked 568 ew_0_10 peak_and_plateau
           (fst demo_quantized) (snd demo_quantized) true demo_labels 4%nat 2).
  - vm_compute. reflexivity.
  - vm_compute. reflexivity.
  - reflexivity.
  - discriminate.
Defined.

Lemma is_closest_spec_witness :
  exists r, is_closest (0, 0) (1, 1) demo_centers 2 = Ok r /\
    (r = true <->
     forall o cs c, Z.quot 2 2 <= o -> dict_get demo_centers o = Ok cs -> c ∈ cs ->
                    sqdist (0, 0) (1, 1) <= sqdist (0, 0) c).
Proof.
  apply (is_closest_spec (0, 0) (1, 1) demo_centers 2 11).
  - reflexivity.
  - lia.
Defined.

Lemma size_filter_keeps_witness :
  same_shape bar_and_block block_only /\
  exists w, cells block_only !! 1%nat = Some w /\
    (w <> 0 <->
     1 <= 1 /\ 2 <= Z.of_nat (pixel_count 1 bar_and_block) /\
     two_rows bar_and_block 1 /\ two_cols bar_and_block 1).
Proof.
  apply (size_filter_keeps bar_and_block 2 block_only 1%nat 1).
  - reflexivity.
  - vm_compute. reflexivity.
  - reflexivity.
Defined.

Lemma size_filter_renumbers_witness :
  (exists K, Forall (fun w => 0 <= w <= K) (cells block_only) /\
             forall c, 1 <= c <= K -> c ∈ cells block_only) /\
  (forall k k' v v' w w',
     cells bar_and_block !! k = Some v -> cells bar_and_block !! k' = Some v' ->
     cells block_only !! k = Some w -> cells block_only !! k' = Some w' ->
     w <> 0 -> w' <> 0 -> (w < w' <-> v < v')).
Proof.
  apply (size_filter_renumbers bar_and_block 2 block_only).
  - reflexivity.
  - vm_compute. reflexivity.
Defined.



Lemma window3_off_the_low_edges_witness :
  (exists i j k, ((i, j), k) ∈ window3 unmarked_3x3 (1, 1) /\
                 (2, 2) = (i - 1 + fst ((1, 1) : pixel), j - 1 + snd ((1, 1) : pixel)) /\
                 offset unmarked_3x3 (2, 2) = Some k) <->
  (is_valid (2, 2) (nrows unmarked_3x3, ncols unmarked_3x3) = true /\ adjacent (1, 1) (2, 2)).
Proof.
  apply (window3_off_the_low_edges unmarked_3x3 (1, 1) (2, 2)).
  - reflexivity.
  - simpl. lia.
  - simpl. lia.
Defined.

